(** * VROOM input parser ([src/utils/input_parser.cpp])

    A shallow embedding of the JSON-to-model reader of VROOM and the
    properties of its specification.  The reader walks a generic JSON tree
    (rapidjson's DOM) by hand, throws [Exception(ERROR, message)] at the
    first violation and otherwise returns the populated [Input] aggregate. *)

From Stdlib Require Import QArith.
From stdpp Require Import base option list sorting gmap strings pretty.

Open Scope string_scope.
Open Scope list_scope.
Open Scope Z_scope.

(** ** Outcomes

    A function of the reader either returns, throws a VROOM [Exception]
    carrying an error kind and a message, or breaks the contract of a JSON
    accessor ([RAPIDJSON_ASSERT]: a member read on a value that is no object,
    a missing member dereferenced, a typed getter on the wrong type). *)

Inductive ERROR := INPUT | ROUTING.

Inductive result (A : Type) : Type :=
| Ok (a : A)
| Throw (e : ERROR) (msg : string)
| AssertFail.
Arguments Ok {A} a.
Arguments Throw {A} e msg.
Arguments AssertFail {A}.

Definition bind {A B} (m : result A) (f : A → result B) : result B :=
  match m with
  | Ok a => f a
  | Throw e msg => Throw e msg
  | AssertFail => AssertFail
  end.

Notation "'let*' x ':=' m 'in' k" := (bind m (λ x, k))
  (at level 10, x name, m at level 100, k at level 200).
Notation "m ';;;' k" := (bind m (λ _, k))
  (at level 100, k at level 200, right associativity).

(** [a or b] and [a and b] of C++ evaluate [b] only when [a] does not decide. *)
Definition or_else (a b : result bool) : result bool :=
  let* x := a in if x then Ok true else b.
Definition and_then (a b : result bool) : result bool :=
  let* x := a in if x then b else Ok false.
Definition not_ (a : result bool) : result bool :=
  let* x := a in Ok (negb x).
Infix "|or|" := or_else (at level 51, right associativity).
Infix "|and|" := and_then (at level 41, right associativity).

(** [f(v)] for a pure observer [f] of a value that is itself computed. *)
Definition lift {A B} (f : A → B) (m : result A) : result B :=
  let* x := m in Ok (f x).

(** [if (c) { body }] for a statement. *)
Definition when (c : result bool) (body : result unit) : result unit :=
  let* b := c in if b then body else Ok tt.

(** [throw Exception(e, msg)], the message being computed first. *)
Definition throw {A} (e : ERROR) (msg : result string) : result A :=
  let* m := msg in Throw e m.

(** Sequential traversal of a container, stopping at the first failure:
    [std::transform] with a throwing function, and [for] loops. *)
Fixpoint mapM {A B} (f : A → result B) (l : list A) : result (list B) :=
  match l with
  | [] => Ok []
  | x :: l' => let* y := f x in let* ys := mapM f l' in Ok (y :: ys)
  end.

(** [for (i = first; i < first + l.Size(); ++i) s = body(s, i, l[i]);] *)
Fixpoint for_index {A St} (body : St → nat → A → result St) (i : nat) (s : St)
    (l : list A) : result St :=
  match l with
  | [] => Ok s
  | x :: l' => let* s' := body s i x in for_index body (S i) s' l'
  end.

(** ** Calls whose arguments may throw

    [f(a, b, c)]: C++ evaluates the arguments of a call one after the other,
    in an order that the compiler chooses.  A call is written here as
    [Fn f <@> a <@> b <@> c], with its arguments in the order of the source. *)

Inductive Call (A : Type) : Type :=
| Fn (f : A)
| Arg {B : Type} (c : Call (B → A)) (b : result B).
Arguments Fn {A} f.
Arguments Arg {A B} c b.
Infix "<@>" := Arg (at level 50, left associativity).

(** The outcome of an expression whose value is left aside. *)
Definition void {A} (r : result A) : result unit := r ;;; Ok tt.
Definition failed {A} (r : result A) : bool :=
  match r with Ok _ => false | _ => true end.

(** The outcomes of the arguments of a call, as they are written. *)
Fixpoint outcomes {A} (c : Call A) : list (result unit) :=
  match c with
  | Fn _ => []
  | Arg c b => outcomes c ++ [void b]
  end.

(** The call once its arguments are evaluated, from the first to the last. *)
Fixpoint in_written_order {A} (c : Call A) {R} (k : A → result R) : result R :=
  match c with
  | Fn f => k f
  | Arg c b => in_written_order c (λ g, let* y := b in k (g y))
  end.

(** The arguments of a call that do not return, each with its position. *)
Fixpoint failures_from (i : nat) (l : list (result unit)) : list (nat * result unit) :=
  match l with
  | [] => []
  | r :: l =>
      if failed r then (i, r) :: failures_from (S i) l else failures_from (S i) l
  end.

(** Of the arguments of a call that do not return, the one that is
    evaluated first: that of the lowest rank, and of two
    arguments of the same rank the one that is written first. *)
Definition first_evaluated (rank : nat → nat) (failures : list (nat * result unit))
    : result unit :=
  match failures with
  | [] => Ok tt
  | f :: rest =>
      (foldl (λ first g, if decide (rank g.1 < rank first.1)%nat then g else first)
         f rest).2
  end.

(** A call under a given order of evaluation: it ends as the first evaluated
    argument that does not return, and returns when all its arguments do;
    evaluating an argument has no other effect. *)
Definition call_in_order {A} (rank : nat → nat) (c : Call A) : result A :=
  first_evaluated rank (failures_from 0 (outcomes c)) ;;;
  in_written_order c Ok.

(** ** The JSON tree

    Numbers keep rapidjson's distinction between a literal stored as an
    integer and one stored as a double; an object is the sequence of its
    members, in document order and with duplicates. *)

#[warnings="-register-all"]
Inductive Value :=
| JNull
| JBool (b : bool)
| JInt (z : Z)
| JDouble (q : Q)
| JString (s : string)
| JArray (elems : list Value)
| JObject (members : list (string * Value)).

Definition IsArray (v : Value) : bool :=
  match v with JArray _ => true | _ => false end.
Definition IsObject (v : Value) : bool :=
  match v with JObject _ => true | _ => false end.
Definition IsString (v : Value) : bool :=
  match v with JString _ => true | _ => false end.
Definition IsNumber (v : Value) : bool :=
  match v with JInt _ | JDouble _ => true | _ => false end.
(** An integer literal that fits [unsigned] (32 bits). *)
Definition IsUint (v : Value) : bool :=
  match v with JInt z => bool_decide (0 ≤ z < 2 ^ 32) | _ => false end.
(** An integer literal that fits [uint64_t]. *)
Definition IsUint64 (v : Value) : bool :=
  match v with JInt z => bool_decide (0 ≤ z < 2 ^ 64) | _ => false end.

(** The first member with the given name, as rapidjson's [FindMember]. *)
Fixpoint FindMember (m : list (string * Value)) (name : string) : option Value :=
  match m with
  | [] => None
  | (k, v) :: m' => if decide (k = name) then Some v else FindMember m' name
  end.

Definition HasMember (v : Value) (name : string) : result bool :=
  match v with
  | JObject m => Ok (bool_decide (is_Some (FindMember m name)))
  | _ => AssertFail
  end.

(** [v[name]] *)
Definition member (v : Value) (name : string) : result Value :=
  match v with
  | JObject m => from_option Ok AssertFail (FindMember m name)
  | _ => AssertFail
  end.

(** [v[i]] *)
Definition elem (v : Value) (i : nat) : result Value :=
  match v with
  | JArray l => from_option Ok AssertFail (l !! i)
  | _ => AssertFail
  end.

Definition Size (v : Value) : result nat :=
  match v with JArray l => Ok (length l) | _ => AssertFail end.
Definition Empty (v : Value) : result bool :=
  match v with JArray l => Ok (bool_decide (l = [])) | _ => AssertFail end.
(** [v.Begin() .. v.End()] *)
Definition elements_of (v : Value) : result (list Value) :=
  match v with JArray l => Ok l | _ => AssertFail end.

Definition GetUint (v : Value) : result Z :=
  match v with
  | JInt z => if IsUint v then Ok z else AssertFail
  | _ => AssertFail
  end.
Definition GetUint64 (v : Value) : result Z :=
  match v with
  | JInt z => if IsUint64 v then Ok z else AssertFail
  | _ => AssertFail
  end.
(** [static_cast<double>] of an integer of at most 64 bits: the integer
    itself up to 53 significant bits, and beyond them the nearest integer
    with 53 significant bits, the even one of two that are equally near. *)
Definition to_double (z : Z) : Z :=
  let a := Z.abs z in
  let excess := Z.log2 a - 52 in
  if decide (excess ≤ 0) then z
  else
    let ulp := 2 ^ excess in
    let q := a / ulp in
    let r := a mod ulp in
    let q := if decide (2 * r < ulp) then q
             else if decide (ulp < 2 * r) then q + 1
             else if Z.even q then q else q + 1 in
    Z.sgn z * (q * ulp).
Definition GetDouble (v : Value) : result Q :=
  match v with
  | JInt z => Ok (inject_Z (to_double z))
  | JDouble q => Ok q
  | _ => AssertFail
  end.
(** [GetString] returns a pointer to the characters of the string, which
    can hold NUL characters (written [\u0000] in the document). *)
Definition GetString (v : Value) : result string :=
  match v with JString s => Ok s | _ => AssertFail end.

(** The [std::string] built from a [const char*]: the characters before the
    first NUL. *)
Fixpoint c_str (s : string) : string :=
  match s with
  | "" => ""
  | String c s' => if decide (c = Ascii.zero) then "" else String c (c_str s')
  end.

(** [std::to_string] of an unsigned integer. *)
Definition to_string (z : Z) : string := pretty z.
Definition to_string_nat (n : nat) : string := pretty n.

(** ** The domain model

    The integer types of the model ([Id], [Index], [Duration], [Priority],
    [Cost], the entries of an [Amount]) are declared outside this file; a
    value read from the document is stored as it is read.  A double is the
    rational it denotes. *)

Definition Id := Z.
Definition Index := Z.
Definition Duration := Z.
Definition Priority := Z.
Definition Cost := Z.
Definition Coordinates : Type := Q * Q.
Definition Amount := list Z.
Definition Skills := gset Z.

(** Modelled from the spec: the [Location] class is declared outside this
    file; a location is a bare matrix index, a bare coordinate pair, or both.
    The three functions are its three constructors. *)
Record Location := mkLocation {
  loc_index : option Index;
  loc_coords : option Coordinates
}.
Definition Location_index (i : Index) : Location := mkLocation (Some i) None.
Definition Location_coords (c : Coordinates) : Location := mkLocation None (Some c).
Definition Location_both (i : Index) (c : Coordinates) : Location :=
  mkLocation (Some i) (Some c).

(** Modelled from the spec: the [TimeWindow] class is declared outside this
    file; a window is [(start, end)], built without comparing the bounds, the
    default window is the unbounded one (its end is the largest [Duration],
    which bounds every value read by [GetUint]), and windows are ordered by
    [(start, end)]. *)
Record TimeWindow := mkTimeWindow { tw_start : Duration; tw_end : Duration }.
Definition TimeWindow_default : TimeWindow := mkTimeWindow 0 (2 ^ 32 - 1).
Definition tw_lt (a b : TimeWindow) : Prop :=
  tw_start a < tw_start b ∨ (tw_start a = tw_start b ∧ tw_end a < tw_end b).
Global Instance tw_lt_dec : RelDecision tw_lt.
Proof. intros a b. unfold tw_lt. apply _. Defined.

(** [std::sort(first, last, lt)]: the outcome is ordered so that no element
    is [lt] an earlier one.  For time windows the order on [(start, end)] is
    total, so that outcome is unique. *)
Definition sort_by {A} (lt : relation A) `{!RelDecision lt} (l : list A) : list A :=
  merge_sort (λ a b, ¬ lt b a) l.

Record ForcedService := mkForcedService {
  fs_at : option Duration;
  fs_after : option Duration;
  fs_before : option Duration
}.

Record Break := mkBreak {
  break_id : Id;
  break_tws : list TimeWindow;
  break_service : Duration;
  break_description : string
}.

Inductive STEP_TYPE := START | JOB | BREAK | END.
Inductive JOB_TYPE := SINGLE | PICKUP | DELIVERY.

(** The three constructors of [VehicleStep] used by the reader. *)
Inductive VehicleStep :=
| Step (t : STEP_TYPE) (fs : ForcedService)
| StepId (t : STEP_TYPE) (id : Id) (fs : ForcedService)
| StepJob (t : JOB_TYPE) (id : Id) (fs : ForcedService).

Record Vehicle := mkVehicle {
  vehicle_id : Id;
  vehicle_start : option Location;
  vehicle_end : option Location;
  vehicle_capacity : Amount;
  vehicle_skills : Skills;
  vehicle_tw : TimeWindow;
  vehicle_breaks : list Break;
  vehicle_description : string;
  vehicle_steps : list VehicleStep
}.

Record Job := mkJob {
  job_id : Id;
  job_type : JOB_TYPE;
  job_location : Location;
  job_service : Duration;
  job_delivery : Amount;
  job_pickup : Amount;
  job_skills : Skills;
  job_priority : Priority;
  job_tws : list TimeWindow;
  job_description : string
}.

(** Modelled from the spec: the two [Job] constructors are declared outside
    this file.  The first builds a plain job from its delivery and pickup
    amounts; the second builds one side of a shipment, whose single amount is
    what a pickup picks up and what a delivery delivers. *)
Definition Job_single (id : Id) (loc : Location) (service : Duration)
    (delivery pickup : Amount) (skills : Skills) (priority : Priority)
    (tws : list TimeWindow) (description : string) : Job :=
  mkJob id SINGLE loc service delivery pickup skills priority tws description.
Definition Job_shipment (id : Id) (type : JOB_TYPE) (loc : Location)
    (service : Duration) (amount : Amount) (skills : Skills)
    (priority : Priority) (tws : list TimeWindow) (description : string) : Job :=
  mkJob id type loc service
    (match type with DELIVERY => amount | _ => replicate (length amount) 0 end)
    (match type with PICKUP => amount | _ => replicate (length amount) 0 end)
    skills priority tws description.

(** ** Scalar extractors (lines 30-121) *)

(* Helper to get optional array of coordinates. *)
Definition parse_coordinates (object : Value) (key : string) : result Coordinates :=
  let* k := member object key in
  when (Ok (negb (IsArray k)) |or| lift (λ n, bool_decide (n < 2)%nat) (Size k) |or|
        not_ (lift IsNumber (elem k 0)) |or| not_ (lift IsNumber (elem k 1)))
    (throw INPUT (Ok ("Invalid " +:+ key +:+ " array."))) ;;;
  let* k0 := elem k 0 in
  let* k1 := elem k 1 in
  let* x := GetDouble k0 in
  let* y := GetDouble k1 in
  Ok (x, y).

Definition get_string (object : Value) (key : string) : result string :=
  let value := "" in
  let* has := HasMember object key in
  if has then
    let* k := member object key in
    when (Ok (negb (IsString k)))
      (throw INPUT (Ok ("Invalid " +:+ key +:+ " value."))) ;;;
    let* chars := GetString k in
    Ok (c_str chars)
  else Ok value.

Definition get_amount (object : Value) (key : string) (size : nat) : result Amount :=
  (* Default to zero amount with provided size. *)
  let amount := replicate size 0 in
  let* has := HasMember object key in
  if has then
    let* k := member object key in
    when (Ok (negb (IsArray k)))
      (throw INPUT (Ok ("Invalid " +:+ key +:+ " array."))) ;;;
    let* n := Size k in
    when (Ok (bool_decide (n ≠ size)))
      (throw INPUT (Ok ("Inconsistent " +:+ key +:+ " length: " +:+
                        to_string_nat n +:+ " and " +:+ to_string_nat size +:+ "."))) ;;;
    let* elems := elements_of k in
    for_index (λ amount i x,
        when (Ok (negb (IsUint x)))
          (throw INPUT (Ok ("Invalid " +:+ key +:+ " value."))) ;;;
        let* u := GetUint x in
        Ok (<[i := u]> amount))
      0%nat amount elems
  else Ok amount.

Definition get_skills (object : Value) : result Skills :=
  let skills : Skills := ∅ in
  let* has := HasMember object "skills" in
  if has then
    let* k := member object "skills" in
    when (Ok (negb (IsArray k))) (throw INPUT (Ok "Invalid skills object.")) ;;;
    let* elems := elements_of k in
    for_index (λ (skills : Skills) (_ : nat) x,
        when (Ok (negb (IsUint x))) (throw INPUT (Ok "Invalid skill value.")) ;;;
        let* u := GetUint x in
        Ok ({[ u ]} ∪ skills))
      0%nat skills elems
  else Ok skills.

Definition get_service (object : Value) : result Duration :=
  let service := 0 in
  let* has := HasMember object "service" in
  if has then
    let* k := member object "service" in
    when (Ok (negb (IsUint k))) (throw INPUT (Ok "Invalid service value.")) ;;;
    GetUint k
  else Ok service.

(** ** Structural validators (lines 123-180) *)

Definition check_id (v : Value) (type : string) : result unit :=
  when (Ok (negb (IsObject v))) (throw INPUT (Ok ("Invalid " +:+ type +:+ "."))) ;;;
  when (not_ (HasMember v "id") |or| not_ (lift IsUint64 (member v "id")))
    (throw INPUT (Ok ("Invalid or missing id for " +:+ type +:+ "."))).

Definition check_shipment (v : Value) : result unit :=
  when (Ok (negb (IsObject v))) (throw INPUT (Ok "Invalid shipment.")) ;;;
  when (not_ (HasMember v "pickup") |or| not_ (lift IsObject (member v "pickup")))
    (throw INPUT (Ok "Missing pickup for shipment.")) ;;;
  when (not_ (HasMember v "delivery") |or| not_ (lift IsObject (member v "delivery")))
    (throw INPUT (Ok "Missing delivery for shipment.")).

(** [v["id"].GetUint64()] *)
Definition get_id (v : Value) : result Id :=
  let* k := member v "id" in GetUint64 k.

(** [std::to_string(v["id"].GetUint64())] *)
Definition id_string (v : Value) : result string :=
  lift to_string (get_id v).

Definition check_location_index (v : Value) (type : string) (matrix_size : nat)
    : result unit :=
  when (not_ (HasMember v "location_index") |or|
        not_ (lift IsUint (member v "location_index")))
    (throw INPUT
       (let* id := id_string v in
        Ok ("Invalid location_index for " +:+ type +:+ " " +:+ id +:+ "."))) ;;;
  when (let* k := member v "location_index" in
        let* x := GetUint k in Ok (bool_decide (Z.of_nat matrix_size ≤ x)))
    (throw INPUT
       (let* id := id_string v in
        Ok ("location_index exceeding matrix size for " +:+ type +:+ " " +:+
            id +:+ "."))).

Definition check_location (v : Value) (type : string) : result unit :=
  when (not_ (HasMember v "location") |or| not_ (lift IsArray (member v "location")))
    (throw INPUT
       (let* id := id_string v in
        Ok ("Invalid location for " +:+ type +:+ " " +:+ id +:+ "."))).

Definition get_time_window (tw : Value) : result TimeWindow :=
  when (Ok (negb (IsArray tw)) |or| lift (λ n, bool_decide (n < 2)%nat) (Size tw) |or|
        not_ (lift IsUint (elem tw 0)) |or| not_ (lift IsUint (elem tw 1)))
    (throw INPUT (Ok "Invalid time-window.")) ;;;
  let* t0 := elem tw 0 in
  let* t1 := elem tw 1 in
  let* a := GetUint t0 in
  let* b := GetUint t1 in
  Ok (mkTimeWindow a b).

Definition get_vehicle_time_window (v : Value) : result TimeWindow :=
  let v_tw := TimeWindow_default in
  let* has := HasMember v "time_window" in
  if has then let* k := member v "time_window" in get_time_window k
  else Ok v_tw.

(** ** Composite builders (lines 182-404) *)

Section Parser.

(** The order in which the build evaluates the arguments of a call:
    [argument_rank line i] ranks the argument at position [i] of the call at
    that line of the source. *)
Variable argument_rank : nat → nat → nat.

Definition call {A} (line : nat) (c : Call A) : result A :=
  call_in_order (argument_rank line) c.

Definition get_job_time_windows (j : Value) : result (list TimeWindow) :=
  let* has := HasMember j "time_windows" in
  if has then
    let* k := member j "time_windows" in
    when (Ok (negb (IsArray k)) |or| Empty k)
      (throw INPUT
         (let* id := id_string j in
          Ok ("Invalid time_windows array for job " +:+ id +:+ "."))) ;;;
    let* elems := elements_of k in
    let* tws := mapM get_time_window elems in
    Ok (sort_by tw_lt tws)
  else Ok [TimeWindow_default].

Definition get_break_time_windows (b : Value) : result (list TimeWindow) :=
  when (not_ (HasMember b "time_windows") |or|
        not_ (lift IsArray (member b "time_windows")) |or|
        (let* k := member b "time_windows" in Empty k))
    (throw INPUT
       (let* id := id_string b in
        Ok ("Invalid time_windows array for break " +:+ id +:+ "."))) ;;;
  let* k := member b "time_windows" in
  let* elems := elements_of k in
  let* tws := mapM get_time_window elems in
  Ok (sort_by tw_lt tws).

Definition get_break (b : Value) : result Break :=
  check_id b "break" ;;;
  call 226
    (Fn mkBreak <@> get_id b <@> get_break_time_windows b <@> get_service b <@>
     get_string b "description").

(** [a.tws[0]] of a break; every break built by [get_break] has one. *)
Definition first_tw (b : Break) : TimeWindow :=
  default TimeWindow_default (head (break_tws b)).
Definition break_lt (a b : Break) : Prop := tw_lt (first_tw a) (first_tw b).
Global Instance break_lt_dec : RelDecision break_lt.
Proof. intros a b. unfold break_lt. apply _. Defined.

Definition get_vehicle_breaks (v : Value) : result (list Break) :=
  let* has := HasMember v "breaks" in
  let* breaks :=
    if has then
      let* k := member v "breaks" in
      when (Ok (negb (IsArray k)))
        (throw INPUT
           (let* id := id_string v in
            Ok ("Invalid breaks for vehicle " +:+ id +:+ "."))) ;;;
      let* elems := elements_of k in
      mapM get_break elems
    else Ok [] in
  Ok (sort_by break_lt breaks).

(** One optional bound of a step's forced service (lines 268-291). *)
Definition get_forced (json_step : Value) (key : string) : result (option Duration) :=
  let* has := HasMember json_step key in
  if has then
    let* k := member json_step key in
    when (Ok (negb (IsUint k)))
      (throw INPUT (Ok ("Invalid " +:+ key +:+ " value."))) ;;;
    let* x := GetUint k in
    Ok (Some x)
  else Ok None.

(** The body of the loop over [v["steps"]] (lines 266-333). *)
Definition get_vehicle_step (v : Value) (steps : list VehicleStep) (json_step : Value)
    : result (list VehicleStep) :=
  let* at_ := get_forced json_step "service_at" in
  let* after := get_forced json_step "service_after" in
  let* before := get_forced json_step "service_before" in
  let forced_service := mkForcedService at_ after before in
  let* type_str := get_string json_step "type" in
  if decide (type_str = "start") then Ok (steps ++ [Step START forced_service])
  else if decide (type_str = "end") then Ok (steps ++ [Step END forced_service])
  else
    when (not_ (HasMember json_step "id") |or|
          not_ (lift IsUint64 (member json_step "id")))
      (throw INPUT
         (let* id := id_string v in
          Ok ("Invalid id in steps for vehicle " +:+ id +:+ "."))) ;;;
    let* k := member json_step "id" in
    let* id := GetUint64 k in
    if decide (type_str = "job") then
      Ok (steps ++ [StepJob SINGLE id forced_service])
    else if decide (type_str = "pickup") then
      Ok (steps ++ [StepJob PICKUP id forced_service])
    else if decide (type_str = "delivery") then
      Ok (steps ++ [StepJob DELIVERY id forced_service])
    else if decide (type_str = "break") then
      Ok (steps ++ [StepId BREAK id forced_service])
    else
      throw INPUT
        (let* id := id_string v in
         Ok ("Invalid type in steps for vehicle " +:+ id +:+ ".")).

Definition get_vehicle_steps (v : Value) : result (list VehicleStep) :=
  let steps := [] in
  let* has := HasMember v "steps" in
  if has then
    let* k := member v "steps" in
    when (Ok (negb (IsArray k)))
      (throw INPUT
         (let* id := id_string v in
          Ok ("Invalid steps for vehicle " +:+ id +:+ "."))) ;;;
    let* elems := elements_of k in
    for_index (λ steps (_ : nat) json_step, get_vehicle_step v steps json_step)
      0%nat steps elems
  else Ok steps.

(** The optional start or end location of a vehicle (lines 345-368 for
    [coords = "start"], [index = "start_index"], and 370-393 for the end;
    [what] is the head of the message, which differs in a blank). *)
Definition get_vehicle_location (json_vehicle : Value) (v_id : Id)
    (coords index what : string) : result (option Location) :=
  let* has_coords := HasMember json_vehicle coords in
  let* has_index := HasMember json_vehicle index in
  when (Ok has_index |and| not_ (lift IsUint (member json_vehicle index)))
    (throw INPUT (Ok (what +:+ to_string v_id +:+ "."))) ;;;
  if has_index then
    (* Custom provided matrices and index. *)
    let* k := member json_vehicle index in
    let* i := GetUint k in
    if has_coords then
      let* c := parse_coordinates json_vehicle coords in
      Ok (Some (Location_both i c))
    else Ok (Some (Location_index i))
  else
    if has_coords then
      let* c := parse_coordinates json_vehicle coords in
      Ok (Some (Location_coords c))
    else Ok None.

Definition get_vehicle (json_vehicle : Value) (amount_size : nat) : result Vehicle :=
  check_id json_vehicle "vehicle" ;;;
  let* v_id := get_id json_vehicle in
  let* start :=
    get_vehicle_location json_vehicle v_id "start" "start_index"
      "Invalid start_index for vehicle " in
  let* end_ :=
    get_vehicle_location json_vehicle v_id "end" "end_index"
      "Invalid end_index for vehicle" in
  call 395
    (Fn mkVehicle <@> Ok v_id <@> Ok start <@> Ok end_ <@>
     get_amount json_vehicle "capacity" amount_size <@>
     get_skills json_vehicle <@>
     get_vehicle_time_window json_vehicle <@>
     get_vehicle_breaks json_vehicle <@>
     get_string json_vehicle "description" <@>
     get_vehicle_steps json_vehicle).

(** ** The aggregate and the run-time configuration *)

Record Server := mkServer { server_host : string; server_port : string }.

Inductive ROUTER := OSRM | LIBOSRM | ORS.

(** [cl_args.input] is the text of the document; the reader below starts
    from the tree that [rapidjson::Document::Parse] builds from it. *)
Record CLArgs := mkCLArgs {
  cl_geometry : bool;
  cl_router : ROUTER;
  cl_servers : gmap string Server
}.

(** The three routing wrappers, with the arguments they are built from. *)
Inductive Wrapper :=
| OsrmRoutedWrapper (profile : string) (server : Server)
| LibosrmWrapper (profile : string)
| OrsWrapper (profile : string) (server : Server).

Definition Matrix := list (list Cost).

(** Modelled from the spec: the [Input] class is declared outside this file;
    the aggregate holds the capacity dimensionality, the geometry flag, the
    vehicles, the jobs, the shipment pairs, the cost matrix and the routing
    capability, and its mutators register what they are given. *)
Record Input := mkInput {
  input_amount_size : nat;
  input_geometry : bool;
  input_vehicles : list Vehicle;
  input_jobs : list Job;
  input_shipments : list (Job * Job);
  input_matrix : option Matrix;
  input_routing : option Wrapper
}.

Definition Input_new (amount_size : nat) : Input :=
  mkInput amount_size false [] [] [] None None.
Definition set_geometry (input : Input) (geometry : bool) : Input :=
  mkInput (input_amount_size input) geometry (input_vehicles input)
    (input_jobs input) (input_shipments input) (input_matrix input)
    (input_routing input).
Definition add_vehicle (input : Input) (v : Vehicle) : Input :=
  mkInput (input_amount_size input) (input_geometry input)
    (input_vehicles input ++ [v]) (input_jobs input) (input_shipments input)
    (input_matrix input) (input_routing input).
Definition add_job (input : Input) (j : Job) : Input :=
  mkInput (input_amount_size input) (input_geometry input) (input_vehicles input)
    (input_jobs input ++ [j]) (input_shipments input) (input_matrix input)
    (input_routing input).
Definition add_shipment (input : Input) (pickup delivery : Job) : Input :=
  mkInput (input_amount_size input) (input_geometry input) (input_vehicles input)
    (input_jobs input) (input_shipments input ++ [(pickup, delivery)])
    (input_matrix input) (input_routing input).
Definition set_matrix (input : Input) (m : Matrix) : Input :=
  mkInput (input_amount_size input) (input_geometry input) (input_vehicles input)
    (input_jobs input) (input_shipments input) (Some m) (input_routing input).
Definition set_routing (input : Input) (w : Wrapper) : Input :=
  mkInput (input_amount_size input) (input_geometry input) (input_vehicles input)
    (input_jobs input) (input_shipments input) (input_matrix input) (Some w).

(** ** The top-level assembler (lines 406-711) *)

(** Constants and build options declared outside this file: the largest
    priority, the profile of a vehicle that names none, whether the build
    embeds libosrm, and whether libosrm can be set up for a profile. *)
Variable MAX_PRIORITY : Priority.
Variable DEFAULT_PROFILE : string.
Variable USE_LIBOSRM : bool.
Variable libosrm_loads : string → bool.

(** The last of the scalar extractors (lines 109-121). *)
Definition get_priority (object : Value) : result Priority :=
  let priority := 0 in
  let* has := HasMember object "priority" in
  if has then
    let* k := member object "priority" in
    when (Ok (negb (IsUint k))) (throw INPUT (Ok "Invalid priority value.")) ;;;
    let* priority := GetUint k in
    when (Ok (bool_decide (priority > MAX_PRIORITY)))
      (throw INPUT (Ok "Invalid priority value.")) ;;;
    Ok priority
  else Ok priority.

(** Only for retro-compatibility: when no pickup and delivery keys are
    defined and (deprecated) amount key is present, it should be interpreted
    as a delivery. *)
Definition need_amount_compat (json_job : Value) : result bool :=
  HasMember json_job "amount" |and| not_ (HasMember json_job "delivery") |and|
  not_ (HasMember json_job "pickup").

(** The location of a job, pickup or delivery when a matrix is given:
    [v.HasMember("location") ? Location(index, coordinates) : Location(index)]. *)
Definition matrix_location (v : Value) (loc_index : Index) : result Location :=
  let* has := HasMember v "location" in
  if has then
    let* c := parse_coordinates v "location" in Ok (Location_both loc_index c)
  else Ok (Location_index loc_index).

(** A job of the [jobs] array when a matrix is given (lines 496-523). *)
Definition parse_job_matrix (amount_size matrix_size : nat) (json_job : Value)
    : result Job :=
  check_id json_job "job" ;;;
  check_location_index json_job "job" matrix_size ;;;
  let* k := member json_job "location_index" in
  let* job_loc_index := GetUint k in
  let* compat := need_amount_compat json_job in
  call 510
    (Fn Job_single <@> get_id json_job <@>
     matrix_location json_job job_loc_index <@>
     get_service json_job <@>
     (if compat then get_amount json_job "amount" amount_size
      else get_amount json_job "delivery" amount_size) <@>
     get_amount json_job "pickup" amount_size <@>
     get_skills json_job <@>
     get_priority json_job <@>
     get_job_time_windows json_job <@>
     get_string json_job "description").

(** A job of the [jobs] array without matrix (lines 593-615). *)
Definition parse_job_routing (amount_size : nat) (json_job : Value) : result Job :=
  check_id json_job "job" ;;;
  check_location json_job "job" ;;;
  let* compat := need_amount_compat json_job in
  call 605
    (Fn Job_single <@> get_id json_job <@>
     lift Location_coords (parse_coordinates json_job "location") <@>
     get_service json_job <@>
     (if compat then get_amount json_job "amount" amount_size
      else get_amount json_job "delivery" amount_size) <@>
     get_amount json_job "pickup" amount_size <@>
     get_skills json_job <@>
     get_priority json_job <@>
     get_job_time_windows json_job <@>
     get_string json_job "description").

(** One side of a shipment when a matrix is given (lines 542-560 for the
    pickup, 563-581 for the delivery). *)
Definition parse_side_matrix (matrix_size : nat) (json_side : Value)
    (label : string) (type : JOB_TYPE) (amount : Amount) (skills : Skills)
    (priority : Priority) : result Job :=
  check_id json_side label ;;;
  check_location_index json_side label matrix_size ;;;
  let* k := member json_side "location_index" in
  let* side_loc_index := GetUint k in
  call (match type with PICKUP => 549 | _ => 570 end)
    (Fn Job_shipment <@> get_id json_side <@> Ok type <@>
     matrix_location json_side side_loc_index <@>
     get_service json_side <@>
     Ok amount <@> Ok skills <@> Ok priority <@>
     get_job_time_windows json_side <@>
     get_string json_side "description").

(** One side of a shipment without matrix (lines 634-647 and 650-663). *)
Definition parse_side_routing (json_side : Value) (label : string)
    (type : JOB_TYPE) (amount : Amount) (skills : Skills) (priority : Priority)
    : result Job :=
  check_id json_side label ;;;
  check_location json_side label ;;;
  call (match type with PICKUP => 639 | _ => 655 end)
    (Fn Job_shipment <@> get_id json_side <@> Ok type <@>
     lift Location_coords (parse_coordinates json_side "location") <@>
     get_service json_side <@>
     Ok amount <@> Ok skills <@> Ok priority <@>
     get_job_time_windows json_side <@>
     get_string json_side "description").

(** A shipment (lines 532-583 with a matrix, 624-665 without); [side] is
    one of the two functions above. *)
Definition parse_shipment (amount_size : nat)
    (side : Value → string → JOB_TYPE → Amount → Skills → Priority → result Job)
    (json_shipment : Value) : result (Job * Job) :=
  check_shipment json_shipment ;;;
  (* Retrieve common stuff for both pickup and delivery. *)
  let* amount := get_amount json_shipment "amount" amount_size in
  let* skills := get_skills json_shipment in
  let* priority := get_priority json_shipment in
  (* Defining pickup job. *)
  let* json_pickup := member json_shipment "pickup" in
  let* pickup := side json_pickup "pickup" PICKUP amount skills priority in
  (* Defining delivery job. *)
  let* json_delivery := member json_shipment "delivery" in
  let* delivery := side json_delivery "delivery" DELIVERY amount skills priority in
  Ok (pickup, delivery).

(** [if (has_jobs) for (...) input.add_job(...)] *)
Definition add_jobs (job : Value → result Job) (has_jobs : bool)
    (json_input : Value) (input : Input) : result Input :=
  if has_jobs then
    let* k := member json_input "jobs" in
    let* elems := elements_of k in
    for_index (λ input (_ : nat) json_job,
        let* j := job json_job in Ok (add_job input j))
      0%nat input elems
  else Ok input.

(** [if (has_shipments) for (...) input.add_shipment(...)] *)
Definition add_shipments (shipment : Value → result (Job * Job))
    (has_shipments : bool) (json_input : Value) (input : Input) : result Input :=
  if has_shipments then
    let* k := member json_input "shipments" in
    let* elems := elements_of k in
    for_index (λ input (_ : nat) json_shipment,
        let* pd := shipment json_shipment in
        Ok (add_shipment input pd.1 pd.2))
      0%nat input elems
  else Ok input.

(** Load custom matrix while checking if it is square (lines 466-490). *)
Definition load_matrix (m : Value) : result Matrix :=
  when (Ok (negb (IsArray m))) (throw INPUT (Ok "Invalid matrix.")) ;;;
  let* matrix_size := Size m in
  let* rows := elements_of m in
  for_index (λ (matrix_input : Matrix) i row,
      when (Ok (negb (IsArray row)) |or|
            lift (λ n, bool_decide (n ≠ matrix_size)) (Size row))
        (throw INPUT (Ok ("Invalid matrix line " +:+ to_string_nat i +:+ "."))) ;;;
      let* mi := elements_of row in
      for_index (λ (matrix_input : Matrix) j cell,
          when (Ok (negb (IsUint cell)))
            (throw INPUT (Ok ("Invalid matrix entry (" +:+ to_string_nat i +:+
                              "," +:+ to_string_nat j +:+ ")."))) ;;;
          let* cost := GetUint cell in
          Ok (alter (λ line, <[j := cost]> line) i matrix_input))
        0%nat matrix_input mi)
    0%nat (replicate matrix_size (replicate matrix_size 0)) rows.

(** The body of the loop over the vehicles (lines 449-461); the state is
    the aggregate and the common profile. *)
Definition parse_vehicle (amount_size : nat) (st : Input * string)
    (json_vehicle : Value) : result (Input * string) :=
  let* v := get_vehicle json_vehicle amount_size in
  let input := add_vehicle st.1 v in
  let* current_profile := get_string json_vehicle "profile" in
  let current_profile :=
    if decide (current_profile = "") then DEFAULT_PROFILE else current_profile in
  (* First iteration only. *)
  let common_profile :=
    if decide (st.2 = "") then current_profile else st.2 in
  Ok (input, common_profile).

(** Set relevant routing wrapper (lines 670-707). *)
Definition routing_wrapper (cl_args : CLArgs) (common_profile : string)
    : result Wrapper :=
  match cl_router cl_args with
  | OSRM =>
      match cl_servers cl_args !! common_profile with
      | None => Throw INPUT ("Invalid profile: " +:+ common_profile +:+ ".")
      | Some server => Ok (OsrmRoutedWrapper common_profile server)
      end
  | LIBOSRM =>
      if USE_LIBOSRM then
        if libosrm_loads common_profile then Ok (LibosrmWrapper common_profile)
        else Throw ROUTING ("Invalid profile: " +:+ common_profile)
      else Throw ROUTING "VROOM compiled without libosrm installed."
  | ORS =>
      match cl_servers cl_args !! common_profile with
      | None => Throw INPUT ("Invalid profile: " +:+ common_profile +:+ ".")
      | Some server => Ok (OrsWrapper common_profile server)
      end
  end.

(** [v.HasMember(key) and v[key].IsArray() and !v[key].Empty()] *)
Definition has_nonempty_array (v : Value) (key : string) : result bool :=
  HasMember v key |and| lift IsArray (member v key) |and|
  not_ (let* k := member v key in Empty k).

(** The capacity dimensionality read from the first vehicle (lines 434-438). *)
Definition first_vehicle_amount_size (first_vehicle : Value) : result nat :=
  let* first_vehicle_has_capacity :=
    HasMember first_vehicle "capacity" |and|
    lift IsArray (member first_vehicle "capacity") |and|
    (let* k := member first_vehicle "capacity" in
     lift (λ n, bool_decide (0 < n)%nat) (Size k)) in
  if first_vehicle_has_capacity then
    let* k := member first_vehicle "capacity" in Size k
  else Ok 0%nat.

(** Switch input type: explicit matrix or using routing engine (lines
    464-668). *)
Definition switch_input_type (amount_size : nat) (has_jobs has_shipments : bool)
    (json_input : Value) (input : Input) : result Input :=
  let* has_matrix := HasMember json_input "matrix" in
  if has_matrix then
    let* m := member json_input "matrix" in
    let* matrix_input := load_matrix m in
    let* matrix_size := Size m in
    let input := set_matrix input matrix_input in
    let* input :=
      add_jobs (parse_job_matrix amount_size matrix_size) has_jobs json_input
        input in
    add_shipments
      (parse_shipment amount_size (parse_side_matrix matrix_size))
      has_shipments json_input input
  else
    (* Adding jobs and shipments only, matrix will be computed using
       routing engine upon solving. *)
    let* input :=
      add_jobs (parse_job_routing amount_size) has_jobs json_input input in
    add_shipments (parse_shipment amount_size parse_side_routing)
      has_shipments json_input input.

(** Add all vehicles (lines 440-462), from the empty common profile. *)
Definition add_vehicles (amount_size : nat) (json_vehicles : Value) (input : Input)
    : result (Input * string) :=
  (* Used to make sure all vehicles have the same profile. *)
  let common_profile := "" in
  let* vs := elements_of json_vehicles in
  for_index (λ st (_ : nat) json_vehicle, parse_vehicle amount_size st json_vehicle)
    0%nat (input, common_profile) vs.

(** The document up to the choice of the routing wrapper (lines 418-668):
    the aggregate and the common profile. *)
Definition read_document (geometry : bool) (json_input : Value)
    : result (Input * string) :=
  (* Main checks for valid json input. *)
  let* has_jobs := has_nonempty_array json_input "jobs" in
  let* has_shipments := has_nonempty_array json_input "shipments" in
  when (Ok (negb has_jobs && negb has_shipments))
    (throw INPUT (Ok "Invalid jobs or shipments.")) ;;;
  when (not_ (HasMember json_input "vehicles") |or|
        not_ (lift IsArray (member json_input "vehicles")) |or|
        (let* k := member json_input "vehicles" in Empty k))
    (throw INPUT (Ok "Invalid vehicles.")) ;;;
  let* json_vehicles := member json_input "vehicles" in
  let* first_vehicle := elem json_vehicles 0 in
  check_id first_vehicle "vehicle" ;;;
  let* amount_size := first_vehicle_amount_size first_vehicle in
  (* Custom input object embedding jobs, vehicles and matrix. *)
  let input := Input_new amount_size in
  let input := set_geometry input geometry in
  let* st := add_vehicles amount_size json_vehicles input in
  let input := st.1 in
  let common_profile := st.2 in
  let* input :=
    switch_input_type amount_size has_jobs has_shipments json_input input in
  Ok (input, common_profile).

(** [parse], from the tree of the document on (lines 418-711). *)
Definition parse (cl_args : CLArgs) (json_input : Value) : result Input :=
  let* st := read_document (cl_geometry cl_args) json_input in
  let* w := routing_wrapper cl_args st.2 in
  Ok (set_routing st.1 w).

(** ** Vocabulary of the statements *)

(** An outcome that is no ROUTING error. *)
Definition input_only {A} (r : result A) : Prop :=
  match r with Throw ROUTING _ => False | _ => True end.

(** An outcome within the contract of the JSON accessors. *)
Definition defined {A} (r : result A) : Prop :=
  match r with AssertFail => False | _ => True end.

(** An outcome that is no success and no ROUTING error. *)
Definition rejected {A} (r : result A) : Prop :=
  match r with Ok _ => False | Throw e _ => e = INPUT | AssertFail => True end.

(** A field that is present as a non-empty array. *)
Definition nonempty_array (field : option Value) : bool :=
  match field with Some (JArray (_ :: _)) => true | _ => false end.

Definition is_input_error {A} (r : result A) : Prop :=
  ∃ msg, r = Throw INPUT msg.

(** The elements of a field that is an array; none otherwise. *)
Definition array_field (m : list (string * Value)) (key : string) : list Value :=
  match FindMember m key with Some (JArray l) => l | _ => [] end.

(** Every element of the [steps] array of a vehicle is an object. *)
Definition steps_are_objects (json_vehicle : Value) : Prop :=
  ∀ m, json_vehicle = JObject m →
    Forall (λ step, IsObject step = true) (array_field m "steps").

(** What the loop over the vehicles leaves in the common profile, given the
    [profile] strings of the vehicles in document order. *)
Definition common_profile_of (DEFAULT_PROFILE : string) (seed : string)
    (profiles : list string) : string :=
  foldl (λ common current,
      if decide (common = "")
      then (if decide (current = "") then DEFAULT_PROFILE else current)
      else common)
    seed profiles.

(** An amount field read as the amount [a]: an absent field as the zero
    vector of the given length, a present one as the array of its values. *)
Definition reads_as (size : nat) (field : option Value) (a : Amount) : Prop :=
  match field with
  | None => a = replicate size 0
  | Some k => k = JArray (JInt <$> a)
  end.

(** A job object with an [amount] member and neither [delivery] nor
    [pickup]. *)
Definition amount_only (m : list (string * Value)) : bool :=
  bool_decide (is_Some (FindMember m "amount")) &&
  negb (bool_decide (is_Some (FindMember m "delivery"))) &&
  negb (bool_decide (is_Some (FindMember m "pickup"))).

(** A [location_index] member that is an integer below the matrix size. *)
Definition valid_location_index (matrix_size : nat) (m : list (string * Value))
    (x : Index) : Prop :=
  FindMember m "location_index" = Some (JInt x) ∧ 0 ≤ x < Z.of_nat matrix_size.

(** A [location] member that is an array starting with two numbers. *)
Definition has_location_array (m : list (string * Value)) : Prop :=
  ∃ a b rest, FindMember m "location" = Some (JArray (a :: b :: rest)) ∧
    IsNumber a = true ∧ IsNumber b = true.

(** The length of the [capacity] array of a vehicle object; 0 when the
    member is absent or no array. *)
Definition capacity_dimension (m : list (string * Value)) : nat :=
  match FindMember m "capacity" with Some (JArray l) => length l | _ => 0%nat end.



(** The amounts of a plain job, as read from its object: the deprecated
    [amount] member stands for the delivery when it is the only one of the
    three, and [delivery] and [pickup] are read otherwise. *)
Definition job_amounts_read (size : nat) (j : Value) (job : Job) : Prop :=
  ∃ m, j = JObject m ∧
    if amount_only m
    then reads_as size (FindMember m "amount") (job_delivery job) ∧
         job_pickup job = replicate size 0
    else reads_as size (FindMember m "delivery") (job_delivery job) ∧
         reads_as size (FindMember m "pickup") (job_pickup job).

(** A job with other amounts. *)
Definition with_amounts (job : Job) (delivery pickup : Amount) : Job :=
  mkJob (job_id job) (job_type job) (job_location job) (job_service job)
    delivery pickup (job_skills job) (job_priority job) (job_tws job)
    (job_description job).

(** The three amount members of a job object. *)
Definition amount_keys : list string := ["amount"; "delivery"; "pickup"].






(** A job object with a [location] array of coordinates, and a shipment
    whose two sides are such objects. *)
Definition side_located (v : Value) : Prop :=
  ∃ m, v = JObject m ∧ has_location_array m.
Definition shipment_located (s : Value) : Prop :=
  ∃ m p d, s = JObject m ∧ FindMember m "pickup" = Some p ∧
    FindMember m "delivery" = Some d ∧ side_located p ∧ side_located d.

(** A job, pickup or delivery object whose [location_index] is below the
    matrix size, and a shipment whose two sides are such. *)
Definition side_indexed (matrix_size : nat) (v : Value) : Prop :=
  ∃ m x, v = JObject m ∧ valid_location_index matrix_size m x.
Definition shipment_indexed (matrix_size : nat) (s : Value) : Prop :=
  ∃ m p d, s = JObject m ∧ FindMember m "pickup" = Some p ∧
    FindMember m "delivery" = Some d ∧
    side_indexed matrix_size p ∧ side_indexed matrix_size d.


(** The profile a routing wrapper was built for. *)
Definition wrapper_profile (w : Wrapper) : string :=
  match w with
  | OsrmRoutedWrapper profile _ | LibosrmWrapper profile | OrsWrapper profile _ =>
      profile
  end.

(** The [profile] string of a vehicle object up to its first NUL, when
    that is not empty, and the default profile otherwise. *)
Definition vehicle_profile (m : list (string * Value)) : string :=
  match FindMember m "profile" with
  | Some (JString s) => if decide (c_str s = "") then DEFAULT_PROFILE else c_str s
  | _ => DEFAULT_PROFILE
  end.

(** Two objects with the same member names in the same order, whose values
    are related by [R name]; two values that are equal, or such objects. *)
Definition members_related (R : string → Value → Value → Prop)
    (m m' : list (string * Value)) : Prop :=
  Forall2 (λ a b, a.1 = b.1 ∧ R a.1 a.2 b.2) m m'.
Definition objects_related (R : string → Value → Value → Prop) (v v' : Value) : Prop :=
  v = v' ∨ ∃ m m', v = JObject m ∧ v' = JObject m' ∧ members_related R m m'.

(** Vehicles that differ only in their [profile] strings, and documents
    that differ only in the [profile] strings of the vehicles after the
    first. *)
Definition profile_changed (name : string) (x y : Value) : Prop :=
  x = y ∨ (name = "profile" ∧ IsString x = true ∧ IsString y = true).
Definition later_profiles_changed (name : string) (x y : Value) : Prop :=
  x = y ∨
  (name = "vehicles" ∧
   ∃ first rest rest', x = JArray (first :: rest) ∧ y = JArray (first :: rest') ∧
     Forall2 (objects_related profile_changed) rest rest').

(** Jobs, pickups and deliveries that differ only in the values of their
    [location_index] members, shipments that differ only in such pickups and
    deliveries, and documents that differ only in such jobs and shipments. *)
Definition location_index_changed (name : string) (x y : Value) : Prop :=
  x = y ∨ name = "location_index".
Definition sides_changed (name : string) (x y : Value) : Prop :=
  x = y ∨
  ((name = "pickup" ∨ name = "delivery") ∧
   objects_related location_index_changed x y).
Definition entities_changed (name : string) (x y : Value) : Prop :=
  x = y ∨
  ∃ l l', x = JArray l ∧ y = JArray l' ∧
    ((name = "jobs" ∧ Forall2 (objects_related location_index_changed) l l') ∨
     (name = "shipments" ∧ Forall2 (objects_related sides_changed) l l')).

(** Ascending order on [(start, end)]. *)
Definition tw_le (a b : TimeWindow) : Prop :=
  tw_start a < tw_start b ∨ (tw_start a = tw_start b ∧ tw_end a ≤ tw_end b).

(** An object that passes [check_id]: it has a member [id] that fits
    [uint64_t]. *)
Definition has_id (m : list (string * Value)) (id : Id) : Prop :=
  FindMember m "id" = Some (JInt id) ∧ 0 ≤ id < 2 ^ 64.

(** Values that fit [unsigned]. *)
Definition uint_list (l : list Z) : Prop := Forall (λ x, 0 ≤ x < 2 ^ 32) l.

(** The JSON array of arrays that holds a matrix, and a square matrix of
    unsigned entries. *)
Definition row_value (line : list Cost) : Value := JArray (JInt <$> line).
Definition matrix_value (matrix : Matrix) : Value := JArray (row_value <$> matrix).
Definition square (matrix : Matrix) : Prop :=
  Forall (λ line, length line = length matrix ∧ uint_list line) matrix.

(** An optional unsigned member read as [x]: 0 when it is absent. *)
Definition uint_read (field : option Value) (x : Z) : Prop :=
  match field with
  | None => x = 0
  | Some k => k = JInt x ∧ 0 ≤ x < 2 ^ 32
  end.

(** An optional string member read as [s]: the empty string when it is
    absent, and the characters before the first NUL of a string. *)
Definition string_read (field : option Value) (s : string) : Prop :=
  match field with
  | None => s = ""
  | Some k => ∃ chars, k = JString chars ∧ s = c_str chars
  end.

(** An optional [skills] member read as a set: the empty set when it is
    absent, the set of the entries of the array otherwise. *)
Definition skills_read (field : option Value) (skills : Skills) : Prop :=
  match field with
  | None => skills = ∅
  | Some k => ∃ l, k = JArray (JInt <$> l) ∧ uint_list l ∧ skills = list_to_set l
  end.

(** A pair of coordinates read from an array that starts with two numbers. *)
Definition coordinates_read (k : Value) (c : Coordinates) : Prop :=
  ∃ a b rest, k = JArray (a :: b :: rest) ∧
    GetDouble a = Ok c.1 ∧ GetDouble b = Ok c.2.

(** A time window read from an array that starts with two unsigned
    integers. *)
Definition time_window_read (v : Value) (tw : TimeWindow) : Prop :=
  ∃ rest, v = JArray (JInt (tw_start tw) :: JInt (tw_end tw) :: rest) ∧
    0 ≤ tw_start tw < 2 ^ 32 ∧ 0 ≤ tw_end tw < 2 ^ 32.

(** The location of a job, pickup or delivery, as read from its object: the
    index is read with a matrix only, and the coordinates are those of the
    [location] member when there is one. *)
Definition location_read (with_matrix : bool) (m : list (string * Value))
    (loc : Location) : Prop :=
  (if with_matrix
   then ∃ i, FindMember m "location_index" = Some (JInt i) ∧ loc_index loc = Some i
   else loc_index loc = None) ∧
  match FindMember m "location" with
  | None => loc_coords loc = None
  | Some k => ∃ c, coordinates_read k c ∧ loc_coords loc = Some c
  end.

(** The optional start or end of a vehicle, as read from its object: an
    index, coordinates, both or nothing, as the two members are present. *)
Definition vehicle_location_read (m : list (string * Value)) (coords index : string)
    (o : option Location) : Prop :=
  match FindMember m index, FindMember m coords with
  | None, None => o = None
  | Some k, None => ∃ i, k = JInt i ∧ 0 ≤ i < 2 ^ 32 ∧ o = Some (Location_index i)
  | None, Some kc => ∃ c, coordinates_read kc c ∧ o = Some (Location_coords c)
  | Some k, Some kc =>
      ∃ i c, k = JInt i ∧ 0 ≤ i < 2 ^ 32 ∧ coordinates_read kc c ∧
        o = Some (Location_both i c)
  end.

(** The time windows of a job or a break, as read from its object: at least
    one window, each read from an entry of the array, in ascending order. *)
Definition windows_read (k : Value) (tws : list TimeWindow) : Prop :=
  ∃ elems raw, k = JArray elems ∧ elems ≠ [] ∧
    Forall2 time_window_read elems raw ∧ tws ≡ₚ raw ∧ StronglySorted tw_le tws.
Definition job_windows_read (field : option Value) (tws : list TimeWindow) : Prop :=
  match field with
  | None => tws = [TimeWindow_default]
  | Some k => windows_read k tws
  end.

(** A break, as read from its object, and the order in which the breaks of
    a vehicle are kept: by their first time window. *)
Definition break_read (b : Value) (br : Break) : Prop :=
  ∃ m k, b = JObject m ∧ has_id m (break_id br) ∧
    FindMember m "time_windows" = Some k ∧ windows_read k (break_tws br) ∧
    uint_read (FindMember m "service") (break_service br) ∧
    string_read (FindMember m "description") (break_description br).
Definition break_le (a b : Break) : Prop :=
  ∃ wa wb, head (break_tws a) = Some wa ∧ head (break_tws b) = Some wb ∧
    tw_le wa wb.

(** An optional bound of a forced service, and the three bounds of a step,
    as read from its object. *)
Definition bound_read (field : option Value) (o : option Duration) : Prop :=
  match field with
  | None => o = None
  | Some k => ∃ x, k = JInt x ∧ 0 ≤ x < 2 ^ 32 ∧ o = Some x
  end.
Definition forced_read (m : list (string * Value)) (fs : ForcedService) : Prop :=
  bound_read (FindMember m "service_at") (fs_at fs) ∧
  bound_read (FindMember m "service_after") (fs_after fs) ∧
  bound_read (FindMember m "service_before") (fs_before fs).

(** The [type] strings of the steps that refer to a task by its id. *)
Definition job_type_string (t : JOB_TYPE) : string :=
  match t with SINGLE => "job" | PICKUP => "pickup" | DELIVERY => "delivery" end.

(** A step, as read from its object: a start or an end, or a task or break
    with the id of the object, as its [type] string says. *)
Definition step_read (json_step : Value) (step : VehicleStep) : Prop :=
  ∃ m, json_step = JObject m ∧
    match step with
    | Step t fs =>
        forced_read m fs ∧
        ((t = START ∧ string_read (FindMember m "type") "start") ∨
         (t = END ∧ string_read (FindMember m "type") "end"))
    | StepJob t id fs =>
        forced_read m fs ∧ has_id m id ∧
        string_read (FindMember m "type") (job_type_string t)
    | StepId t id fs =>
        forced_read m fs ∧ has_id m id ∧ t = BREAK ∧
        string_read (FindMember m "type") "break"
    end.

(** Whether an object has an [id] that fits [uint64_t]. *)
Definition has_valid_id (m : list (string * Value)) : bool :=
  match FindMember m "id" with Some k => IsUint64 k | None => false end.

(** The [type] strings of the steps. *)
Definition step_types : list string :=
  ["start"; "end"; "job"; "pickup"; "delivery"; "break"].

(** Two objects that agree on the members of the given names. *)
Definition agree_on (keys : list string) (m m' : list (string * Value)) : Prop :=
  ∀ k, k ∈ keys → FindMember m k = FindMember m' k.

(** The members that are read of a document, of a job, of one side of a
    shipment, of a shipment and of a vehicle; [location_index] is read of a
    job and of a side with a matrix only, and [profile] is read of a vehicle
    by the loop of [parse]. *)
Definition document_keys : list string := ["jobs"; "shipments"; "vehicles"; "matrix"].
Definition job_keys : list string :=
  ["id"; "location"; "service"; "amount"; "delivery"; "pickup"; "skills";
   "priority"; "time_windows"; "description"].
Definition side_keys : list string :=
  ["id"; "location"; "service"; "time_windows"; "description"].
Definition shipment_keys : list string :=
  ["pickup"; "delivery"; "amount"; "skills"; "priority"].
Definition vehicle_keys : list string :=
  ["id"; "start"; "start_index"; "end"; "end_index"; "capacity"; "skills";
   "time_window"; "breaks"; "description"; "steps"].

(** ** Example documents *)

(** The order of evaluation of g++: from the last argument of a call to the
    first (no call of the reader has more than 16 arguments). *)
Definition right_to_left (line position : nat) : nat := (16 - position)%nat.

(** A configuration that routes the profile [car] through osrm-routed. *)
Definition example_args : CLArgs :=
  mkCLArgs false OSRM {[ "car" := mkServer "localhost" "5000" ]}.

(** Two jobs with id 7 and two vehicles with id 3. *)
Definition duplicate_ids_document : Value :=
  JObject [
    ("jobs", JArray [
       JObject [("id", JInt 7); ("location", JArray [JDouble 2.1; JDouble 48.8])];
       JObject [("id", JInt 7); ("location", JArray [JDouble 2.3; JDouble 48.9])]]);
    ("vehicles", JArray [
       JObject [("id", JInt 3); ("profile", JString "car");
                ("start", JArray [JDouble 2.0; JDouble 48.0])];
       JObject [("id", JInt 3); ("profile", JString "car")]])].

(** Neither jobs nor shipments. *)
Definition no_entities_document : list (string * Value) :=
  [("jobs", JArray []); ("shipments", JArray []);
   ("vehicles", JArray [JObject [("id", JInt 1)]])].

(** A job and no vehicles. *)
Definition no_vehicles_document : list (string * Value) :=
  [("jobs", JArray [JObject [("id", JInt 1);
                             ("location", JArray [JInt 0; JInt 0])]])].

(** A job, a shipment and a vehicle over a matrix of size 2. *)
Definition matrix_document : list (string * Value) :=
  [("jobs", JArray [JObject [("id", JInt 1); ("location_index", JInt 0)]]);
   ("shipments", JArray [
      JObject [("amount", JArray [JInt 1]);
               ("pickup", JObject [("id", JInt 2); ("location_index", JInt 1)]);
               ("delivery", JObject [("id", JInt 3); ("location_index", JInt 0)])]]);
   ("vehicles", JArray [JObject [("id", JInt 1); ("start_index", JInt 0);
                                 ("capacity", JArray [JInt 2])]]);
   ("matrix", JArray [JArray [JInt 0; JInt 5]; JArray [JInt 5; JInt 0]])].

(** The object of a job whose index is not below a matrix of size 2. *)
Definition far_job : list (string * Value) :=
  [("id", JInt 1); ("location_index", JInt 5)].

(** A job with the deprecated [amount] only, and one with [delivery] and
    [pickup]. *)
Definition amount_job : list (string * Value) :=
  [("id", JInt 1); ("location", JArray [JDouble 2.1; JDouble 48.8]);
   ("amount", JArray [JInt 3])].
Definition delivery_pickup_job : list (string * Value) :=
  [("id", JInt 2); ("location", JArray [JDouble 2.3; JDouble 48.9]);
   ("delivery", JArray [JInt 1]); ("pickup", JArray [JInt 2])].
Definition amounts_document : list (string * Value) :=
  [("jobs", JArray [JObject amount_job; JObject delivery_pickup_job]);
   ("vehicles", JArray [JObject [("id", JInt 1); ("capacity", JArray [JInt 4])]])].



(** A job with three time windows out of order, and a break without any. *)
Definition windows_job : Value :=
  JObject [("id", JInt 1);
           ("time_windows", JArray [JArray [JInt 5; JInt 9]; JArray [JInt 1; JInt 3];
                                    JArray [JInt 5; JInt 6]])].
Definition windowless_break : list (string * Value) :=
  [("id", JInt 4); ("time_windows", JArray [])].

(** A break with three time windows out of order. *)
Definition windows_break : list (string * Value) :=
  [("id", JInt 4);
   ("time_windows", JArray [JArray [JInt 5; JInt 9]; JArray [JInt 1; JInt 3];
                            JArray [JInt 5; JInt 6]])].

(** A break without time windows whose description is a number. *)
Definition undescribed_break : list (string * Value) :=
  [("id", JInt 4); ("time_windows", JArray []); ("description", JInt 5)].

(** A job of a document with a matrix, with the deprecated [amount] only and
    with [delivery] and [pickup]. *)
Definition indexed_amount_job : list (string * Value) :=
  [("id", JInt 1); ("location_index", JInt 0); ("amount", JArray [JInt 3])].
Definition indexed_delivery_job : list (string * Value) :=
  [("id", JInt 1); ("location_index", JInt 0); ("delivery", JArray [JInt 1]);
   ("pickup", JArray [JInt 2])].


(** A document whose only vehicle has a profile that starts with a NUL
    character. *)
Definition nul_profile : string := String Ascii.zero "bike".
Definition nul_profile_document : list (string * Value) :=
  [("jobs", JArray [JObject [("id", JInt 1);
                             ("location", JArray [JDouble 2.1; JDouble 48.8])]]);
   ("vehicles", JArray [JObject [("id", JInt 1); ("profile", JString nul_profile)]])].

(** A document whose matrix is the empty array and whose vehicle has a step
    that is no object. *)
Definition empty_matrix_step_document : list (string * Value) :=
  [("jobs", JArray [JObject [("id", JInt 1); ("location_index", JInt 0)]]);
   ("vehicles", JArray [JObject [("id", JInt 1); ("steps", JArray [JInt 5])]]);
   ("matrix", JArray [])].

(** Two vehicles with differing profiles, and the same document with yet
    another profile for the second vehicle. *)
Definition profiles_document (second : string) : list (string * Value) :=
  [("jobs", JArray [JObject [("id", JInt 1);
                             ("location", JArray [JDouble 2.1; JDouble 48.8])]]);
   ("vehicles", JArray [JObject [("id", JInt 1); ("profile", JString "car")];
                        JObject [("id", JInt 2); ("profile", JString second)]])].

(** A job and a shipment with coordinates, whose [location_index] members
    hold the given values. *)
Definition routing_document (i j : Value) : list (string * Value) :=
  [("jobs", JArray [JObject [("id", JInt 1); ("location_index", i);
                             ("location", JArray [JDouble 2.1; JDouble 48.8])]]);
   ("shipments", JArray [
      JObject [("pickup", JObject [("id", JInt 2); ("location_index", j);
                                   ("location", JArray [JInt 2; JInt 48])]);
               ("delivery", JObject [("id", JInt 3);
                                     ("location", JArray [JInt 3; JInt 49])])]]);
   ("vehicles", JArray [JObject [("id", JInt 1)]])].

(** A job without coordinates. *)
Definition locationless_job : list (string * Value) :=
  [("id", JInt 6); ("location_index", JInt 0)].

(** A document whose matrix is the empty array. *)
Definition empty_matrix_document : list (string * Value) :=
  [("jobs", JArray [JObject [("id", JInt 1); ("location_index", JInt 0)]]);
   ("vehicles", JArray [JObject [("id", JInt 1)]]);
   ("matrix", JArray [])].

(** A matrix whose second line holds a string. *)
Definition broken_matrix : Value :=
  JArray [JArray [JInt 0; JInt 5]; JArray [JInt 5; JString "far"]].

(** A location with a third entry, and one that is no array. *)
Definition located_job : list (string * Value) :=
  [("id", JInt 1); ("location", JArray [JInt 2; JDouble 48.5; JString "Paris"])].
Definition misplaced_job : list (string * Value) :=
  [("id", JInt 1); ("location_index", JInt 0); ("location", JString "Paris")].

(** The same skills, in two ways. *)
Definition skilled (skills : list Z) : list (string * Value) :=
  [("id", JInt 1); ("skills", JArray (JInt <$> skills))].

(** A job with all its optional members, a shipment, and a vehicle with
    breaks and steps out of order. *)
Definition tour_vehicle : list (string * Value) :=
  [("id", JInt 7); ("start", JArray [JDouble 2.0; JDouble 48.0]);
   ("end_index", JInt 3); ("time_window", JArray [JInt 0; JInt 1000]);
   ("skills", JArray [JInt 1; JInt 2; JInt 4]);
   ("description", JString "van");
   ("breaks", JArray [
      JObject [("id", JInt 2);
               ("time_windows", JArray [JArray [JInt 500; JInt 600]])];
      JObject [("id", JInt 1); ("service", JInt 30);
               ("time_windows", JArray [JArray [JInt 100; JInt 200]])]]);
   ("steps", JArray [
      JObject [("type", JString "start")];
      JObject [("type", JString "job"); ("id", JInt 1); ("service_at", JInt 20)];
      JObject [("type", JString "break"); ("id", JInt 1)];
      JObject [("type", JString "end")]])].
Definition tour_document : list (string * Value) :=
  [("jobs", JArray [
      JObject [("id", JInt 1); ("location", JArray [JDouble 2.1; JDouble 48.8]);
               ("service", JInt 300); ("priority", JInt 10);
               ("skills", JArray [JInt 2; JInt 1; JInt 2]);
               ("time_windows", JArray [JArray [JInt 50; JInt 90];
                                        JArray [JInt 10; JInt 30]]);
               ("description", JString "depot")]]);
   ("shipments", JArray [
      JObject [("skills", JArray [JInt 4]); ("priority", JInt 5);
               ("pickup", JObject [("id", JInt 2);
                                   ("location", JArray [JInt 2; JInt 48])]);
               ("delivery", JObject [("id", JInt 3); ("service", JInt 60);
                                     ("location", JArray [JInt 3; JInt 49])])]]);
   ("vehicles", JArray [JObject tour_vehicle])].

(** A vehicle whose [end_index] is a string, and one with a step of an
    unknown type and without id. *)
Definition endless_vehicle : list (string * Value) :=
  [("id", JInt 7); ("end_index", JString "depot")].
Definition teleporting_vehicle : list (string * Value) :=
  [("id", JInt 7); ("steps", JArray [JObject [("type", JString "teleport")]])].

(** A vehicle with a step whose type holds a NUL character after [job], and
    an object whose description holds one after [north]. *)
Definition job_nul_x : string := "job" +:+ String Ascii.zero "x".
Definition nul_step_vehicle : list (string * Value) :=
  [("id", JInt 7);
   ("steps", JArray [JObject [("type", JString job_nul_x); ("id", JInt 3)]])].
Definition nul_described : list (string * Value) :=
  [("id", JInt 1); ("description", JString ("north" +:+ String Ascii.zero "south"))].

(** A job whose [time_windows] is empty, and a shipment without pickup. *)
Definition windowless_job : list (string * Value) :=
  [("id", JInt 1); ("time_windows", JArray [])].
Definition half_shipment : list (string * Value) :=
  [("delivery", JObject [("id", JInt 3)])].

(** A configuration that asks for libosrm. *)
Definition libosrm_args : CLArgs := mkCLArgs false LIBOSRM ∅.

(** The document of two vehicles with a further member, its members in
    another order; a vehicle with a further member. *)
Definition annotated_document : list (string * Value) :=
  ("comment", JString "first run") :: reverse (profiles_document "bike").
Definition painted_vehicle : list (string * Value) :=
  [("id", JInt 1); ("colour", JString "red")].

(** A capacity whose second entry is a string, and a document whose first
    vehicle is a number. *)
Definition mixed_capacity : list (string * Value) :=
  [("id", JInt 1); ("capacity", JArray [JInt 4; JString "many"])].
Definition numbered_vehicle_document : list (string * Value) :=
  [("jobs", JArray [JNull]); ("vehicles", JArray [JInt 5])].

(** A document with a matrix that does not load and a job that is no
    object. *)
Definition broken_document : list (string * Value) :=
  [("jobs", JArray [JNull]); ("vehicles", JArray [JObject [("id", JInt 1)]]);
   ("matrix", broken_matrix)].

(** A job with two time windows, in the one and in the other order. *)
Definition two_windows_job (first second : Value) : list (string * Value) :=
  [("id", JInt 1); ("time_windows", JArray [first; second])].

(** ** Reasoning about outcomes *)

Lemma bind_Ok_inv {A B} (m : result A) (f : A → result B) b :
  bind m f = Ok b → ∃ a, m = Ok a ∧ f a = Ok b.
Proof. destruct m; simpl; [eauto | discriminate..]. Qed.

Lemma throw_not_Ok {A} e msg (a : A) : throw e msg ≠ Ok a.
Proof. unfold throw. by destruct msg. Qed.

Lemma when_throw_Ok c e msg u : when c (throw e msg) = Ok u → c = Ok false.
Proof.
  unfold when. intros H. apply bind_Ok_inv in H as ([] & -> & H); [|done].
  by apply throw_not_Ok in H.
Qed.

Lemma HasMember_Ok_inv v name b :
  HasMember v name = Ok b →
  ∃ m, v = JObject m ∧ b = bool_decide (is_Some (FindMember m name)).
Proof. destruct v; simpl; try discriminate. intros [= <-]. eauto. Qed.

Lemma member_Ok_inv v name x :
  member v name = Ok x → ∃ m, v = JObject m ∧ FindMember m name = Some x.
Proof.
  destruct v; simpl; try discriminate.
  destruct (FindMember _ _) eqn:E; simpl; [|discriminate]. intros [= <-]. eauto.
Qed.

Lemma GetUint_Ok_inv v x : GetUint v = Ok x → v = JInt x ∧ 0 ≤ x < 2 ^ 32.
Proof.
  destruct v; simpl; try discriminate. case_bool_decide; [|discriminate].
  by intros [= <-].
Qed.

(** ** Calls

    A call returns exactly when its arguments do, whatever the order in which
    they are evaluated, and it fails as one of its arguments does. *)

Lemma in_written_order_bind {A} (c : Call A) {R} (k : A → result R) :
  in_written_order c k = let* f := in_written_order c Ok in k f.
Proof.
  revert R k. induction c as [A f|A B c IH b]; intros R k; simpl; [done|].
  rewrite IH, (IH _ (λ g, let* y := b in Ok (g y))).
  destruct (in_written_order c Ok) as [g| |]; simpl; [|done..].
  by destruct b.
Qed.

Lemma outcomes_Ok {A} (c : Call A) x :
  in_written_order c Ok = Ok x → Forall (λ r, failed r = false) (outcomes c).
Proof.
  revert x. induction c as [A f|A B c IH b]; intros x H; simpl; [constructor|].
  simpl in H. rewrite in_written_order_bind in H.
  apply bind_Ok_inv in H as (g & Hg & H). apply bind_Ok_inv in H as (y & -> & _).
  apply Forall_app. split; [by eapply IH|]. by repeat constructor.
Qed.

Lemma outcomes_return {A} (c : Call A) :
  Forall (λ r, failed r = false) (outcomes c) → ∃ x, in_written_order c Ok = Ok x.
Proof.
  induction c as [A f|A B c IH b]; simpl; intros H; [by eexists|].
  apply Forall_app in H as [Hc Hb]. destruct (IH Hc) as [g Hg].
  rewrite in_written_order_bind, Hg. simpl.
  apply Forall_inv in Hb. destruct b as [y| |]; simpl in Hb; [|done..].
  by eexists.
Qed.

Lemma first_evaluated_elem rank f rest :
  ∃ i, (i, first_evaluated rank (f :: rest)) ∈ f :: rest.
Proof.
  unfold first_evaluated.
  assert (∀ (all : list (nat * result unit)) first, first ∈ all → (∀ g, g ∈ rest → g ∈ all) →
            foldl (λ first g, if decide (rank g.1 < rank first.1)%nat then g else first)
              first rest ∈ all) as H.
  { intros all. induction rest as [|g rest IH]; intros first Hfirst Hrest; [exact Hfirst|].
    simpl. apply IH.
    - case_decide; [|done]. apply Hrest. by left.
    - intros g' Hg'. apply Hrest. by right. }
  specialize (H (f :: rest) f).
  destruct (foldl _ f rest) as [i r]. exists i. simpl.
  apply H; [by left|]. intros g Hg. by right.
Qed.

Lemma failures_from_elem l i j r :
  (i, r) ∈ failures_from j l ↔
  ∃ k, i = (j + k)%nat ∧ l !! k = Some r ∧ failed r = true.
Proof.
  revert j. induction l as [|r' l IH]; intros j; simpl.
  - split; [by intros ?%elem_of_nil|by intros (k & _ & ? & _)].
  - assert ((i, r) ∈ failures_from (S j) l ↔
            ∃ k, i = (j + S k)%nat ∧ l !! k = Some r ∧ failed r = true) as IH'.
    { rewrite IH. split; intros (k & -> & H); exists k; (split; [lia|done]). }
    destruct (failed r') eqn:Hr'; [rewrite elem_of_cons|]; rewrite IH'; split.
    + intros [[= -> ->]|(k & -> & H)]; [by exists 0%nat; rewrite Nat.add_0_r|].
      by exists (S k).
    + intros ([|k] & -> & H & Hr); [left|right; by exists k].
      injection H as ->. by rewrite Nat.add_0_r.
    + intros (k & -> & H). by exists (S k).
    + intros ([|k] & -> & H & Hr); [|by exists k]. injection H as ->. congruence.
Qed.

Lemma failures_elem {A} (c : Call A) i r :
  (i, r) ∈ failures_from 0 (outcomes c) ↔
  outcomes c !! i = Some r ∧ failed r = true.
Proof.
  rewrite failures_from_elem. split.
  - by intros (k & -> & H).
  - intros H. by exists i.
Qed.

Lemma call_in_order_Ok {A} rank (c : Call A) x :
  call_in_order rank c = Ok x ↔ in_written_order c Ok = Ok x.
Proof.
  unfold call_in_order. split.
  - intros H. by apply bind_Ok_inv in H as (_ & _ & H).
  - intros H. pose proof (outcomes_Ok c x H) as Hall.
    destruct (failures_from _ _) as [|[i r] fs] eqn:E; [done|].
    assert ((i, r) ∈ failures_from 0 (outcomes c)) as Hir
      by (rewrite E; by left).
    apply failures_elem in Hir as [Hi Hr].
    apply list_elem_of_lookup_2 in Hi.
    apply (proj1 (Forall_forall _ _) Hall) in Hi. congruence.
Qed.

(** A call that does not return ends as one of its arguments. *)
Lemma call_in_order_failure {A} rank (c : Call A) :
  failed (call_in_order rank c) = true →
  void (call_in_order rank c) ∈ outcomes c.
Proof.
  unfold call_in_order.
  destruct (failures_from _ _) as [|f fs] eqn:E.
  - simpl. intros Hfailed.
    destruct (outcomes_return c) as [x Hx]; [|by rewrite Hx in Hfailed].
    apply Forall_forall. intros r Hr.
    apply list_elem_of_lookup_1 in Hr as [i Hi].
    destruct (failed r) eqn:Hfr; [|done].
    assert ((i, r) ∈ failures_from 0 (outcomes c)) as Hir
      by (by apply failures_elem).
    rewrite E in Hir. by apply elem_of_nil in Hir.
  - intros _. destruct (first_evaluated_elem rank f fs) as [i Hi].
    assert ((i, first_evaluated rank (f :: fs))
              ∈ failures_from 0 (outcomes c)) as Hi'
      by (by rewrite E).
    apply failures_elem in Hi' as [Hi' Hr].
    apply list_elem_of_lookup_2 in Hi'.
    by destruct (first_evaluated rank (f :: fs)) as [[]| |].
Qed.

(** When the arguments that do not return all end alike, so does the call. *)
Lemma call_in_order_only {A} rank (c : Call A) f :
  failed f = true → f ∈ outcomes c →
  (∀ r, r ∈ outcomes c → failed r = true → r = f) →
  call_in_order rank c = (f ;;; in_written_order c Ok).
Proof.
  intros Hf Hin Honly. unfold call_in_order.
  apply list_elem_of_lookup_1 in Hin as [i Hi].
  assert ((i, f) ∈ failures_from 0 (outcomes c)) as Hif
    by (by apply failures_elem).
  destruct (failures_from _ _) as [|g gs] eqn:E; [by apply elem_of_nil in Hif|].
  destruct (first_evaluated_elem rank g gs) as [j Hj].
  assert ((j, first_evaluated rank (g :: gs))
            ∈ failures_from 0 (outcomes c)) as Hj'
    by (by rewrite E).
  apply failures_elem in Hj' as [Hj' Hr].
  apply list_elem_of_lookup_2 in Hj'. by rewrite (Honly _ Hj' Hr).
Qed.

Lemma call_Ok {A} line (c : Call A) x :
  call line c = Ok x ↔ in_written_order c Ok = Ok x.
Proof. apply call_in_order_Ok. Qed.

Lemma call_failure {A} line (c : Call A) :
  failed (call line c) = true → void (call line c) ∈ outcomes c.
Proof. apply call_in_order_failure. Qed.

Lemma call_only {A} line (c : Call A) f :
  failed f = true → f ∈ outcomes c →
  (∀ r, r ∈ outcomes c → failed r = true → r = f) →
  call line c = (f ;;; in_written_order c Ok).
Proof. apply call_in_order_only. Qed.

Lemma bind_Ok_ext {A B} (m : result A) (f g : A → result B) b :
  (∀ a, f a = Ok b ↔ g a = Ok b) → bind m f = Ok b ↔ bind m g = Ok b.
Proof. intros H. destruct m; simpl; [apply H|done..]. Qed.

(** The builders return what their arguments, read in the order in which
    they are written, make up. *)
Lemma get_break_Ok b br :
  get_break b = Ok br ↔
  (check_id b "break" ;;;
   let* id := get_id b in
   let* tws := get_break_time_windows b in
   let* service := get_service b in
   let* description := get_string b "description" in
   Ok (mkBreak id tws service description)) = Ok br.
Proof. unfold get_break. apply bind_Ok_ext. intros _. by rewrite call_Ok. Qed.

Lemma get_vehicle_Ok json_vehicle amount_size veh :
  get_vehicle json_vehicle amount_size = Ok veh ↔
  (check_id json_vehicle "vehicle" ;;;
   let* v_id := get_id json_vehicle in
   let* start :=
     get_vehicle_location json_vehicle v_id "start" "start_index"
       "Invalid start_index for vehicle " in
   let* end_ :=
     get_vehicle_location json_vehicle v_id "end" "end_index"
       "Invalid end_index for vehicle" in
   let* capacity := get_amount json_vehicle "capacity" amount_size in
   let* skills := get_skills json_vehicle in
   let* tw := get_vehicle_time_window json_vehicle in
   let* breaks := get_vehicle_breaks json_vehicle in
   let* description := get_string json_vehicle "description" in
   let* steps := get_vehicle_steps json_vehicle in
   Ok (mkVehicle v_id start end_ capacity skills tw breaks description steps))
  = Ok veh.
Proof.
  unfold get_vehicle. apply bind_Ok_ext. intros _.
  do 3 (apply bind_Ok_ext; intros ?). by rewrite call_Ok.
Qed.

Lemma parse_job_matrix_Ok amount_size matrix_size json_job job :
  parse_job_matrix amount_size matrix_size json_job = Ok job ↔
  (check_id json_job "job" ;;;
   check_location_index json_job "job" matrix_size ;;;
   let* k := member json_job "location_index" in
   let* job_loc_index := GetUint k in
   let* compat := need_amount_compat json_job in
   let* id := get_id json_job in
   let* loc := matrix_location json_job job_loc_index in
   let* service := get_service json_job in
   let* delivery :=
     if compat then get_amount json_job "amount" amount_size
     else get_amount json_job "delivery" amount_size in
   let* pickup := get_amount json_job "pickup" amount_size in
   let* skills := get_skills json_job in
   let* priority := get_priority json_job in
   let* tws := get_job_time_windows json_job in
   let* description := get_string json_job "description" in
   Ok (Job_single id loc service delivery pickup skills priority tws description))
  = Ok job.
Proof.
  unfold parse_job_matrix. do 2 (apply bind_Ok_ext; intros _).
  do 3 (apply bind_Ok_ext; intros ?). by rewrite call_Ok.
Qed.

Lemma parse_job_routing_Ok amount_size json_job job :
  parse_job_routing amount_size json_job = Ok job ↔
  (check_id json_job "job" ;;;
   check_location json_job "job" ;;;
   let* compat := need_amount_compat json_job in
   let* id := get_id json_job in
   let* c := parse_coordinates json_job "location" in
   let* service := get_service json_job in
   let* delivery :=
     if compat then get_amount json_job "amount" amount_size
     else get_amount json_job "delivery" amount_size in
   let* pickup := get_amount json_job "pickup" amount_size in
   let* skills := get_skills json_job in
   let* priority := get_priority json_job in
   let* tws := get_job_time_windows json_job in
   let* description := get_string json_job "description" in
   Ok (Job_single id (Location_coords c) service delivery pickup skills priority
         tws description))
  = Ok job.
Proof.
  unfold parse_job_routing. do 2 (apply bind_Ok_ext; intros _).
  apply bind_Ok_ext; intros compat. rewrite call_Ok. cbn [in_written_order].
  apply bind_Ok_ext; intros id. unfold lift.
  by destruct (parse_coordinates json_job "location").
Qed.

Lemma parse_side_matrix_Ok matrix_size json_side label type amount skills priority job :
  parse_side_matrix matrix_size json_side label type amount skills priority = Ok job ↔
  (check_id json_side label ;;;
   check_location_index json_side label matrix_size ;;;
   let* k := member json_side "location_index" in
   let* side_loc_index := GetUint k in
   let* id := get_id json_side in
   let* loc := matrix_location json_side side_loc_index in
   let* service := get_service json_side in
   let* tws := get_job_time_windows json_side in
   let* description := get_string json_side "description" in
   Ok (Job_shipment id type loc service amount skills priority tws description))
  = Ok job.
Proof.
  unfold parse_side_matrix. do 2 (apply bind_Ok_ext; intros _).
  do 2 (apply bind_Ok_ext; intros ?). by rewrite call_Ok.
Qed.

Lemma parse_side_routing_Ok json_side label type amount skills priority job :
  parse_side_routing json_side label type amount skills priority = Ok job ↔
  (check_id json_side label ;;;
   check_location json_side label ;;;
   let* id := get_id json_side in
   let* c := parse_coordinates json_side "location" in
   let* service := get_service json_side in
   let* tws := get_job_time_windows json_side in
   let* description := get_string json_side "description" in
   Ok (Job_shipment id type (Location_coords c) service amount skills priority
         tws description))
  = Ok job.
Proof.
  unfold parse_side_routing. do 2 (apply bind_Ok_ext; intros _).
  rewrite call_Ok. cbn [in_written_order].
  apply bind_Ok_ext; intros id. unfold lift. cbn [bind].
  by destruct (parse_coordinates json_side "location").
Qed.

(** ** Error kinds: everything before the routing wrapper throws INPUT *)

Lemma input_only_bind {A B} (m : result A) (f : A → result B) :
  input_only m → (∀ a, input_only (f a)) → input_only (bind m f).
Proof. destruct m as [a|[]|]; simpl; auto. Qed.

Lemma input_only_for_index {A St} (body : St → nat → A → result St) i s l :
  (∀ s i x, input_only (body s i x)) → input_only (for_index body i s l).
Proof.
  intros Hbody. revert i s. induction l as [|x l IH]; intros i s; simpl; [done|].
  apply input_only_bind; auto.
Qed.

Lemma input_only_mapM {A B} (f : A → result B) l :
  (∀ x, input_only (f x)) → input_only (mapM f l).
Proof.
  intros Hf. induction l as [|x l IH]; simpl; [done|].
  apply input_only_bind; [done|]. intros y.
  apply input_only_bind; [done|]. done.
Qed.

Lemma input_only_HasMember v name : input_only (HasMember v name).
Proof. by destruct v. Qed.
Lemma input_only_member v name : input_only (member v name).
Proof. destruct v; try done. simpl. by destruct (FindMember _ _). Qed.
Lemma input_only_elem v i : input_only (elem v i).
Proof. destruct v; try done. simpl. by destruct (_ !! _). Qed.
Lemma input_only_Size v : input_only (Size v).
Proof. by destruct v. Qed.
Lemma input_only_Empty v : input_only (Empty v).
Proof. by destruct v. Qed.
Lemma input_only_elements_of v : input_only (elements_of v).
Proof. by destruct v. Qed.
Lemma input_only_GetUint v : input_only (GetUint v).
Proof. destruct v; try done. simpl. by case_bool_decide. Qed.
Lemma input_only_GetUint64 v : input_only (GetUint64 v).
Proof. destruct v; try done. simpl. by case_bool_decide. Qed.
Lemma input_only_GetDouble v : input_only (GetDouble v).
Proof. by destruct v. Qed.
Lemma input_only_GetString v : input_only (GetString v).
Proof. by destruct v. Qed.

Lemma input_only_void {A} (r : result A) : input_only r → input_only (void r).
Proof. by destruct r as [a|[]|]. Qed.

Lemma input_only_call {A} line (c : Call A) :
  Forall input_only (outcomes c) → input_only (call line c).
Proof.
  intros Hall. pose proof (call_failure line c) as Hc.
  destruct (call line c) as [x|e msg|]; [done| |done].
  by apply (proj1 (Forall_forall _ _) Hall) in Hc.
Qed.

Create HintDb input_only.
#[local] Hint Resolve input_only_HasMember input_only_member input_only_elem
  input_only_Size input_only_Empty input_only_elements_of input_only_GetUint
  input_only_GetUint64 input_only_GetDouble input_only_GetString : input_only.

Ltac input_only_step :=
  first
    [ exact I
    | solve [auto with input_only]
    | apply input_only_call; cbn [outcomes app]; repeat apply Forall_cons_2;
      [..|apply Forall_nil_2]
    | apply input_only_void
    | apply input_only_bind; [|intros ?]
    | apply input_only_for_index; intros ? ? ?
    | apply input_only_mapM; intros ?
    | progress unfold when, throw, or_else, and_then, not_, lift, id_string, get_id
    | match goal with |- input_only (if ?b then _ else _) => destruct b end ].
Ltac input_only_tac := repeat input_only_step.

Lemma input_only_parse_coordinates object key :
  input_only (parse_coordinates object key).
Proof. unfold parse_coordinates. input_only_tac. Qed.
Lemma input_only_get_string object key : input_only (get_string object key).
Proof. unfold get_string. input_only_tac. Qed.
Lemma input_only_get_amount object key size : input_only (get_amount object key size).
Proof. unfold get_amount. input_only_tac. Qed.
Lemma input_only_get_skills object : input_only (get_skills object).
Proof. unfold get_skills. input_only_tac. Qed.
Lemma input_only_get_service object : input_only (get_service object).
Proof. unfold get_service. input_only_tac. Qed.
Lemma input_only_get_priority object : input_only (get_priority object).
Proof. unfold get_priority. input_only_tac. Qed.
Lemma input_only_check_id v type : input_only (check_id v type).
Proof. unfold check_id. input_only_tac. Qed.
Lemma input_only_check_shipment v : input_only (check_shipment v).
Proof. unfold check_shipment. input_only_tac. Qed.
Lemma input_only_check_location_index v type n :
  input_only (check_location_index v type n).
Proof. unfold check_location_index. input_only_tac. Qed.
Lemma input_only_check_location v type : input_only (check_location v type).
Proof. unfold check_location. input_only_tac. Qed.
Lemma input_only_get_time_window tw : input_only (get_time_window tw).
Proof. unfold get_time_window. input_only_tac. Qed.
#[local] Hint Resolve input_only_parse_coordinates input_only_get_string
  input_only_get_amount input_only_get_skills input_only_get_service
  input_only_get_priority input_only_check_id input_only_check_shipment
  input_only_check_location_index input_only_check_location
  input_only_get_time_window : input_only.

Lemma input_only_get_vehicle_time_window v : input_only (get_vehicle_time_window v).
Proof. unfold get_vehicle_time_window. input_only_tac. Qed.
Lemma input_only_get_job_time_windows j : input_only (get_job_time_windows j).
Proof. unfold get_job_time_windows. input_only_tac. Qed.
Lemma input_only_get_break_time_windows b : input_only (get_break_time_windows b).
Proof. unfold get_break_time_windows. input_only_tac. Qed.
#[local] Hint Resolve input_only_get_vehicle_time_window
  input_only_get_job_time_windows input_only_get_break_time_windows : input_only.

Lemma input_only_get_break b : input_only (get_break b).
Proof. unfold get_break. input_only_tac. Qed.
#[local] Hint Resolve input_only_get_break : input_only.
Lemma input_only_get_vehicle_breaks v : input_only (get_vehicle_breaks v).
Proof. unfold get_vehicle_breaks. input_only_tac. Qed.
Lemma input_only_get_forced json_step key : input_only (get_forced json_step key).
Proof. unfold get_forced. input_only_tac. Qed.
#[local] Hint Resolve input_only_get_vehicle_breaks input_only_get_forced : input_only.
Lemma input_only_get_vehicle_step v steps json_step :
  input_only (get_vehicle_step v steps json_step).
Proof.
  unfold get_vehicle_step. input_only_tac; repeat case_decide; input_only_tac.
Qed.
#[local] Hint Resolve input_only_get_vehicle_step : input_only.
Lemma input_only_get_vehicle_steps v : input_only (get_vehicle_steps v).
Proof. unfold get_vehicle_steps. input_only_tac. Qed.
Lemma input_only_get_vehicle_location json_vehicle v_id coords index what :
  input_only (get_vehicle_location json_vehicle v_id coords index what).
Proof. unfold get_vehicle_location. input_only_tac. Qed.
#[local] Hint Resolve input_only_get_vehicle_steps input_only_get_vehicle_location
  : input_only.
Lemma input_only_get_vehicle json_vehicle amount_size :
  input_only (get_vehicle json_vehicle amount_size).
Proof. unfold get_vehicle. input_only_tac. Qed.
#[local] Hint Resolve input_only_get_vehicle : input_only.

Lemma input_only_parse_vehicle amount_size st json_vehicle :
  input_only (parse_vehicle amount_size st json_vehicle).
Proof. unfold parse_vehicle. input_only_tac. Qed.
Lemma input_only_need_amount_compat json_job : input_only (need_amount_compat json_job).
Proof. unfold need_amount_compat. input_only_tac. Qed.
Lemma input_only_matrix_location v i : input_only (matrix_location v i).
Proof. unfold matrix_location. input_only_tac. Qed.
#[local] Hint Resolve input_only_parse_vehicle input_only_need_amount_compat
  input_only_matrix_location : input_only.
Lemma input_only_parse_job_matrix amount_size n json_job :
  input_only (parse_job_matrix amount_size n json_job).
Proof. unfold parse_job_matrix. input_only_tac. Qed.
Lemma input_only_parse_job_routing amount_size json_job :
  input_only (parse_job_routing amount_size json_job).
Proof. unfold parse_job_routing. input_only_tac. Qed.
Lemma input_only_parse_side_matrix n json_side label type amount skills priority :
  input_only (parse_side_matrix n json_side label type amount skills priority).
Proof. unfold parse_side_matrix. input_only_tac. Qed.
Lemma input_only_parse_side_routing json_side label type amount skills priority :
  input_only (parse_side_routing json_side label type amount skills priority).
Proof. unfold parse_side_routing. input_only_tac. Qed.
#[local] Hint Resolve input_only_parse_job_matrix input_only_parse_job_routing
  input_only_parse_side_matrix input_only_parse_side_routing : input_only.
Lemma input_only_parse_shipment amount_size side json_shipment :
  (∀ v label type amount skills priority,
     input_only (side v label type amount skills priority)) →
  input_only (parse_shipment amount_size side json_shipment).
Proof. intros Hside. unfold parse_shipment. input_only_tac. Qed.
Lemma input_only_load_matrix m : input_only (load_matrix m).
Proof. unfold load_matrix. input_only_tac. Qed.
Lemma input_only_first_vehicle_amount_size v :
  input_only (first_vehicle_amount_size v).
Proof. unfold first_vehicle_amount_size. input_only_tac. Qed.
#[local] Hint Resolve input_only_load_matrix input_only_first_vehicle_amount_size
  : input_only.

Lemma input_only_read_document geometry json_input :
  input_only (read_document geometry json_input).
Proof.
  unfold read_document, has_nonempty_array, add_vehicles, switch_input_type,
    add_jobs, add_shipments.
  input_only_tac; apply input_only_parse_shipment; auto with input_only.
Qed.

(** ** Rejection *)

Lemma rejected_bind {A B} (m : result A) (f : A → result B) :
  input_only m → (∀ a, m = Ok a → rejected (f a)) → rejected (bind m f).
Proof. destruct m as [a|[]|]; simpl; [intros _ H; by apply H|done..]. Qed.

Lemma rejected_bind_l {A B} (m : result A) (f : A → result B) :
  rejected m → rejected (bind m f).
Proof. by destruct m as [a|[]|]. Qed.

Lemma rejected_intro {A} (r : result A) :
  input_only r → (∀ a, r ≠ Ok a) → rejected r.
Proof. destruct r as [a|[]|]; simpl; try done. intros _ H. by destruct (H a). Qed.

(** A document that [read_document] accepts is read successfully by
    [parse] under a configuration that routes the common profile. *)
Lemma read_document_parse geometry json_input st :
  read_document geometry json_input = Ok st →
  ∃ cl_args input, parse cl_args json_input = Ok input.
Proof.
  intros H.
  exists (mkCLArgs geometry OSRM {[ st.2 := mkServer "localhost" "5000" ]}).
  unfold parse, routing_wrapper. simpl. rewrite H. simpl.
  rewrite lookup_singleton_eq. by eexists.
Qed.

(** [parse] ends in an INPUT error, or breaks the contract of an accessor,
    on every document that no configuration makes it read successfully. *)
Lemma parse_rejected_unless cl_args json_input :
  (∀ cl_args' input, parse cl_args' json_input ≠ Ok input) →
  rejected (parse cl_args json_input).
Proof.
  intros Hnever. unfold parse. apply rejected_bind_l.
  apply rejected_intro; [apply input_only_read_document|]. intros st Hst.
  apply read_document_parse in Hst as (cl_args' & input & Hparse).
  by destruct (Hnever cl_args' input).
Qed.

(** ** Identifiers of objects *)

Lemma check_id_has_id m id type : has_id m id → check_id (JObject m) type = Ok tt.
Proof.
  intros [Hm Hr]. unfold check_id, or_else, not_, lift. simpl. rewrite Hm. simpl.
  by rewrite bool_decide_eq_true_2.
Qed.

Lemma get_id_has_id m id : has_id m id → get_id (JObject m) = Ok id.
Proof.
  intros [Hm Hr]. unfold get_id. simpl. rewrite Hm. simpl.
  by rewrite bool_decide_eq_true_2.
Qed.

(** ** The document-level checks *)

Lemma has_nonempty_array_object m key :
  has_nonempty_array (JObject m) key = Ok (nonempty_array (FindMember m key)).
Proof.
  unfold has_nonempty_array, and_then, not_, lift. simpl.
  destruct (FindMember m key) as [[| | | | |[|]|]|]; done.
Qed.

(** C7 (as amended): a document that is an object with neither a non-empty
    [jobs] array nor a non-empty [shipments] array is rejected with the INPUT
    error "Invalid jobs or shipments." whatever its vehicles are, so that
    check comes first; one that passes it but whose [vehicles] is absent, not
    an array or empty is rejected with the INPUT error "Invalid vehicles.". *)
Theorem parse_main_checks (cl_args : CLArgs) (m : list (string * Value)) :
  (nonempty_array (FindMember m "jobs") = false →
   nonempty_array (FindMember m "shipments") = false →
   parse cl_args (JObject m) = Throw INPUT "Invalid jobs or shipments.") ∧
  (nonempty_array (FindMember m "jobs") || nonempty_array (FindMember m "shipments")
     = true →
   nonempty_array (FindMember m "vehicles") = false →
   parse cl_args (JObject m) = Throw INPUT "Invalid vehicles.").
Proof.
  unfold parse, read_document. rewrite !has_nonempty_array_object. split.
  - intros -> ->. done.
  - intros Hjs Hv. simpl.
    destruct (nonempty_array (FindMember m "jobs")),
      (nonempty_array (FindMember m "shipments")); try done;
      simpl; unfold or_else, not_, lift; simpl;
      destruct (FindMember m "vehicles") as [[| | | | |[|]|]|]; done.
Qed.

(** ** Time windows *)

Lemma tw_le_not_lt a b : ¬ tw_lt b a ↔ tw_le a b.
Proof. unfold tw_lt, tw_le. lia. Qed.

Local Instance not_tw_lt_total : Total (λ a b, ¬ tw_lt b a).
Proof. intros a b. unfold tw_lt. lia. Qed.

Local Instance not_tw_lt_trans : Transitive (λ a b, ¬ tw_lt b a).
Proof. intros a b c. unfold tw_lt. lia. Qed.

Lemma StronglySorted_weaken {A} (R1 R2 : relation A) l :
  (∀ a b, R1 a b → R2 a b) → StronglySorted R1 l → StronglySorted R2 l.
Proof.
  intros HR. induction 1 as [|x l _ IH Hx]; constructor; [done|].
  eapply Forall_impl; [exact Hx|]. auto.
Qed.

Lemma sort_by_tw_sorted l : StronglySorted tw_le (sort_by tw_lt l).
Proof.
  apply StronglySorted_weaken with (R1 := λ a b, ¬ tw_lt b a).
  - intros a b. apply tw_le_not_lt.
  - unfold sort_by. apply (StronglySorted_merge_sort _).
Qed.

Lemma sort_by_perm {A} (lt : relation A) `{!RelDecision lt} l :
  sort_by lt l ≡ₚ l.
Proof. unfold sort_by. apply merge_sort_Permutation. Qed.

Lemma id_string_has_id m id : has_id m id → id_string (JObject m) = Ok (to_string id).
Proof. intros Hid. unfold id_string, lift. by rewrite (get_id_has_id m id Hid). Qed.

Lemma get_job_time_windows_Ok_inv j tws :
  get_job_time_windows j = Ok tws →
  ∃ m, j = JObject m ∧
    match FindMember m "time_windows" with
    | None => tws = [TimeWindow_default]
    | Some k => ∃ x elems raw, k = JArray (x :: elems) ∧
        mapM get_time_window (x :: elems) = Ok raw ∧ tws = sort_by tw_lt raw
    end.
Proof.
  unfold get_job_time_windows. intros H.
  apply bind_Ok_inv in H as (has & Hhas & H).
  apply HasMember_Ok_inv in Hhas as (m & -> & ->). exists m. split; [done|].
  simpl in H. destruct (FindMember m "time_windows") as [k|] eqn:Hk; simpl in H.
  - apply bind_Ok_inv in H as (u & Hw & H). apply when_throw_Ok in Hw.
    destruct k as [| | | | |[|x elems]|]; try done. simpl in H.
    apply bind_Ok_inv in H as (raw & Hraw & H). exists x, elems, raw.
    by inversion H.
  - by inversion H.
Qed.

Lemma get_break_time_windows_Ok_inv b tws :
  get_break_time_windows b = Ok tws →
  ∃ m x elems raw, b = JObject m ∧
    FindMember m "time_windows" = Some (JArray (x :: elems)) ∧
    mapM get_time_window (x :: elems) = Ok raw ∧ tws = sort_by tw_lt raw.
Proof.
  unfold get_break_time_windows. intros H.
  apply bind_Ok_inv in H as (u & Hw & H). apply when_throw_Ok in Hw.
  apply bind_Ok_inv in H as (k & Hk & H).
  apply member_Ok_inv in Hk as (m & -> & Hk).
  simpl in Hw. rewrite Hk in Hw. simpl in Hw.
  destruct k as [| | | | |[|x elems]|]; try done. simpl in H.
  apply bind_Ok_inv in H as (raw & Hraw & H). exists m, x, elems, raw.
  by inversion H.
Qed.

(** ** The loops of [parse] in closed form *)

Lemma mapM_Ok_Forall2 {A B} (f : A → result B) l ys :
  mapM f l = Ok ys ↔ Forall2 (λ x y, f x = Ok y) l ys.
Proof.
  split.
  - revert ys. induction l as [|x l IH]; simpl; intros ys H.
    + inversion H. constructor.
    + apply bind_Ok_inv in H as (y & Hy & H).
      apply bind_Ok_inv in H as (ys' & Hys & H). inversion H; subst.
      constructor; auto.
  - induction 1 as [|x y l ys Hxy _ IH]; simpl; [done|].
    by rewrite Hxy, IH.
Qed.

Lemma for_index_register {A B} (f : A → result B) (add : Input → B → Input)
    (l : list A) (i : nat) (input input' : Input) :
  for_index (λ input (_ : nat) x, let* y := f x in Ok (add input y)) i input l
    = Ok input' →
  ∃ ys, mapM f l = Ok ys ∧ input' = foldl add input ys.
Proof.
  revert i input. induction l as [|x l IH]; simpl; intros i input H.
  - inversion H. by exists [].
  - apply bind_Ok_inv in H as (s' & Hs' & H).
    apply bind_Ok_inv in Hs' as (y & Hy & Hs'). inversion Hs'; subst.
    apply IH in H as (ys & Hys & ->). exists (y :: ys).
    by rewrite Hy, Hys.
Qed.

Lemma add_jobs_Ok_inv job m input input' :
  add_jobs job (nonempty_array (FindMember m "jobs")) (JObject m) input = Ok input' →
  ∃ js, mapM job (array_field m "jobs") = Ok js ∧ input' = foldl add_job input js.
Proof.
  unfold add_jobs, array_field. simpl.
  destruct (FindMember m "jobs") as [[| | | | |[|x l]|]|]; simpl;
    try (intros [= <-]; by exists []).
  exact (for_index_register job add_job (x :: l) 0%nat input input').
Qed.

Lemma add_shipments_Ok_inv shipment m input input' :
  add_shipments shipment (nonempty_array (FindMember m "shipments")) (JObject m) input
    = Ok input' →
  ∃ ss, mapM shipment (array_field m "shipments") = Ok ss ∧
    input' = foldl (λ input pd, add_shipment input pd.1 pd.2) input ss.
Proof.
  unfold add_shipments, array_field. simpl.
  destruct (FindMember m "shipments") as [[| | | | |[|x l]|]|]; simpl;
    try (intros [= <-]; by exists []).
  exact (for_index_register shipment (λ input pd, add_shipment input pd.1 pd.2)
           (x :: l) 0%nat input input').
Qed.

Lemma foldl_add_job input js :
  foldl add_job input js =
  mkInput (input_amount_size input) (input_geometry input) (input_vehicles input)
    (input_jobs input ++ js) (input_shipments input) (input_matrix input)
    (input_routing input).
Proof.
  revert input. induction js as [|j js IH]; intros input; simpl.
  - rewrite app_nil_r. by destruct input.
  - rewrite IH. simpl. by rewrite <- app_assoc.
Qed.

Lemma foldl_add_shipment input (ss : list (Job * Job)) :
  foldl (λ input pd, add_shipment input pd.1 pd.2) input ss =
  mkInput (input_amount_size input) (input_geometry input) (input_vehicles input)
    (input_jobs input) (input_shipments input ++ ss) (input_matrix input)
    (input_routing input).
Proof.
  revert input. induction ss as [|[p d] ss IH]; intros input; simpl.
  - rewrite app_nil_r. by destruct input.
  - rewrite IH. simpl. by rewrite <- app_assoc.
Qed.

Lemma foldl_add_vehicle input vs :
  foldl add_vehicle input vs =
  mkInput (input_amount_size input) (input_geometry input)
    (input_vehicles input ++ vs) (input_jobs input) (input_shipments input)
    (input_matrix input) (input_routing input).
Proof.
  revert input. induction vs as [|v vs IH]; intros input; simpl.
  - rewrite app_nil_r. by destruct input.
  - rewrite IH. simpl. by rewrite <- app_assoc.
Qed.

Lemma for_index_parse_vehicle amount_size l i input common st :
  for_index (λ st (_ : nat) json_vehicle, parse_vehicle amount_size st json_vehicle)
    i (input, common) l = Ok st →
  ∃ vs ps,
    mapM (λ v, get_vehicle v amount_size) l = Ok vs ∧
    mapM (λ v, get_string v "profile") l = Ok ps ∧
    st = (foldl add_vehicle input vs, common_profile_of DEFAULT_PROFILE common ps).
Proof.
  revert i input common. induction l as [|x l IH]; simpl; intros i input common H.
  - inversion H. by exists [], [].
  - apply bind_Ok_inv in H as (s' & Hs' & H). unfold parse_vehicle in Hs'.
    apply bind_Ok_inv in Hs' as (v & Hv & Hs').
    apply bind_Ok_inv in Hs' as (p & Hp & Hs'). simpl in Hs'.
    inversion Hs'; subst. apply IH in H as (vs & ps & Hvs & Hps & ->).
    exists (v :: vs), (p :: ps). by rewrite Hv, Hvs, Hp, Hps.
Qed.

Lemma load_matrix_Ok_inv mv matrix :
  load_matrix mv = Ok matrix → ∃ rows, mv = JArray rows.
Proof. destruct mv; try done. eauto. Qed.

(** What a successful run of [read_document] has read and built. *)
Lemma read_document_Ok_inv geometry json_input st :
  read_document geometry json_input = Ok st →
  ∃ m v0 vs amount_size vehicles profiles jobs shipments,
    json_input = JObject m ∧
    nonempty_array (FindMember m "jobs") || nonempty_array (FindMember m "shipments")
      = true ∧
    FindMember m "vehicles" = Some (JArray (v0 :: vs)) ∧
    first_vehicle_amount_size v0 = Ok amount_size ∧
    mapM (λ v, get_vehicle v amount_size) (v0 :: vs) = Ok vehicles ∧
    mapM (λ v, get_string v "profile") (v0 :: vs) = Ok profiles ∧
    st.2 = common_profile_of DEFAULT_PROFILE "" profiles ∧
    match FindMember m "matrix" with
    | Some mv => ∃ rows matrix,
        mv = JArray rows ∧ load_matrix mv = Ok matrix ∧
        mapM (parse_job_matrix amount_size (length rows)) (array_field m "jobs")
          = Ok jobs ∧
        mapM (parse_shipment amount_size (parse_side_matrix (length rows)))
          (array_field m "shipments") = Ok shipments ∧
        st.1 = mkInput amount_size geometry vehicles jobs shipments (Some matrix) None
    | None =>
        mapM (parse_job_routing amount_size) (array_field m "jobs") = Ok jobs ∧
        mapM (parse_shipment amount_size parse_side_routing)
          (array_field m "shipments") = Ok shipments ∧
        st.1 = mkInput amount_size geometry vehicles jobs shipments None None
    end.
Proof.
  unfold read_document. intros H.
  apply bind_Ok_inv in H as (hj & Hhj & H).
  assert (∃ m, json_input = JObject m) as [m ->].
  { unfold has_nonempty_array, and_then in Hhj.
    apply bind_Ok_inv in Hhj as (b & Hb & _).
    apply HasMember_Ok_inv in Hb as (m & -> & _). eauto. }
  rewrite has_nonempty_array_object in Hhj, H. injection Hhj as <-.
  apply bind_Ok_inv in H as (hs & [= <-] & H).
  apply bind_Ok_inv in H as (u1 & Hw1 & H). apply when_throw_Ok in Hw1.
  apply bind_Ok_inv in H as (u2 & Hw2 & H). apply when_throw_Ok in Hw2.
  unfold or_else, not_, lift in Hw2. simpl in Hw2, H.
  destruct (FindMember m "vehicles") as [[| | | | |[|v0 vs]|]|] eqn:Hv; try done.
  simpl in H.
  apply bind_Ok_inv in H as (u3 & _ & H).
  apply bind_Ok_inv in H as (amount_size & Has & H).
  apply bind_Ok_inv in H as (st' & Hst & H).
  apply (for_index_parse_vehicle amount_size (v0 :: vs)) in Hst
    as (vehicles & profiles & Hvehicles & Hprofiles & ->).
  apply bind_Ok_inv in H as (input' & Hinput' & H). injection H as <-.
  unfold switch_input_type in Hinput'.
  rewrite foldl_add_vehicle in Hinput'. simpl in Hinput'.
  exists m, v0, vs, amount_size, vehicles, profiles.
  destruct (FindMember m "matrix") as [mv|] eqn:Hmv; simpl in Hinput'.
  - apply bind_Ok_inv in Hinput' as (matrix & Hmatrix & Hinput').
    destruct (load_matrix_Ok_inv _ _ Hmatrix) as [rows ->]. simpl in Hinput'.
    apply bind_Ok_inv in Hinput' as (input1 & Hjobs & Hships).
    apply add_jobs_Ok_inv in Hjobs as (jobs & Hjobs & ->).
    apply add_shipments_Ok_inv in Hships as (ships & Hships & ->).
    rewrite foldl_add_shipment, foldl_add_job. simpl.
    exists jobs, ships. split_and!; try done.
    { by destruct (nonempty_array (FindMember m "jobs")),
        (nonempty_array (FindMember m "shipments")). }
    by exists rows, matrix.
  - apply bind_Ok_inv in Hinput' as (input1 & Hjobs & Hships).
    apply add_jobs_Ok_inv in Hjobs as (jobs & Hjobs & ->).
    apply add_shipments_Ok_inv in Hships as (ships & Hships & ->).
    rewrite foldl_add_shipment, foldl_add_job. simpl.
    exists jobs, ships. split_and!; try done.
    by destruct (nonempty_array (FindMember m "jobs")),
      (nonempty_array (FindMember m "shipments")).
Qed.

(** What a successful run of [parse] has read and built. *)
Lemma parse_Ok_inv cl_args json_input input :
  parse cl_args json_input = Ok input →
  ∃ m v0 vs amount_size vehicles profiles jobs shipments w,
    json_input = JObject m ∧
    nonempty_array (FindMember m "jobs") || nonempty_array (FindMember m "shipments")
      = true ∧
    FindMember m "vehicles" = Some (JArray (v0 :: vs)) ∧
    first_vehicle_amount_size v0 = Ok amount_size ∧
    mapM (λ v, get_vehicle v amount_size) (v0 :: vs) = Ok vehicles ∧
    mapM (λ v, get_string v "profile") (v0 :: vs) = Ok profiles ∧
    routing_wrapper cl_args (common_profile_of DEFAULT_PROFILE "" profiles) = Ok w ∧
    match FindMember m "matrix" with
    | Some mv => ∃ rows matrix,
        mv = JArray rows ∧ load_matrix mv = Ok matrix ∧
        mapM (parse_job_matrix amount_size (length rows)) (array_field m "jobs")
          = Ok jobs ∧
        mapM (parse_shipment amount_size (parse_side_matrix (length rows)))
          (array_field m "shipments") = Ok shipments ∧
        input = mkInput amount_size (cl_geometry cl_args) vehicles jobs shipments
                  (Some matrix) (Some w)
    | None =>
        mapM (parse_job_routing amount_size) (array_field m "jobs") = Ok jobs ∧
        mapM (parse_shipment amount_size parse_side_routing)
          (array_field m "shipments") = Ok shipments ∧
        input = mkInput amount_size (cl_geometry cl_args) vehicles jobs shipments
                  None (Some w)
    end.
Proof.
  unfold parse. intros H.
  apply bind_Ok_inv in H as ([input' common] & Hread & H).
  apply bind_Ok_inv in H as (w & Hw & H). injection H as <-.
  apply read_document_Ok_inv in Hread
    as (m & v0 & vs & amount_size & vehicles & profiles & jobs & ships &
        -> & Hne & Hv & Has & Hvehicles & Hprofiles & Hcommon & Hmode).
  simpl in Hcommon, Hw, Hmode. subst common.
  exists m, v0, vs, amount_size, vehicles, profiles, jobs, ships, w.
  split_and!; try done.
  destruct (FindMember m "matrix") as [mv|].
  - destruct Hmode as (rows & matrix & -> & Hmatrix & Hjobs & Hships & ->).
    by exists rows, matrix.
  - by destruct Hmode as (Hjobs & Hships & ->).
Qed.

(** ** Amounts *)

Lemma get_amount_loop key elems i amt a :
  length amt = (i + length elems)%nat →
  for_index (λ amount i x,
      when (Ok (negb (IsUint x)))
        (throw INPUT (Ok ("Invalid " +:+ key +:+ " value."))) ;;;
      let* u := GetUint x in
      Ok (<[i := u]> amount)) i amt elems = Ok a →
  ∃ vals, elems = JInt <$> vals ∧ Forall (λ x, 0 ≤ x < 2 ^ 32) vals ∧
    a = take i amt ++ vals.
Proof.
  revert i amt. induction elems as [|x elems IH]; intros i amt Hlen H.
  - injection H as <-. exists []. split_and!; [done..|].
    rewrite app_nil_r, take_ge; [done|]. simpl in Hlen. lia.
  - simpl in H. apply bind_Ok_inv in H as (amt' & Hbody & H).
    apply bind_Ok_inv in Hbody as (u0 & _ & Hbody).
    apply bind_Ok_inv in Hbody as (u & Hu & [= <-]).
    apply GetUint_Ok_inv in Hu as [-> Hu].
    apply IH in H as (vals & -> & Hvals & ->).
    2:{ rewrite length_insert. simpl in Hlen. lia. }
    exists (u :: vals). split_and!; [done|by constructor|].
    rewrite (take_S_r _ _ u).
    + rewrite take_insert_ge by lia. by rewrite <- app_assoc.
    + apply list_lookup_insert_eq. simpl in Hlen. lia.
Qed.

Lemma get_amount_absent m key size :
  FindMember m key = None → get_amount (JObject m) key size = Ok (replicate size 0).
Proof. intros H. unfold get_amount. simpl. by rewrite H. Qed.


Lemma get_amount_Ok_inv v key size a :
  get_amount v key size = Ok a →
  ∃ m, v = JObject m ∧ reads_as size (FindMember m key) a ∧
    length a = size ∧ Forall (λ x, 0 ≤ x < 2 ^ 32) a.
Proof.
  unfold get_amount. intros H. apply bind_Ok_inv in H as (has & Hhas & H).
  apply HasMember_Ok_inv in Hhas as (m & -> & ->). exists m. split; [done|].
  unfold reads_as. simpl in H.
  destruct (FindMember m key) as [[| | | | |elems|]|]; simpl in H; try done.
  - destruct (bool_decide (length elems ≠ size)) eqn:Hne; simpl in H; [done|].
    apply bool_decide_eq_false in Hne.
    assert (length elems = size) as Hlen by lia.
    apply get_amount_loop in H as (vals & -> & Hvals & ->).
    2:{ rewrite length_replicate. lia. }
    rewrite length_fmap in Hlen. simpl. split_and!; done.
  - injection H as <-. split_and!; [done|apply length_replicate|].
    apply Forall_replicate. lia.
Qed.

(** ** Validators *)

Ltac inv_bind H x Hx := apply bind_Ok_inv in H as (x & Hx & H).

Lemma check_id_Ok_inv v type u :
  check_id v type = Ok u → ∃ m id, v = JObject m ∧ has_id m id.
Proof.
  unfold check_id, has_id. intros H. destruct v as [| | | | | |m]; try done.
  exists m. unfold or_else, not_, lift in H. simpl in H.
  destruct (FindMember m "id") as [[| |id| | | |]|]; try done. simpl in H.
  case_bool_decide; [|done]. eauto.
Qed.

Lemma check_location_index_Ok_inv v type n u :
  check_location_index v type n = Ok u →
  ∃ m x, v = JObject m ∧ valid_location_index n m x ∧ x < 2 ^ 32.
Proof.
  unfold check_location_index, valid_location_index. intros H.
  inv_bind H u1 Hw1. apply when_throw_Ok in Hw1, H.
  destruct v as [| | | | | |m]; try done. exists m.
  unfold or_else, not_, lift in Hw1. simpl in Hw1, H.
  destruct (FindMember m "location_index") as [[| |x| | | |]|]; try done.
  simpl in Hw1, H. case_bool_decide; [|done]. simpl in H. injection H as H.
  apply bool_decide_eq_false in H. exists x. split_and!; [done..|lia|lia|lia].
Qed.

Lemma check_location_Ok_inv v type u :
  check_location v type = Ok u →
  ∃ m l, v = JObject m ∧ FindMember m "location" = Some (JArray l).
Proof.
  unfold check_location. intros H. apply when_throw_Ok in H.
  destruct v as [| | | | | |m]; try done. exists m.
  unfold or_else, not_, lift in H. simpl in H.
  destruct (FindMember m "location") as [[| | | | |l|]|]; try done. eauto.
Qed.

Lemma check_shipment_Ok_inv v u :
  check_shipment v = Ok u →
  ∃ m p d, v = JObject m ∧ FindMember m "pickup" = Some (JObject p) ∧
    FindMember m "delivery" = Some (JObject d).
Proof.
  unfold check_shipment. intros H. destruct v as [| | | | | |m]; try done.
  exists m. unfold when, or_else, not_, lift in H. simpl in H.
  destruct (FindMember m "pickup") as [[| | | | | |p]|]; try done. simpl in H.
  destruct (FindMember m "delivery") as [[| | | | | |d]|]; try done. eauto.
Qed.

Lemma parse_coordinates_Ok_inv m key c :
  parse_coordinates (JObject m) key = Ok c →
  ∃ a b rest, FindMember m key = Some (JArray (a :: b :: rest)) ∧
    IsNumber a = true ∧ IsNumber b = true.
Proof.
  unfold parse_coordinates. intros H. inv_bind H k Hk.
  apply member_Ok_inv in Hk as (m' & [= <-] & Hk).
  inv_bind H u Hw. apply when_throw_Ok in Hw.
  destruct k as [| | | | |[|a [|b rest]]|]; try done.
  unfold or_else, not_, lift in Hw. simpl in Hw.
  destruct (IsNumber a) eqn:Ha; [|done]. destruct (IsNumber b) eqn:Hb; [|done].
  by exists a, b, rest.
Qed.

Lemma need_amount_compat_object m :
  need_amount_compat (JObject m) = Ok (amount_only m).
Proof.
  unfold need_amount_compat, amount_only, and_then, not_. simpl.
  by repeat case_bool_decide.
Qed.

Lemma matrix_location_Ok_inv m x loc :
  matrix_location (JObject m) x = Ok loc →
  loc_index loc = Some x ∧
  (is_Some (FindMember m "location") → has_location_array m).
Proof.
  unfold matrix_location. intros H. simpl in H.
  case_bool_decide as Hloc; simpl in H.
  - inv_bind H c Hc. injection H as <-. split; [done|]. intros _.
    by apply parse_coordinates_Ok_inv in Hc.
  - injection H as <-. done.
Qed.

(** What a successfully read job consists of, with a matrix. *)
Lemma parse_job_matrix_Ok_inv amount_size n j job :
  parse_job_matrix amount_size n j = Ok job →
  ∃ m id x,
    j = JObject m ∧ has_id m id ∧ valid_location_index n m x ∧
    get_amount j (if amount_only m then "amount" else "delivery") amount_size
      = Ok (job_delivery job) ∧
    get_amount j "pickup" amount_size = Ok (job_pickup job) ∧
    get_job_time_windows j = Ok (job_tws job) ∧
    job_id job = id ∧ job_type job = SINGLE ∧
    loc_index (job_location job) = Some x.
Proof.
  intros H. apply parse_job_matrix_Ok in H.
  inv_bind H u1 Hid. apply check_id_Ok_inv in Hid as (m & id & -> & Hid).
  inv_bind H u2 Hli.
  apply check_location_index_Ok_inv in Hli as (m' & x & [= <-] & Hx & Hx32).
  exists m, id, x. pose proof Hx as [Hxm Hxr].
  simpl in H. rewrite Hxm in H. simpl in H.
  rewrite bool_decide_eq_true_2 in H by lia. simpl in H.
  rewrite need_amount_compat_object, (get_id_has_id m id Hid) in H. simpl in H.
  inv_bind H loc Hloc. apply matrix_location_Ok_inv in Hloc as [Hloc _].
  inv_bind H service Hservice. inv_bind H delivery Hdelivery.
  inv_bind H pickup Hpickup. inv_bind H skills Hskills.
  inv_bind H priority Hpriority. inv_bind H tws Htws.
  inv_bind H description Hdescription. injection H as <-. simpl.
  split_and!; try done. by destruct (amount_only m).
Qed.

(** What a successfully read job consists of, without matrix. *)
Lemma parse_job_routing_Ok_inv amount_size j job :
  parse_job_routing amount_size j = Ok job →
  ∃ m id c,
    j = JObject m ∧ has_id m id ∧ has_location_array m ∧
    get_amount j (if amount_only m then "amount" else "delivery") amount_size
      = Ok (job_delivery job) ∧
    get_amount j "pickup" amount_size = Ok (job_pickup job) ∧
    get_job_time_windows j = Ok (job_tws job) ∧
    job_id job = id ∧ job_type job = SINGLE ∧
    job_location job = Location_coords c.
Proof.
  intros H. apply parse_job_routing_Ok in H.
  inv_bind H u1 Hid. apply check_id_Ok_inv in Hid as (m & id & -> & Hid).
  inv_bind H u2 Hl. clear Hl.
  rewrite need_amount_compat_object, (get_id_has_id m id Hid) in H. simpl in H.
  inv_bind H c Hc. apply parse_coordinates_Ok_inv in Hc.
  inv_bind H service Hservice. inv_bind H delivery Hdelivery.
  inv_bind H pickup Hpickup. inv_bind H skills Hskills.
  inv_bind H priority Hpriority. inv_bind H tws Htws.
  inv_bind H description Hdescription. injection H as <-. simpl.
  exists m, id, c. split_and!; try done. by destruct (amount_only m).
Qed.

Lemma parse_side_matrix_Ok_inv n side label type amount skills priority job :
  parse_side_matrix n side label type amount skills priority = Ok job →
  ∃ m id x,
    side = JObject m ∧ has_id m id ∧ valid_location_index n m x ∧
    get_job_time_windows side = Ok (job_tws job) ∧
    job_id job = id ∧ job_type job = type ∧
    loc_index (job_location job) = Some x ∧
    job_delivery job =
      match type with DELIVERY => amount | _ => replicate (length amount) 0 end ∧
    job_pickup job =
      match type with PICKUP => amount | _ => replicate (length amount) 0 end.
Proof.
  intros H. apply parse_side_matrix_Ok in H.
  inv_bind H u1 Hid. apply check_id_Ok_inv in Hid as (m & id & -> & Hid).
  inv_bind H u2 Hli.
  apply check_location_index_Ok_inv in Hli as (m' & x & [= <-] & Hx & Hx32).
  exists m, id, x. pose proof Hx as [Hxm Hxr].
  simpl in H. rewrite Hxm in H. simpl in H.
  rewrite bool_decide_eq_true_2 in H by lia. simpl in H.
  rewrite (get_id_has_id m id Hid) in H. simpl in H.
  inv_bind H loc Hloc. apply matrix_location_Ok_inv in Hloc as [Hloc _].
  inv_bind H service Hservice. inv_bind H tws Htws.
  inv_bind H description Hdescription. injection H as <-. simpl.
  split_and!; done.
Qed.

Lemma parse_side_routing_Ok_inv side label type amount skills priority job :
  parse_side_routing side label type amount skills priority = Ok job →
  ∃ m id c,
    side = JObject m ∧ has_id m id ∧ has_location_array m ∧
    get_job_time_windows side = Ok (job_tws job) ∧
    job_id job = id ∧ job_type job = type ∧
    job_location job = Location_coords c ∧
    job_delivery job =
      match type with DELIVERY => amount | _ => replicate (length amount) 0 end ∧
    job_pickup job =
      match type with PICKUP => amount | _ => replicate (length amount) 0 end.
Proof.
  intros H. apply parse_side_routing_Ok in H.
  inv_bind H u1 Hid. apply check_id_Ok_inv in Hid as (m & id & -> & Hid).
  inv_bind H u2 Hl. clear Hl.
  rewrite (get_id_has_id m id Hid) in H. simpl in H.
  inv_bind H c Hc. apply parse_coordinates_Ok_inv in Hc.
  inv_bind H service Hservice. inv_bind H tws Htws.
  inv_bind H description Hdescription. injection H as <-. simpl.
  exists m, id, c. split_and!; done.
Qed.

Lemma parse_shipment_Ok_inv amount_size side s pd :
  parse_shipment amount_size side s = Ok pd →
  ∃ m p d amount skills priority,
    s = JObject m ∧ FindMember m "pickup" = Some (JObject p) ∧
    FindMember m "delivery" = Some (JObject d) ∧
    get_amount s "amount" amount_size = Ok amount ∧
    side (JObject p) "pickup" PICKUP amount skills priority = Ok pd.1 ∧
    side (JObject d) "delivery" DELIVERY amount skills priority = Ok pd.2.
Proof.
  unfold parse_shipment. intros H.
  inv_bind H u Hs. apply check_shipment_Ok_inv in Hs as (m & p & d & -> & Hp & Hd).
  inv_bind H amount Hamount. inv_bind H skills Hskills.
  inv_bind H priority Hpriority. simpl in H. rewrite Hp, Hd in H. simpl in H.
  inv_bind H pickup Hpickup. inv_bind H delivery Hdelivery. injection H as <-.
  by exists m, p, d, amount, skills, priority.
Qed.


Lemma get_vehicle_Ok_inv v amount_size veh :
  get_vehicle v amount_size = Ok veh →
  ∃ m, v = JObject m ∧ has_id m (vehicle_id veh) ∧
    get_vehicle_location v (vehicle_id veh) "start" "start_index"
      "Invalid start_index for vehicle " = Ok (vehicle_start veh) ∧
    get_vehicle_location v (vehicle_id veh) "end" "end_index"
      "Invalid end_index for vehicle" = Ok (vehicle_end veh) ∧
    get_amount v "capacity" amount_size = Ok (vehicle_capacity veh).
Proof.
  intros H. apply get_vehicle_Ok in H.
  inv_bind H u1 Hid. apply check_id_Ok_inv in Hid as (m & id & -> & Hid).
  rewrite (get_id_has_id m id Hid) in H. cbn [bind] in H.
  inv_bind H start Hstart. inv_bind H end_ Hend.
  inv_bind H capacity Hcapacity. inv_bind H skills Hskills.
  inv_bind H tw Htw. inv_bind H breaks Hbreaks.
  inv_bind H description Hdescription. inv_bind H steps Hsteps.
  injection H as <-. by exists m.
Qed.

Lemma first_vehicle_amount_size_object m :
  first_vehicle_amount_size (JObject m) = Ok (capacity_dimension m).
Proof.
  unfold first_vehicle_amount_size, capacity_dimension, and_then, lift. simpl.
  destruct (FindMember m "capacity") as [[| | | | |[|x l]|]|]; done.
Qed.



Lemma mapM_Ok_Forall_l {A B} (f : A → result B) (P : A → Prop) l ys :
  (∀ x y, f x = Ok y → P x) → mapM f l = Ok ys → Forall P l.
Proof.
  intros Hf H. apply mapM_Ok_Forall2 in H.
  induction H; constructor; eauto.
Qed.


Lemma mapM_Ok_Forall2_impl {A B} (f : A → result B) (R : A → B → Prop) l ys :
  (∀ x y, f x = Ok y → R x y) → mapM f l = Ok ys → Forall2 R l ys.
Proof.
  intros Hf H. apply mapM_Ok_Forall2 in H.
  induction H; constructor; eauto.
Qed.

(** ** Location indices with a matrix *)

Lemma check_location_index_spec m id type matrix_size :
  has_id m id →
  check_location_index (JObject m) type matrix_size =
    match FindMember m "location_index" with
    | Some (JInt x) =>
        if bool_decide (0 ≤ x < 2 ^ 32) then
          if bool_decide (Z.of_nat matrix_size ≤ x) then
            Throw INPUT ("location_index exceeding matrix size for " +:+ type +:+
                         " " +:+ to_string id +:+ ".")
          else Ok tt
        else Throw INPUT ("Invalid location_index for " +:+ type +:+ " " +:+
                          to_string id +:+ ".")
    | _ => Throw INPUT ("Invalid location_index for " +:+ type +:+ " " +:+
                        to_string id +:+ ".")
    end.
Proof.
  intros Hid. unfold check_location_index, when, throw.
  rewrite (id_string_has_id m id Hid). unfold or_else, not_, lift. simpl.
  destruct (FindMember m "location_index") as [[| |x| | | |]|]; try done.
  simpl. case_bool_decide; [|done]. simpl. by case_bool_decide.
Qed.

Lemma parsed_indices cl_args document rows input :
  parse cl_args (JObject document) = Ok input →
  FindMember document "matrix" = Some (JArray rows) →
  Forall (side_indexed (length rows)) (array_field document "jobs") ∧
  Forall (shipment_indexed (length rows)) (array_field document "shipments").
Proof.
  intros Hparse Hmatrix.
  apply parse_Ok_inv in Hparse
    as (m' & v0 & vs & amount_size & vehicles & profiles & jobs & ships & w &
        [= <-] & _ & _ & _ & _ & _ & _ & Hmode).
  rewrite Hmatrix in Hmode.
  destruct Hmode as (rows' & matrix & [= <-] & _ & Hjobs & Hships & _). split.
  - eapply mapM_Ok_Forall_l; [|exact Hjobs]. intros j job Hj.
    apply parse_job_matrix_Ok_inv in Hj as (mj & idj & x & -> & _ & Hx & _).
    by exists mj, x.
  - eapply mapM_Ok_Forall_l; [|exact Hships]. intros s pd Hs.
    apply parse_shipment_Ok_inv in Hs
      as (ms & p & d & amount & skills & priority & -> & Hp & Hd & _ & Hpick & Hdel).
    apply parse_side_matrix_Ok_inv in Hpick as (mp & idp & xp & [= <-] & _ & Hxp & _).
    apply parse_side_matrix_Ok_inv in Hdel as (md & idd & xd & [= <-] & _ & Hxd & _).
    exists ms, (JObject p), (JObject d). split_and!; try done.
    + by exists p, xp.
    + by exists d, xd.
Qed.

(** C2: with a matrix, [check_location_index] rejects an object whose
    [location_index] is missing or is no unsigned integer with an INPUT error
    naming the entity type and id, rejects an unsigned index that is not below
    the matrix size with another INPUT error, saying that the index exceeds
    the matrix size, and accepts an index below the matrix size; a document
    with a matrix is read successfully only if every job, pickup and delivery
    carries an index below the matrix size, and is rejected otherwise. *)
Theorem location_index_checked (m : list (string * Value)) (id : Id)
    (type : string) (matrix_size : nat) :
  has_id m id →
  ((∀ x, FindMember m "location_index" = Some x → IsUint x = false) →
   check_location_index (JObject m) type matrix_size =
     Throw INPUT ("Invalid location_index for " +:+ type +:+ " " +:+
                  to_string id +:+ ".")) ∧
  (∀ x, FindMember m "location_index" = Some (JInt x) → 0 ≤ x < 2 ^ 32 →
     (Z.of_nat matrix_size ≤ x →
      check_location_index (JObject m) type matrix_size =
        Throw INPUT ("location_index exceeding matrix size for " +:+ type +:+
                     " " +:+ to_string id +:+ ".")) ∧
     (x < Z.of_nat matrix_size →
      check_location_index (JObject m) type matrix_size = Ok tt)) ∧
  "Invalid location_index for " +:+ type +:+ " " +:+ to_string id +:+ "." ≠
    "location_index exceeding matrix size for " +:+ type +:+ " " +:+
    to_string id +:+ "." ∧
  (∀ cl_args document rows input,
     parse cl_args (JObject document) = Ok input →
     FindMember document "matrix" = Some (JArray rows) →
     Forall (side_indexed (length rows)) (array_field document "jobs") ∧
     Forall (shipment_indexed (length rows)) (array_field document "shipments")) ∧
  (∀ cl_args document rows,
     FindMember document "matrix" = Some (JArray rows) →
     ¬ (Forall (side_indexed (length rows)) (array_field document "jobs") ∧
        Forall (shipment_indexed (length rows)) (array_field document "shipments")) →
     rejected (parse cl_args (JObject document))).
Proof.
  intros Hid. split_and!.
  - intros Hx. rewrite (check_location_index_spec m id) by done.
    destruct (FindMember m "location_index") as [[| |x| | | |]|]; try done.
    specialize (Hx _ eq_refl). simpl in Hx. by rewrite Hx.
  - intros x Hx Hr. rewrite (check_location_index_spec m id) by done.
    rewrite Hx, bool_decide_eq_true_2 by done. split; intros Hn.
    + by rewrite bool_decide_eq_true_2.
    + by rewrite bool_decide_eq_false_2 by lia.
  - done.
  - apply parsed_indices.
  - intros cl_args document rows Hmatrix Hnot. apply parse_rejected_unless.
    intros cl_args' input Hparse. apply Hnot. by eapply parsed_indices.
Qed.

(** ** Amounts of the entities *)

Lemma amount_only_pickup m : amount_only m = true → FindMember m "pickup" = None.
Proof.
  unfold amount_only. intros H. apply andb_true_iff in H as [_ H].
  apply negb_true_iff, bool_decide_eq_false in H.
  destruct (FindMember m "pickup"); [|done]. destruct H. eauto.
Qed.

Lemma job_amounts size m job :
  get_amount (JObject m) (if amount_only m then "amount" else "delivery") size
    = Ok (job_delivery job) →
  get_amount (JObject m) "pickup" size = Ok (job_pickup job) →
  job_amounts_read size (JObject m) job ∧
  length (job_delivery job) = size ∧ length (job_pickup job) = size.
Proof.
  intros Hd Hp.
  apply get_amount_Ok_inv in Hd as (m1 & [= <-] & Hd & Hdl & _).
  apply get_amount_Ok_inv in Hp as (m2 & [= <-] & Hp & Hpl & _).
  split_and!; [|done..]. exists m. split; [done|].
  destruct (amount_only m) eqn:Honly; [|done]. split; [done|].
  by rewrite (amount_only_pickup m Honly) in Hp.
Qed.

Lemma parsed_jobs_amounts cl_args document input :
  parse cl_args (JObject document) = Ok input →
  Forall2 (λ j job, job_amounts_read (input_amount_size input) j job ∧
                    length (job_delivery job) = input_amount_size input ∧
                    length (job_pickup job) = input_amount_size input)
    (array_field document "jobs") (input_jobs input).
Proof.
  intros Hparse. apply parse_Ok_inv in Hparse
    as (m' & v0 & vs & amount_size & vehicles & profiles & jobs & ships & w &
        [= <-] & _ & _ & _ & _ & _ & _ & Hmode).
  destruct (FindMember document "matrix") as [mv|].
  - destruct Hmode as (rows & matrix & -> & _ & Hjobs & _ & ->). simpl.
    eapply mapM_Ok_Forall2_impl; [|exact Hjobs]. intros j job Hj.
    apply parse_job_matrix_Ok_inv in Hj as (mj & idj & x & -> & _ & _ & Hd & Hp & _).
    by apply job_amounts.
  - destruct Hmode as (Hjobs & _ & ->). simpl.
    eapply mapM_Ok_Forall2_impl; [|exact Hjobs]. intros j job Hj.
    apply parse_job_routing_Ok_inv in Hj as (mj & idj & x & -> & _ & _ & Hd & Hp & _).
    by apply job_amounts.
Qed.







(** ** Locations *)





(** ** The empty matrix *)

Lemma parse_job_matrix_empty amount_size json_job :
  rejected (parse_job_matrix amount_size 0 json_job).
Proof.
  apply rejected_intro; [apply input_only_parse_job_matrix|]. intros job H.
  apply parse_job_matrix_Ok_inv in H as (m & id & x & _ & _ & [_ Hx] & _).
  simpl in Hx. lia.
Qed.

Lemma parse_shipment_matrix_empty amount_size json_shipment :
  rejected (parse_shipment amount_size (parse_side_matrix 0) json_shipment).
Proof.
  apply rejected_intro.
  { apply input_only_parse_shipment. intros. apply input_only_parse_side_matrix. }
  intros pd H. apply parse_shipment_Ok_inv in H
    as (ms & p & d & amount & skills & priority & _ & _ & _ & _ & Hpick & _).
  apply parse_side_matrix_Ok_inv in Hpick as (m & id & x & _ & _ & [_ Hx] & _).
  simpl in Hx. lia.
Qed.

Lemma read_document_empty_matrix_rejected geometry document :
  FindMember document "matrix" = Some (JArray []) →
  rejected (read_document geometry (JObject document)).
Proof.
  intros Hmatrix. unfold read_document. rewrite !has_nonempty_array_object.
  apply rejected_bind; [done|]. intros hj [= <-].
  apply rejected_bind; [done|]. intros hs [= <-].
  apply rejected_bind; [input_only_tac|]. intros u1 Hw1. apply when_throw_Ok in Hw1.
  apply rejected_bind; [input_only_tac|]. intros u2 _.
  apply rejected_bind; [input_only_tac|]. intros json_vehicles _.
  apply rejected_bind; [input_only_tac|]. intros first_vehicle _.
  apply rejected_bind; [input_only_tac|]. intros u3 _.
  apply rejected_bind; [input_only_tac|]. intros amount_size _.
  apply rejected_bind; [unfold add_vehicles; input_only_tac|]. intros st _.
  unfold switch_input_type. simpl. rewrite Hmatrix. simpl. apply rejected_bind_l.
  unfold add_jobs, add_shipments. simpl.
  destruct (FindMember document "jobs") as [[| | | | |[|j js]|]|];
    destruct (FindMember document "shipments") as [[| | | | |[|sh shs]|]|];
    try done; simpl;
    try (apply rejected_bind_l, rejected_bind_l, rejected_bind_l,
           parse_job_matrix_empty);
    apply rejected_bind_l, rejected_bind_l, parse_shipment_matrix_empty.
Qed.

Lemma parse_empty_matrix_rejected cl_args document :
  FindMember document "matrix" = Some (JArray []) →
  rejected (parse cl_args (JObject document)).
Proof.
  intros Hmatrix. unfold parse.
  by apply rejected_bind_l, read_document_empty_matrix_rejected.
Qed.

(** ** What each function reads of an object

    A function applied to an object depends on it only through the members
    it looks up: two objects that agree on these members give the same
    outcome. *)

Lemma bind_ext {A B} (m : result A) (f g : A → result B) :
  (∀ a, f a = g a) → bind m f = bind m g.
Proof. intros H. destruct m; simpl; auto. Qed.

Lemma for_index_ext {A St} (body body' : St → nat → A → result St) i s l :
  (∀ s i x, body s i x = body' s i x) →
  for_index body i s l = for_index body' i s l.
Proof.
  intros H. revert i s. induction l as [|x l IH]; intros i s; simpl; [done|].
  rewrite H. by apply bind_ext.
Qed.

Ltac agree :=
  cbn [HasMember member];
  repeat match goal with
    | H : FindMember ?m ?k = FindMember _ ?k |- _ => rewrite H; clear H
    end;
  try reflexivity.

Lemma get_id_agree m m' :
  FindMember m "id" = FindMember m' "id" → get_id (JObject m) = get_id (JObject m').
Proof. intros H. unfold get_id. agree. Qed.

Lemma id_string_agree m m' :
  FindMember m "id" = FindMember m' "id" →
  id_string (JObject m) = id_string (JObject m').
Proof. intros H. unfold id_string. by rewrite (get_id_agree m m' H). Qed.

Lemma check_id_agree m m' type :
  FindMember m "id" = FindMember m' "id" →
  check_id (JObject m) type = check_id (JObject m') type.
Proof. intros H. unfold check_id. agree. Qed.

Lemma get_string_agree m m' key :
  FindMember m key = FindMember m' key →
  get_string (JObject m) key = get_string (JObject m') key.
Proof. intros H. unfold get_string. agree. Qed.

Lemma get_amount_agree m m' key size :
  FindMember m key = FindMember m' key →
  get_amount (JObject m) key size = get_amount (JObject m') key size.
Proof. intros H. unfold get_amount. agree. Qed.

Lemma get_skills_agree m m' :
  FindMember m "skills" = FindMember m' "skills" →
  get_skills (JObject m) = get_skills (JObject m').
Proof. intros H. unfold get_skills. agree. Qed.

Lemma get_service_agree m m' :
  FindMember m "service" = FindMember m' "service" →
  get_service (JObject m) = get_service (JObject m').
Proof. intros H. unfold get_service. agree. Qed.

Lemma get_priority_agree m m' :
  FindMember m "priority" = FindMember m' "priority" →
  get_priority (JObject m) = get_priority (JObject m').
Proof. intros H. unfold get_priority. agree. Qed.

Lemma parse_coordinates_agree m m' key :
  FindMember m key = FindMember m' key →
  parse_coordinates (JObject m) key = parse_coordinates (JObject m') key.
Proof. intros H. unfold parse_coordinates. agree. Qed.

Lemma check_location_agree m m' type :
  FindMember m "id" = FindMember m' "id" →
  FindMember m "location" = FindMember m' "location" →
  check_location (JObject m) type = check_location (JObject m') type.
Proof.
  intros Hid H. unfold check_location. rewrite (id_string_agree m m' Hid). agree.
Qed.

Lemma get_job_time_windows_agree m m' :
  FindMember m "id" = FindMember m' "id" →
  FindMember m "time_windows" = FindMember m' "time_windows" →
  get_job_time_windows (JObject m) = get_job_time_windows (JObject m').
Proof.
  intros Hid H. unfold get_job_time_windows.
  rewrite (id_string_agree m m' Hid). agree.
Qed.

Lemma need_amount_compat_agree m m' :
  FindMember m "amount" = FindMember m' "amount" →
  FindMember m "delivery" = FindMember m' "delivery" →
  FindMember m "pickup" = FindMember m' "pickup" →
  need_amount_compat (JObject m) = need_amount_compat (JObject m').
Proof. intros H1 H2 H3. unfold need_amount_compat. agree. Qed.

Lemma get_vehicle_time_window_agree m m' :
  FindMember m "time_window" = FindMember m' "time_window" →
  get_vehicle_time_window (JObject m) = get_vehicle_time_window (JObject m').
Proof. intros H. unfold get_vehicle_time_window. agree. Qed.

Lemma get_vehicle_breaks_agree m m' :
  FindMember m "id" = FindMember m' "id" →
  FindMember m "breaks" = FindMember m' "breaks" →
  get_vehicle_breaks (JObject m) = get_vehicle_breaks (JObject m').
Proof.
  intros Hid H. unfold get_vehicle_breaks.
  rewrite (id_string_agree m m' Hid). agree.
Qed.

Lemma get_vehicle_step_agree m m' steps json_step :
  FindMember m "id" = FindMember m' "id" →
  get_vehicle_step (JObject m) steps json_step =
  get_vehicle_step (JObject m') steps json_step.
Proof.
  intros Hid. unfold get_vehicle_step. by rewrite (id_string_agree m m' Hid).
Qed.

Lemma get_vehicle_steps_agree m m' :
  FindMember m "id" = FindMember m' "id" →
  FindMember m "steps" = FindMember m' "steps" →
  get_vehicle_steps (JObject m) = get_vehicle_steps (JObject m').
Proof.
  intros Hid H. unfold get_vehicle_steps.
  rewrite (id_string_agree m m' Hid). cbn [HasMember member]. rewrite H.
  apply bind_ext. intros has. destruct has; [|done].
  do 3 (apply bind_ext; intros ?). apply for_index_ext. intros.
  by apply get_vehicle_step_agree.
Qed.

Lemma get_vehicle_location_agree m m' v_id coords index what :
  FindMember m coords = FindMember m' coords →
  FindMember m index = FindMember m' index →
  get_vehicle_location (JObject m) v_id coords index what =
  get_vehicle_location (JObject m') v_id coords index what.
Proof.
  intros Hc Hi. unfold get_vehicle_location.
  rewrite (parse_coordinates_agree m m' coords Hc). cbn [HasMember member].
  by rewrite Hc, Hi.
Qed.

Lemma get_vehicle_agree m m' amount_size :
  (∀ k, k ≠ "profile" → FindMember m k = FindMember m' k) →
  get_vehicle (JObject m) amount_size = get_vehicle (JObject m') amount_size.
Proof.
  intros H. unfold get_vehicle.
  rewrite (check_id_agree m m'), (get_amount_agree m m'), (get_skills_agree m m'),
    (get_vehicle_time_window_agree m m'), (get_vehicle_breaks_agree m m'),
    (get_string_agree m m' "description"), (get_vehicle_steps_agree m m')
    by (apply H; done).
  rewrite (get_id_agree m m') by (apply H; done).
  do 2 (apply bind_ext; intros ?).
  rewrite !(get_vehicle_location_agree m m') by (apply H; done). done.
Qed.

Lemma parse_job_routing_agree m m' amount_size :
  (∀ k, k ≠ "location_index" → FindMember m k = FindMember m' k) →
  parse_job_routing amount_size (JObject m) = parse_job_routing amount_size (JObject m').
Proof.
  intros H. unfold parse_job_routing.
  rewrite (check_id_agree m m'), (check_location_agree m m'),
    (need_amount_compat_agree m m'), (get_id_agree m m'),
    (parse_coordinates_agree m m'), (get_service_agree m m'),
    (get_amount_agree m m' "amount"), (get_amount_agree m m' "delivery"),
    (get_amount_agree m m' "pickup"), (get_skills_agree m m'),
    (get_priority_agree m m'), (get_job_time_windows_agree m m'),
    (get_string_agree m m' "description")
    by (apply H; done).
  done.
Qed.

Lemma parse_side_routing_agree m m' label type amount skills priority :
  (∀ k, k ≠ "location_index" → FindMember m k = FindMember m' k) →
  parse_side_routing (JObject m) label type amount skills priority =
  parse_side_routing (JObject m') label type amount skills priority.
Proof.
  intros H. unfold parse_side_routing.
  rewrite (check_id_agree m m'), (check_location_agree m m'), (get_id_agree m m'),
    (parse_coordinates_agree m m'), (get_service_agree m m'),
    (get_job_time_windows_agree m m'), (get_string_agree m m' "description")
    by (apply H; done).
  done.
Qed.

(** ** The common profile *)

Lemma FindMember_related R m m' name :
  members_related R m m' →
  (FindMember m name = None ∧ FindMember m' name = None) ∨
  ∃ x y, FindMember m name = Some x ∧ FindMember m' name = Some y ∧ R name x y.
Proof.
  induction 1 as [|[k x] [k' y] m m' [Hk HR] _ IH]; simpl; [by left|].
  simpl in Hk, HR. subst k'. case_decide; [|done]. subst k. right. by exists x, y.
Qed.

Lemma bind_ext_Ok {A B} (m : result A) (f g : A → result B) :
  (∀ a, m = Ok a → f a = g a) → bind m f = bind m g.
Proof. intros H. destruct m; simpl; auto. Qed.

Lemma common_profile_of_nonempty common profiles :
  common ≠ "" → common_profile_of DEFAULT_PROFILE common profiles = common.
Proof.
  intros Hc. unfold common_profile_of.
  induction profiles as [|p ps IH]; simpl; [done|]. by rewrite decide_False.
Qed.

Lemma get_string_profile m p :
  get_string (JObject m) "profile" = Ok p →
  vehicle_profile m = if decide (p = "") then DEFAULT_PROFILE else p.
Proof.
  unfold get_string, vehicle_profile. simpl.
  destruct (FindMember m "profile") as [[| | | |s| |]|]; simpl; try done.
  - by intros [= <-].
  - by intros [= <-].
Qed.

Lemma get_string_Ok_inv v key p :
  get_string v key = Ok p →
  ∃ m, v = JObject m ∧ ∀ x, FindMember m key = Some x → IsString x = true.
Proof.
  unfold get_string. intros H. inv_bind H has Hhas.
  apply HasMember_Ok_inv in Hhas as (m & -> & ->). exists m. split; [done|].
  intros x Hx. simpl in H. rewrite Hx in H. simpl in H. by destruct x.
Qed.

Lemma routing_wrapper_profile cl_args profile w :
  routing_wrapper cl_args profile = Ok w → wrapper_profile w = profile.
Proof.
  unfold routing_wrapper. intros H.
  destruct (cl_router cl_args); repeat case_match; try done;
    by injection H as <-.
Qed.

Lemma parse_vehicle_profile amount_size input common json_vehicle st :
  parse_vehicle amount_size (input, common) json_vehicle = Ok st →
  DEFAULT_PROFILE ≠ "" →
  st.2 ≠ "" ∧ (common ≠ "" → st.2 = common).
Proof.
  unfold parse_vehicle. intros H Hdefault.
  inv_bind H v Hv. inv_bind H p Hp. injection H as <-. simpl.
  repeat case_decide; done.
Qed.

Lemma parse_vehicle_variant amount_size input common v v' :
  objects_related profile_changed v v' → common ≠ "" →
  parse_vehicle amount_size (input, common) v =
  parse_vehicle amount_size (input, common) v'.
Proof.
  intros [->|(m & m' & -> & -> & Hm)] Hc; [done|]. unfold parse_vehicle.
  rewrite (get_vehicle_agree m m').
  2:{ intros k Hk. destruct (FindMember_related _ _ _ k Hm)
        as [[-> ->]|(x & y & -> & -> & [->|[? _]])]; done. }
  apply bind_ext. intros veh. cbn [fst snd].
  destruct (decide (common = "")) as [|_]; [done|].
  unfold get_string. simpl.
  destruct (FindMember_related _ _ _ "profile" Hm)
    as [[-> ->]|(x & y & -> & -> & [->|(_ & Hx & Hy)])]; try done.
  by destruct x, y.
Qed.

Lemma later_vehicles_variant amount_size rest rest' i input common :
  Forall2 (objects_related profile_changed) rest rest' →
  DEFAULT_PROFILE ≠ "" → common ≠ "" →
  for_index (λ st (_ : nat) json_vehicle, parse_vehicle amount_size st json_vehicle)
    i (input, common) rest =
  for_index (λ st (_ : nat) json_vehicle, parse_vehicle amount_size st json_vehicle)
    i (input, common) rest'.
Proof.
  intros Hrest Hdefault. revert i input common.
  induction Hrest as [|v v' rest rest' Hv _ IH]; intros i input common Hc; [done|].
  simpl. rewrite (parse_vehicle_variant amount_size input common v v') by done.
  apply bind_ext_Ok. intros [input' common'] Hst.
  apply parse_vehicle_profile in Hst as [Hne _]; [|done]. by apply IH.
Qed.

Lemma add_vehicles_variant amount_size first rest rest' input :
  Forall2 (objects_related profile_changed) rest rest' →
  DEFAULT_PROFILE ≠ "" →
  add_vehicles amount_size (JArray (first :: rest)) input =
  add_vehicles amount_size (JArray (first :: rest')) input.
Proof.
  intros Hrest Hdefault. unfold add_vehicles. simpl.
  apply bind_ext_Ok. intros [input' common'] Hst.
  apply parse_vehicle_profile in Hst as [Hne _]; [|done].
  by apply later_vehicles_variant.
Qed.

Lemma switch_input_type_agree amount_size has_jobs has_shipments m m' input :
  FindMember m "jobs" = FindMember m' "jobs" →
  FindMember m "shipments" = FindMember m' "shipments" →
  FindMember m "matrix" = FindMember m' "matrix" →
  switch_input_type amount_size has_jobs has_shipments (JObject m) input =
  switch_input_type amount_size has_jobs has_shipments (JObject m') input.
Proof.
  intros Hj Hs Hm. unfold switch_input_type, add_jobs, add_shipments. agree.
Qed.

Lemma read_document_common_profile geometry document st :
  DEFAULT_PROFILE ≠ "" →
  read_document geometry (JObject document) = Ok st →
  ∃ first rest,
    FindMember document "vehicles" = Some (JArray (JObject first :: rest)) ∧
    st.2 = vehicle_profile first.
Proof.
  intros Hdefault Hread. apply read_document_Ok_inv in Hread
    as (m' & v0 & vs & amount_size & vehicles & profiles & jobs & ships &
        [= <-] & _ & Hv & _ & Hvehicles & Hprofiles & -> & _).
  simpl in Hvehicles, Hprofiles.
  inv_bind Hvehicles veh Hveh. inv_bind Hprofiles p Hp.
  inv_bind Hprofiles ps Hps. injection Hprofiles as <-.
  apply get_vehicle_Ok_inv in Hveh as (first & -> & _).
  apply get_string_profile in Hp. exists first, vs. split; [done|].
  unfold common_profile_of. simpl. rewrite Hp.
  apply common_profile_of_nonempty. by case_decide.
Qed.

Lemma read_document_profiles_variant geometry document document' :
  DEFAULT_PROFILE ≠ "" →
  members_related later_profiles_changed document document' →
  read_document geometry (JObject document) =
  read_document geometry (JObject document').
Proof.
  intros Hdefault Hrel.
  assert (∀ k, k ≠ "vehicles" → FindMember document k = FindMember document' k)
    as Hother.
  { intros k Hk. destruct (FindMember_related _ _ _ k Hrel)
      as [[-> ->]|(x & y & -> & -> & [->|[? _]])]; done. }
  unfold read_document. rewrite !has_nonempty_array_object.
  rewrite <- !Hother by done. simpl.
  apply bind_ext. intros _.
  destruct (FindMember_related _ _ _ "vehicles" Hrel)
    as [[-> ->]|(x & y & -> & -> &
                 [->|(_ & first & rest & rest' & -> & -> & Hrest)])].
  - done.
  - simpl. destruct y as [| | | | |[|v vs]|]; try done. simpl.
    do 3 (apply bind_ext; intros ?).
    by rewrite (switch_input_type_agree _ _ _ document document') by auto.
  - unfold or_else, not_, lift. simpl. apply bind_ext. intros _.
    apply bind_ext. intros amount_size.
    rewrite (add_vehicles_variant amount_size first rest rest') by done.
    apply bind_ext. intros st.
    by rewrite (switch_input_type_agree _ _ _ document document') by auto.
Qed.

(** C6 (as amended): provided the default profile is a non-empty name, the
    routing wrapper is selected with, and built for, the [profile] string of
    the first vehicle up to its first NUL character when that is not empty,
    and the default profile otherwise; the [profile] of every vehicle is
    read, as a string; and two documents that differ only in the [profile]
    strings of the vehicles after the first have the same outcome, so
    differing profiles neither reject a document nor change the profile. *)
Theorem common_profile_is_first_vehicle :
  DEFAULT_PROFILE ≠ "" →
  (∀ cl_args document st,
     read_document (cl_geometry cl_args) (JObject document) = Ok st →
     ∃ first rest,
       FindMember document "vehicles" = Some (JArray (JObject first :: rest)) ∧
       parse cl_args (JObject document) =
         (let* w := routing_wrapper cl_args (vehicle_profile first) in
          Ok (set_routing st.1 w))) ∧
  (∀ cl_args document input,
     parse cl_args (JObject document) = Ok input →
     (∃ first rest w,
        FindMember document "vehicles" = Some (JArray (JObject first :: rest)) ∧
        routing_wrapper cl_args (vehicle_profile first) = Ok w ∧
        input_routing input = Some w ∧
        wrapper_profile w = vehicle_profile first) ∧
     Forall (λ v, ∃ m, v = JObject m ∧
               ∀ x, FindMember m "profile" = Some x → IsString x = true)
       (array_field document "vehicles")) ∧
  (∀ cl_args document document',
     members_related later_profiles_changed document document' →
     parse cl_args (JObject document) = parse cl_args (JObject document')).
Proof.
  intros Hdefault. split_and!.
  - intros cl_args document st Hread.
    destruct (read_document_common_profile _ _ _ Hdefault Hread)
      as (first & rest & Hv & Hprofile).
    exists first, rest. split; [done|]. unfold parse. rewrite Hread. simpl.
    by rewrite Hprofile.
  - intros cl_args document input Hparse. split.
    + unfold parse in Hparse. inv_bind Hparse st Hread. inv_bind Hparse w Hw.
      injection Hparse as <-.
      destruct (read_document_common_profile _ _ _ Hdefault Hread)
        as (first & rest & Hv & Hprofile).
      rewrite Hprofile in Hw. exists first, rest, w. split_and!; [done..|].
      by apply routing_wrapper_profile in Hw.
    + apply parse_Ok_inv in Hparse
        as (m' & v0 & vs & amount_size & vehicles & profiles & jobs & ships & w &
            [= <-] & _ & Hv & _ & _ & Hprofiles & _).
      unfold array_field. rewrite Hv.
      eapply mapM_Ok_Forall_l; [|exact Hprofiles]. intros v p.
      apply get_string_Ok_inv.
  - intros cl_args document document' Hrel. unfold parse.
    by rewrite (read_document_profiles_variant _ document document').
Qed.

(** ** Without matrix: locations, and the indices that are not read *)

Lemma for_index_Forall2 {A St} (body : St → nat → A → result St) i s l l' :
  Forall2 (λ x x', ∀ s i, body s i x = body s i x') l l' →
  for_index body i s l = for_index body i s l'.
Proof.
  intros H. revert i s. induction H as [|x x' l l' Hx _ IH]; intros i s; [done|].
  simpl. rewrite Hx. by apply bind_ext.
Qed.

Lemma location_index_changed_agree m m' :
  members_related location_index_changed m m' →
  ∀ k, k ≠ "location_index" → FindMember m k = FindMember m' k.
Proof.
  intros Hm k Hk. destruct (FindMember_related _ _ _ k Hm)
    as [[-> ->]|(x & y & -> & -> & [->|?])]; done.
Qed.

Lemma parse_job_routing_variant amount_size j j' :
  objects_related location_index_changed j j' →
  parse_job_routing amount_size j = parse_job_routing amount_size j'.
Proof.
  intros [->|(m & m' & -> & -> & Hm)]; [done|].
  by apply parse_job_routing_agree, location_index_changed_agree.
Qed.

Lemma parse_side_routing_variant v v' label type amount skills priority :
  objects_related location_index_changed v v' →
  parse_side_routing v label type amount skills priority =
  parse_side_routing v' label type amount skills priority.
Proof.
  intros [->|(m & m' & -> & -> & Hm)]; [done|].
  by apply parse_side_routing_agree, location_index_changed_agree.
Qed.

Lemma objects_related_IsObject R v v' :
  objects_related R v v' → IsObject v = IsObject v'.
Proof. by intros [->|(m & m' & -> & -> & _)]. Qed.

Lemma parse_shipment_variant amount_size s s' :
  objects_related sides_changed s s' →
  parse_shipment amount_size parse_side_routing s =
  parse_shipment amount_size parse_side_routing s'.
Proof.
  intros [->|(m & m' & -> & -> & Hm)]; [done|].
  assert (∀ k, k ≠ "pickup" → k ≠ "delivery" → FindMember m k = FindMember m' k)
    as Hother.
  { intros k Hp Hd. destruct (FindMember_related _ _ _ k Hm)
      as [[-> ->]|(x & y & -> & -> & [->|[[?|?] _]])]; done. }
  assert (∀ k, k = "pickup" ∨ k = "delivery" →
            (FindMember m k = None ∧ FindMember m' k = None) ∨
            ∃ x y, FindMember m k = Some x ∧ FindMember m' k = Some y ∧
              objects_related location_index_changed x y) as Hside.
  { intros k Hk. destruct (FindMember_related _ _ _ k Hm)
      as [?|(x & y & Hx & Hy & [->|[_ Hxy]])]; [by left|right..].
    - exists y, y. split_and!; [done..|by left].
    - by exists x, y. }
  unfold parse_shipment.
  replace (check_shipment (JObject m')) with (check_shipment (JObject m)).
  2:{ unfold check_shipment, or_else, not_, lift. simpl.
      destruct (Hside "pickup") as [[-> ->]|(x & y & -> & -> & Hxy)]; [by left|done|].
      destruct (Hside "delivery") as [[-> ->]|(x' & y' & -> & -> & Hxy')];
        [by right|..]; simpl;
        rewrite (objects_related_IsObject _ x y Hxy); [done|].
      by rewrite (objects_related_IsObject _ x' y' Hxy'). }
  rewrite (get_amount_agree m m'), (get_skills_agree m m'),
    (get_priority_agree m m') by (apply Hother; done).
  do 4 (apply bind_ext; intros ?). simpl.
  destruct (Hside "pickup") as [[-> ->]|(x & y & -> & -> & Hxy)]; [by left|done|].
  simpl. rewrite (parse_side_routing_variant x y) by done.
  apply bind_ext. intros pickup.
  destruct (Hside "delivery") as [[-> ->]|(x' & y' & -> & -> & Hxy')];
    [by right|done|].
  simpl. by rewrite (parse_side_routing_variant x' y') by done.
Qed.

Lemma check_location_spec m id type :
  has_id m id →
  check_location (JObject m) type =
    match FindMember m "location" with
    | Some (JArray _) => Ok tt
    | _ => Throw INPUT ("Invalid location for " +:+ type +:+ " " +:+
                        to_string id +:+ ".")
    end.
Proof.
  intros Hid. unfold check_location, when, throw.
  rewrite (id_string_has_id m id Hid). unfold or_else, not_, lift. simpl.
  by destruct (FindMember m "location") as [[| | | | | |]|].
Qed.

Lemma parsed_locations cl_args document input :
  FindMember document "matrix" = None →
  parse cl_args (JObject document) = Ok input →
  Forall side_located (array_field document "jobs") ∧
  Forall shipment_located (array_field document "shipments").
Proof.
  intros Hmatrix Hparse. apply parse_Ok_inv in Hparse
    as (m' & v0 & vs & amount_size & vehicles & profiles & jobs & ships & w &
        [= <-] & _ & _ & _ & _ & _ & _ & Hmode).
  rewrite Hmatrix in Hmode. destruct Hmode as (Hjobs & Hships & _). split.
  - eapply mapM_Ok_Forall_l; [|exact Hjobs]. intros j job Hj.
    apply parse_job_routing_Ok_inv in Hj as (mj & idj & c & -> & _ & Hl & _).
    by exists mj.
  - eapply mapM_Ok_Forall_l; [|exact Hships]. intros s pd Hs.
    apply parse_shipment_Ok_inv in Hs
      as (ms & p & d & amount & skills & priority & -> & Hp & Hd & _ & Hpick & Hdel).
    apply parse_side_routing_Ok_inv in Hpick as (mp & idp & cp & [= <-] & _ & Hlp & _).
    apply parse_side_routing_Ok_inv in Hdel as (md & idd & cd & [= <-] & _ & Hld & _).
    exists ms, (JObject p), (JObject d). split_and!; [done..| |].
    + by exists p.
    + by exists d.
Qed.

Lemma read_document_location_index_variant geometry document document' :
  FindMember document "matrix" = None →
  members_related entities_changed document document' →
  read_document geometry (JObject document) =
  read_document geometry (JObject document').
Proof.
  intros Hmatrix Hrel.
  assert (∀ k, k ≠ "jobs" → k ≠ "shipments" →
            FindMember document k = FindMember document' k) as Hother.
  { intros k Hj Hs. destruct (FindMember_related _ _ _ k Hrel)
      as [[-> ->]|(x & y & -> & -> & [->|(l & l' & _ & _ & [[? _]|[? _]])])];
      done. }
  assert (∀ k, nonempty_array (FindMember document k)
               = nonempty_array (FindMember document' k)) as Hnonempty.
  { intros k. destruct (FindMember_related _ _ _ k Hrel)
      as [[-> ->]|(x & y & -> & -> & [->|(l & l' & -> & -> & [[_ Hl]|[_ Hl]])])];
      try done; by destruct Hl. }
  assert (FindMember document' "matrix" = None) as Hmatrix'.
  { by rewrite <- (Hother "matrix"). }
  unfold read_document. rewrite !has_nonempty_array_object, <- !Hnonempty.
  cbn [bind HasMember member]. rewrite <- !(Hother "vehicles") by done.
  apply bind_ext; intros u1. apply bind_ext; intros u2.
  apply bind_ext; intros json_vehicles. apply bind_ext; intros first_vehicle.
  apply bind_ext; intros u3. apply bind_ext; intros amount_size.
  apply bind_ext; intros st.
  unfold switch_input_type. cbn [HasMember member bind].
  rewrite Hmatrix', Hmatrix. simpl.
  replace (add_jobs (parse_job_routing amount_size)
             (nonempty_array (FindMember document "jobs")) (JObject document') st.1)
    with (add_jobs (parse_job_routing amount_size)
            (nonempty_array (FindMember document "jobs")) (JObject document) st.1).
  2:{ unfold add_jobs. simpl.
      destruct (FindMember_related _ _ _ "jobs" Hrel)
        as [[-> ->]|(x & y & -> & -> &
                     [->|(l & l' & -> & -> & [[_ Hl]|[? _]])])]; try done.
      destruct l; [done|]. simpl nonempty_array. cbn iota. simpl from_option.
      simpl elements_of. cbn [bind]. apply for_index_Forall2.
      eapply Forall2_impl; [exact Hl|]. intros j j' Hj input i.
      by rewrite (parse_job_routing_variant amount_size j j'). }
  f_equal. apply bind_ext. intros input.
  unfold add_shipments. simpl.
  destruct (FindMember_related _ _ _ "shipments" Hrel)
    as [[-> ->]|(x & y & -> & -> &
                 [->|(l & l' & -> & -> & [[? _]|[_ Hl]])])]; try done.
  destruct l; [done|]. simpl nonempty_array. cbn iota. simpl from_option.
  simpl elements_of. cbn [bind]. apply for_index_Forall2.
  eapply Forall2_impl; [exact Hl|]. intros sh sh' Hsh input' i.
  by rewrite (parse_shipment_variant amount_size sh sh').
Qed.

(** C8: without matrix, [check_location] rejects a job, pickup or delivery
    whose [location] is missing or no array with an INPUT error naming the
    entity and its id; a document is read successfully only if each of them
    carries a [location] array of coordinates, and is rejected otherwise; the
    [location_index] members are not read: two documents without matrix that
    differ only in the values of the [location_index] members of their jobs,
    pickups and deliveries have the same outcome. *)
Theorem routing_mode_reads_locations_only :
  (∀ m id type,
     has_id m id →
     (∀ x, FindMember m "location" = Some x → IsArray x = false) →
     check_location (JObject m) type =
       Throw INPUT ("Invalid location for " +:+ type +:+ " " +:+
                    to_string id +:+ ".")) ∧
  (∀ cl_args document input,
     FindMember document "matrix" = None →
     parse cl_args (JObject document) = Ok input →
     Forall side_located (array_field document "jobs") ∧
     Forall shipment_located (array_field document "shipments")) ∧
  (∀ cl_args document,
     FindMember document "matrix" = None →
     ¬ (Forall side_located (array_field document "jobs") ∧
        Forall shipment_located (array_field document "shipments")) →
     rejected (parse cl_args (JObject document))) ∧
  (∀ cl_args document document',
     FindMember document "matrix" = None →
     members_related entities_changed document document' →
     parse cl_args (JObject document) = parse cl_args (JObject document')).
Proof.
  split_and!.
  - intros m id type Hid Hloc. rewrite (check_location_spec m id) by done.
    destruct (FindMember m "location") as [[| | | | |l|]|]; try done.
    by specialize (Hloc _ eq_refl).
  - apply parsed_locations.
  - intros cl_args document Hmatrix Hnot. apply parse_rejected_unless.
    intros cl_args' input Hparse. apply Hnot. by eapply parsed_locations.
  - intros cl_args document document' Hmatrix Hrel. unfold parse.
    by rewrite (read_document_location_index_variant _ document document').
Qed.

(** ** Identifiers *)

(** C9: ids are not required to be unique: the example document, in
    which two jobs have id 7 and two vehicles have id 3, is read
    successfully, and the aggregate holds both jobs and both vehicles, each
    with the repeated id; in general the jobs and the vehicles of the
    aggregate are those of the document, one for one, with the ids they have
    there. *)
Theorem duplicate_ids_accepted :
  (∃ input j1 j2 v1 v2,
     parse example_args duplicate_ids_document = Ok input ∧
     input_jobs input = [j1; j2] ∧ job_id j1 = 7 ∧ job_id j2 = 7 ∧
     input_vehicles input = [v1; v2] ∧ vehicle_id v1 = 3 ∧ vehicle_id v2 = 3) ∧
  (∀ cl_args document input,
     parse cl_args (JObject document) = Ok input →
     Forall2 (λ j job, ∃ m, j = JObject m ∧ has_id m (job_id job))
       (array_field document "jobs") (input_jobs input) ∧
     Forall2 (λ v veh, ∃ m, v = JObject m ∧ has_id m (vehicle_id veh))
       (array_field document "vehicles") (input_vehicles input)).
Proof.
  split.
  { eexists _, _, _, _, _. split; [vm_compute; reflexivity|]. done. }
  intros cl_args document input Hparse. apply parse_Ok_inv in Hparse
    as (m' & v0 & vs & amount_size & vehicles & profiles & jobs & ships & w &
        [= <-] & _ & Hv & _ & Hvehicles & _ & _ & Hmode).
  assert (Forall2 (λ v veh, ∃ m, v = JObject m ∧ has_id m (vehicle_id veh))
            (array_field document "vehicles") vehicles) as Hvs.
  { unfold array_field. rewrite Hv.
    eapply mapM_Ok_Forall2_impl; [|exact Hvehicles]. intros v veh Hveh.
    apply get_vehicle_Ok_inv in Hveh as (mv & -> & Hid & _). by exists mv. }
  destruct (FindMember document "matrix") as [mv|].
  - destruct Hmode as (rows & matrix & -> & _ & Hjobs & _ & ->). simpl.
    split; [|done].
    eapply mapM_Ok_Forall2_impl; [|exact Hjobs]. intros j job Hj.
    apply parse_job_matrix_Ok_inv in Hj
      as (mj & idj & x & -> & Hid & _ & _ & _ & _ & <- & _).
    by exists mj.
  - destruct Hmode as (Hjobs & _ & ->). simpl. split; [|done].
    eapply mapM_Ok_Forall2_impl; [|exact Hjobs]. intros j job Hj.
    apply parse_job_routing_Ok_inv in Hj
      as (mj & idj & c & -> & Hid & _ & _ & _ & _ & <- & _).
    by exists mj.
Qed.

(** ** The contract of the JSON accessors

    The checks of the reader guard every member read and every typed getter,
    but for the members of a vehicle step, which are looked up before
    anything is known of the step. *)

Lemma defined_bind {A B} (m : result A) (f : A → result B) :
  defined m → (∀ a, m = Ok a → defined (f a)) → defined (bind m f).
Proof. destruct m; simpl; [intros _ H; by apply H|done..]. Qed.

Lemma defined_void {A} (r : result A) : defined r → defined (void r).
Proof. by destruct r. Qed.

Lemma defined_call {A} line (c : Call A) :
  Forall defined (outcomes c) → defined (call line c).
Proof.
  intros Hall. pose proof (call_failure line c) as Hc.
  destruct (call line c) as [x|e msg|]; [done..|].
  by apply (proj1 (Forall_forall _ _) Hall) in Hc.
Qed.

Ltac defined_call :=
  apply defined_call; cbn [outcomes app]; repeat apply Forall_cons_2;
  [..|apply Forall_nil_2]; apply defined_void.

Lemma defined_for_index {A St} (body : St → nat → A → result St) i s l :
  (∀ s i x, x ∈ l → defined (body s i x)) → defined (for_index body i s l).
Proof.
  revert i s. induction l as [|x l IH]; intros i s Hbody; simpl; [done|].
  apply defined_bind.
  - apply Hbody. by left.
  - intros s' _. apply IH. intros s0 i0 x0 Hx0. apply Hbody. by right.
Qed.

Lemma defined_mapM {A B} (f : A → result B) l :
  (∀ x, x ∈ l → defined (f x)) → defined (mapM f l).
Proof.
  induction l as [|x l IH]; intros Hf; simpl; [done|].
  apply defined_bind; [apply Hf; by left|]. intros y _.
  apply defined_bind; [|done]. apply IH. intros x0 Hx0. apply Hf. by right.
Qed.

Ltac defined_leaf :=
  unfold when, throw, or_else, and_then, not_, lift; simpl;
  repeat match goal with
    | |- context [FindMember ?m ?k] => destruct (FindMember m k) as [[]|]; simpl
    | |- context [bool_decide ?P] => destruct (bool_decide P); simpl
    | x : Value |- _ => destruct x; simpl
    end;
  try done.

Lemma defined_parse_coordinates m key :
  is_Some (FindMember m key) → defined (parse_coordinates (JObject m) key).
Proof.
  intros [k Hk]. unfold parse_coordinates, when, or_else, not_, lift. simpl.
  rewrite Hk. simpl. destruct k as [| | | | |[|a [|b l]]|]; try done.
  by destruct a, b.
Qed.

Lemma defined_get_string m key : defined (get_string (JObject m) key).
Proof. unfold get_string. defined_leaf. Qed.

Lemma defined_get_amount m key size : defined (get_amount (JObject m) key size).
Proof.
  unfold get_amount. simpl. destruct (FindMember m key) as [k|]; [|done]. simpl.
  destruct k; try done. simpl. case_bool_decide; [done|]. simpl.
  apply defined_for_index. intros amount i x _. defined_leaf.
Qed.

Lemma defined_get_skills m : defined (get_skills (JObject m)).
Proof.
  unfold get_skills. simpl. destruct (FindMember m "skills") as [k|]; [|done].
  simpl. destruct k; try done. simpl.
  apply defined_for_index. intros skills i x _. defined_leaf.
Qed.

Lemma defined_get_service m : defined (get_service (JObject m)).
Proof. unfold get_service. defined_leaf. Qed.

Lemma defined_get_priority m : defined (get_priority (JObject m)).
Proof. unfold get_priority. defined_leaf. Qed.

Lemma defined_check_id v type : defined (check_id v type).
Proof. unfold check_id. destruct v; defined_leaf. Qed.

Lemma defined_check_shipment v : defined (check_shipment v).
Proof. unfold check_shipment. destruct v; defined_leaf. Qed.

Lemma defined_check_location_index m id type n :
  has_id m id → defined (check_location_index (JObject m) type n).
Proof.
  intros Hid. rewrite (check_location_index_spec m id) by done. defined_leaf.
Qed.

Lemma defined_check_location m id type :
  has_id m id → defined (check_location (JObject m) type).
Proof. intros Hid. rewrite (check_location_spec m id) by done. defined_leaf. Qed.

Lemma defined_get_time_window tw : defined (get_time_window tw).
Proof.
  unfold get_time_window. destruct tw as [| | | | |[|a [|b l]]|]; try done.
  defined_leaf.
Qed.

Lemma defined_get_vehicle_time_window m : defined (get_vehicle_time_window (JObject m)).
Proof.
  unfold get_vehicle_time_window. simpl.
  destruct (FindMember m "time_window"); [|done]. apply defined_get_time_window.
Qed.

Lemma defined_get_job_time_windows m id :
  has_id m id → defined (get_job_time_windows (JObject m)).
Proof.
  intros Hid. unfold get_job_time_windows. rewrite (id_string_has_id m id Hid).
  simpl. destruct (FindMember m "time_windows") as [k|]; [|done]. simpl.
  destruct k as [| | | | |[|x l]|]; try done. simpl.
  apply defined_bind; [|done]. apply (defined_mapM get_time_window (x :: l)).
  intros. apply defined_get_time_window.
Qed.

Lemma defined_get_break_time_windows m id :
  has_id m id → defined (get_break_time_windows (JObject m)).
Proof.
  intros Hid. unfold get_break_time_windows. rewrite (id_string_has_id m id Hid).
  unfold or_else, not_, lift. simpl.
  destruct (FindMember m "time_windows") as [k|]; [|done]. simpl.
  destruct k as [| | | | |[|x l]|]; try done. simpl.
  apply defined_bind; [|done]. apply (defined_mapM get_time_window (x :: l)).
  intros. apply defined_get_time_window.
Qed.

Lemma defined_get_break b : defined (get_break b).
Proof.
  unfold get_break. apply defined_bind; [apply defined_check_id|].
  intros u Hid. apply check_id_Ok_inv in Hid as (m & id & -> & Hid).
  rewrite (get_id_has_id m id Hid). defined_call;
    [done|by eapply defined_get_break_time_windows|apply defined_get_service|
     apply defined_get_string].
Qed.

Lemma defined_get_vehicle_breaks m id :
  has_id m id → defined (get_vehicle_breaks (JObject m)).
Proof.
  intros Hid. unfold get_vehicle_breaks. rewrite (id_string_has_id m id Hid).
  simpl. apply defined_bind; [|done].
  destruct (FindMember m "breaks") as [k|]; [|done]. simpl.
  destruct k; try done. simpl. apply defined_mapM. intros. apply defined_get_break.
Qed.

Lemma defined_get_forced ms key : defined (get_forced (JObject ms) key).
Proof. unfold get_forced. defined_leaf. Qed.

Lemma defined_get_vehicle_step m id steps json_step :
  has_id m id → IsObject json_step = true →
  defined (get_vehicle_step (JObject m) steps json_step).
Proof.
  intros Hid Hstep. destruct json_step as [| | | | | |ms]; try done.
  unfold get_vehicle_step. rewrite (id_string_has_id m id Hid).
  apply defined_bind; [apply defined_get_forced|]. intros at_ _.
  apply defined_bind; [apply defined_get_forced|]. intros after _.
  apply defined_bind; [apply defined_get_forced|]. intros before _.
  apply defined_bind; [apply defined_get_string|]. intros type_str _.
  repeat case_decide; try done; defined_leaf.
Qed.

Lemma defined_get_vehicle_steps m id :
  has_id m id → steps_are_objects (JObject m) →
  defined (get_vehicle_steps (JObject m)).
Proof.
  intros Hid Hsteps. specialize (Hsteps m eq_refl). unfold array_field in Hsteps.
  unfold get_vehicle_steps. rewrite (id_string_has_id m id Hid). simpl.
  destruct (FindMember m "steps") as [k|]; [|done]. simpl.
  destruct k as [| | | | |l|]; try done. simpl.
  apply defined_for_index. intros steps i x Hx.
  apply (defined_get_vehicle_step m id); [done|].
  by apply (proj1 (Forall_forall _ _) Hsteps).
Qed.

Lemma defined_get_vehicle_location m v_id coords index what :
  defined (get_vehicle_location (JObject m) v_id coords index what).
Proof.
  unfold get_vehicle_location, and_then, not_, lift. simpl.
  destruct (FindMember m index) as [k|]; simpl.
  - destruct k; try done. simpl. case_bool_decide; [|done]. simpl.
    destruct (FindMember m coords) eqn:Hc; simpl; [|done].
    apply defined_bind; [|done]. apply defined_parse_coordinates. by rewrite Hc.
  - destruct (FindMember m coords) eqn:Hc; simpl; [|done].
    apply defined_bind; [|done]. apply defined_parse_coordinates. by rewrite Hc.
Qed.

Lemma defined_get_vehicle json_vehicle amount_size :
  steps_are_objects json_vehicle → defined (get_vehicle json_vehicle amount_size).
Proof.
  intros Hsteps. unfold get_vehicle.
  apply defined_bind; [apply defined_check_id|].
  intros u Hid. apply check_id_Ok_inv in Hid as (m & id & -> & Hid).
  rewrite (get_id_has_id m id Hid). cbn [bind].
  apply defined_bind; [apply defined_get_vehicle_location|]. intros start _.
  apply defined_bind; [apply defined_get_vehicle_location|]. intros end_ _.
  defined_call;
    [done..|apply defined_get_amount|apply defined_get_skills|
     apply defined_get_vehicle_time_window|by eapply defined_get_vehicle_breaks|
     apply defined_get_string|by eapply defined_get_vehicle_steps].
Qed.

Lemma defined_parse_vehicle amount_size st json_vehicle :
  steps_are_objects json_vehicle →
  defined (parse_vehicle amount_size st json_vehicle).
Proof.
  intros Hsteps. unfold parse_vehicle.
  apply defined_bind; [by apply defined_get_vehicle|]. intros v Hv.
  apply get_vehicle_Ok_inv in Hv as (m & -> & _).
  apply defined_bind; [apply defined_get_string|]. done.
Qed.

Lemma defined_matrix_location m i : defined (matrix_location (JObject m) i).
Proof.
  unfold matrix_location. simpl. case_bool_decide as Hloc; simpl; [|done].
  apply defined_bind; [|done]. by apply defined_parse_coordinates.
Qed.

Lemma defined_parse_job_matrix amount_size n json_job :
  defined (parse_job_matrix amount_size n json_job).
Proof.
  unfold parse_job_matrix. apply defined_bind; [apply defined_check_id|].
  intros u Hid. apply check_id_Ok_inv in Hid as (m & id & -> & Hid).
  apply defined_bind; [by eapply defined_check_location_index|]. intros u' Hli.
  apply check_location_index_Ok_inv in Hli as (m' & x & [= <-] & [Hxm Hxr] & Hx32).
  simpl. rewrite Hxm. simpl. rewrite bool_decide_eq_true_2 by lia. simpl.
  rewrite need_amount_compat_object, (get_id_has_id m id Hid). cbn [bind].
  defined_call;
    [done|apply defined_matrix_location|apply defined_get_service|
     destruct (amount_only m); apply defined_get_amount|apply defined_get_amount|
     apply defined_get_skills|apply defined_get_priority|
     by eapply defined_get_job_time_windows|apply defined_get_string].
Qed.

Lemma defined_parse_job_routing amount_size json_job :
  defined (parse_job_routing amount_size json_job).
Proof.
  unfold parse_job_routing. apply defined_bind; [apply defined_check_id|].
  intros u Hid. apply check_id_Ok_inv in Hid as (m & id & -> & Hid).
  apply defined_bind; [by eapply defined_check_location|]. intros u' Hl.
  apply check_location_Ok_inv in Hl as (m' & l & [= <-] & Hl).
  rewrite need_amount_compat_object, (get_id_has_id m id Hid). cbn [bind].
  defined_call;
    [done| |apply defined_get_service|
     destruct (amount_only m); apply defined_get_amount|apply defined_get_amount|
     apply defined_get_skills|apply defined_get_priority|
     by eapply defined_get_job_time_windows|apply defined_get_string].
  apply defined_bind; [|done]. apply defined_parse_coordinates. by rewrite Hl.
Qed.

Lemma defined_parse_side_matrix n json_side label type amount skills priority :
  defined (parse_side_matrix n json_side label type amount skills priority).
Proof.
  unfold parse_side_matrix. apply defined_bind; [apply defined_check_id|].
  intros u Hid. apply check_id_Ok_inv in Hid as (m & id & -> & Hid).
  apply defined_bind; [by eapply defined_check_location_index|]. intros u' Hli.
  apply check_location_index_Ok_inv in Hli as (m' & x & [= <-] & [Hxm Hxr] & Hx32).
  simpl. rewrite Hxm. simpl. rewrite bool_decide_eq_true_2 by lia. simpl.
  rewrite (get_id_has_id m id Hid).
  defined_call;
    [done..|apply defined_matrix_location|apply defined_get_service|done|done|done|
     by eapply defined_get_job_time_windows|apply defined_get_string].
Qed.

Lemma defined_parse_side_routing json_side label type amount skills priority :
  defined (parse_side_routing json_side label type amount skills priority).
Proof.
  unfold parse_side_routing. apply defined_bind; [apply defined_check_id|].
  intros u Hid. apply check_id_Ok_inv in Hid as (m & id & -> & Hid).
  apply defined_bind; [by eapply defined_check_location|]. intros u' Hl.
  apply check_location_Ok_inv in Hl as (m' & l & [= <-] & Hl).
  rewrite (get_id_has_id m id Hid).
  defined_call;
    [done|done| |apply defined_get_service|done|done|done|
     by eapply defined_get_job_time_windows|apply defined_get_string].
  apply defined_bind; [|done]. apply defined_parse_coordinates. by rewrite Hl.
Qed.

Lemma defined_parse_shipment amount_size side json_shipment :
  (∀ v label type amount skills priority,
     defined (side v label type amount skills priority)) →
  defined (parse_shipment amount_size side json_shipment).
Proof.
  intros Hside. unfold parse_shipment.
  apply defined_bind; [apply defined_check_shipment|]. intros u Hs.
  apply check_shipment_Ok_inv in Hs as (m & p & d & -> & Hp & Hd).
  apply defined_bind; [apply defined_get_amount|]. intros amount _.
  apply defined_bind; [apply defined_get_skills|]. intros skills _.
  apply defined_bind; [apply defined_get_priority|]. intros priority _.
  simpl. rewrite Hp, Hd. simpl.
  apply defined_bind; [apply Hside|]. intros pickup _.
  apply defined_bind; [apply Hside|]. done.
Qed.

Lemma defined_load_matrix m : defined (load_matrix m).
Proof.
  unfold load_matrix. destruct m as [| | | | |rows|]; try done. simpl.
  apply defined_for_index. intros matrix_input i row _.
  destruct row as [| | | | |cells|]; try done.
  unfold when, or_else, lift. simpl. case_bool_decide; [done|]. simpl.
  apply defined_for_index. intros mi j cell _. defined_leaf.
Qed.

Lemma defined_add_jobs job m input :
  (∀ j, defined (job j)) →
  defined (add_jobs job (nonempty_array (FindMember m "jobs")) (JObject m) input).
Proof.
  intros Hjob. unfold add_jobs. simpl.
  destruct (FindMember m "jobs") as [[| | | | |[|x l]|]|]; try done.
  simpl nonempty_array. cbn iota. simpl from_option. simpl elements_of. cbn [bind].
  apply defined_for_index. intros s i j _.
  apply defined_bind; [apply Hjob|done].
Qed.

Lemma defined_add_shipments shipment m input :
  (∀ s, defined (shipment s)) →
  defined (add_shipments shipment (nonempty_array (FindMember m "shipments"))
             (JObject m) input).
Proof.
  intros Hshipment. unfold add_shipments. simpl.
  destruct (FindMember m "shipments") as [[| | | | |[|x l]|]|]; try done.
  simpl nonempty_array. cbn iota. simpl from_option. simpl elements_of. cbn [bind].
  apply defined_for_index. intros s i j _.
  apply defined_bind; [apply Hshipment|done].
Qed.

Lemma defined_switch_input_type amount_size m input :
  defined (switch_input_type amount_size (nonempty_array (FindMember m "jobs"))
             (nonempty_array (FindMember m "shipments")) (JObject m) input).
Proof.
  unfold switch_input_type. simpl.
  destruct (FindMember m "matrix") as [mv|] eqn:Hmv; simpl.
  - apply defined_bind; [apply defined_load_matrix|]. intros matrix Hmatrix.
    destruct (load_matrix_Ok_inv _ _ Hmatrix) as [rows ->]. simpl.
    apply defined_bind.
    + apply defined_add_jobs. intros. apply defined_parse_job_matrix.
    + intros input' _. apply defined_add_shipments. intros.
      apply defined_parse_shipment. intros. apply defined_parse_side_matrix.
  - apply defined_bind.
    + apply defined_add_jobs. intros. apply defined_parse_job_routing.
    + intros input' _. apply defined_add_shipments. intros.
      apply defined_parse_shipment. intros. apply defined_parse_side_routing.
Qed.

Lemma defined_routing_wrapper cl_args profile :
  defined (routing_wrapper cl_args profile).
Proof. unfold routing_wrapper. repeat case_match; done. Qed.

(** A document that is an object, and in which the steps of the vehicles
    are objects, is read within the contract of the JSON accessors. *)
Lemma parse_defined cl_args document :
  Forall steps_are_objects (array_field document "vehicles") →
  defined (parse cl_args (JObject document)).
Proof.
  intros Hsteps. unfold parse. apply defined_bind.
  2:{ intros st _. apply defined_bind; [apply defined_routing_wrapper|done]. }
  unfold read_document. rewrite !has_nonempty_array_object. cbn [bind].
  apply defined_bind.
  { unfold when. simpl. by destruct (negb _ && negb _). }
  intros u1 _.
  unfold array_field in Hsteps. unfold or_else, not_, lift. simpl.
  destruct (FindMember document "vehicles") as [[| | | | |[|v0 vs]|]|]; try done.
  simpl. apply defined_bind; [apply defined_check_id|].
  intros u2 Hid. apply check_id_Ok_inv in Hid as (m0 & id0 & -> & Hid).
  rewrite first_vehicle_amount_size_object. cbn [bind].
  apply defined_bind.
  { unfold add_vehicles. simpl elements_of. cbn [bind].
    apply defined_for_index. intros st i v Hv. apply defined_parse_vehicle.
    by apply (proj1 (Forall_forall _ _) Hsteps). }
  intros st _.
  apply defined_bind; [apply defined_switch_input_type|]. done.
Qed.

(** C5: the windows returned for a job and for a break are in ascending
    order of [(start, end)] and are the windows of the document, whatever
    their order there, and a non-empty array of time windows is returned in
    this way for a job and for a break alike; a job without [time_windows]
    gets exactly the default unbounded window; for a break whose
    [time_windows] is missing, not an array or empty, [get_break_time_windows]
    throws an INPUT error that names the break's id, and [get_break] ends in
    an INPUT error: that one, when the service and the description of the
    break can be read. *)
Theorem time_windows_sorted :
  (∀ j tws, get_job_time_windows j = Ok tws →
     StronglySorted tw_le tws ∧
     ∀ m k, j = JObject m → FindMember m "time_windows" = Some k →
       ∃ elems raw, k = JArray elems ∧
         mapM get_time_window elems = Ok raw ∧ tws ≡ₚ raw) ∧
  (∀ b tws, get_break_time_windows b = Ok tws →
     StronglySorted tw_le tws ∧
     ∃ m elems raw, b = JObject m ∧
       FindMember m "time_windows" = Some (JArray elems) ∧
       mapM get_time_window elems = Ok raw ∧ tws ≡ₚ raw) ∧
  (∀ m elems raw,
     FindMember m "time_windows" = Some (JArray elems) → elems ≠ [] →
     mapM get_time_window elems = Ok raw →
     ∃ tws, get_job_time_windows (JObject m) = Ok tws ∧
       get_break_time_windows (JObject m) = Ok tws ∧
       StronglySorted tw_le tws ∧ tws ≡ₚ raw) ∧
  (∀ m, FindMember m "time_windows" = None →
     get_job_time_windows (JObject m) = Ok [TimeWindow_default]) ∧
  (∀ m id, has_id m id →
     nonempty_array (FindMember m "time_windows") = false →
     get_break_time_windows (JObject m) =
       Throw INPUT ("Invalid time_windows array for break " +:+ to_string id +:+ ".") ∧
     is_input_error (get_break (JObject m)) ∧
     ((∃ service, get_service (JObject m) = Ok service) →
      (∃ description, get_string (JObject m) "description" = Ok description) →
      get_break (JObject m) =
        Throw INPUT ("Invalid time_windows array for break " +:+ to_string id +:+
                     "."))).
Proof.
  split_and!.
  - intros j tws H. apply get_job_time_windows_Ok_inv in H as (m & -> & H).
    destruct (FindMember m "time_windows") as [k|] eqn:Hk.
    + destruct H as (x & elems & raw & -> & Hraw & ->). split.
      * apply sort_by_tw_sorted.
      * intros m' k' [= <-] Hk'. rewrite Hk in Hk'. injection Hk' as <-.
        eexists _, raw. split_and!; [done..|]. apply sort_by_perm.
    + subst tws. split.
      * repeat constructor.
      * intros m' k' [= <-] Hk'. congruence.
  - intros b tws H.
    apply get_break_time_windows_Ok_inv in H as (m & x & elems & raw & -> & Hk & Hraw & ->).
    split; [apply sort_by_tw_sorted|].
    eexists m, _, raw. split_and!; [done..|]. apply sort_by_perm.
  - intros m elems raw Hk Hne Hraw. exists (sort_by tw_lt raw).
    split_and!; [| |apply sort_by_tw_sorted|apply sort_by_perm].
    + unfold get_job_time_windows, when, or_else. simpl. rewrite Hk. simpl.
      rewrite bool_decide_eq_false_2 by done. cbn [bind]. by rewrite Hraw.
    + unfold get_break_time_windows, when, or_else, not_, lift. simpl.
      rewrite Hk. simpl. rewrite bool_decide_eq_false_2 by done. cbn [bind].
      by rewrite Hraw.
  - intros m Hm. unfold get_job_time_windows. simpl. by rewrite Hm.
  - intros m id Hid Hk.
    assert (get_break_time_windows (JObject m) =
              Throw INPUT ("Invalid time_windows array for break " +:+
                           to_string id +:+ ".")) as Htws.
    { unfold get_break_time_windows, when, throw.
      rewrite (id_string_has_id m id Hid).
      unfold or_else, not_, lift. simpl.
      destruct (FindMember m "time_windows") as [[| | | | |[|]|]|]; done. }
    split; [done|]. unfold get_break.
    rewrite (check_id_has_id m id "break" Hid), (get_id_has_id m id Hid), Htws.
    cbn [bind]. split.
    + match goal with |- is_input_error (call ?line ?c) =>
        pose proof (input_only_call line c) as Hinput;
        pose proof (defined_call line c) as Hdefined;
        destruct (call line c) as [br|e msg|] eqn:E
      end.
      * by apply call_Ok in E.
      * exists msg. destruct e; [done|]. destruct Hinput.
        cbn [outcomes app]. repeat apply Forall_cons_2; [..|apply Forall_nil_2];
          apply input_only_void; first [done|auto with input_only].
      * destruct Hdefined.
        cbn [outcomes app]. repeat apply Forall_cons_2; [..|apply Forall_nil_2];
          apply defined_void;
          [done|done|apply defined_get_service|apply defined_get_string].
    + intros [service ->] [description ->]. reflexivity.
Qed.


(** C10 (as amended): the empty array passes the validation of the matrix,
    as the matrix of size 0, but no document whose [matrix] is the empty
    array is read successfully: the run ends in an INPUT error, unless it
    breaks the contract of a JSON accessor before, which it does not when the
    steps of the vehicles are objects. *)
Theorem empty_matrix_never_succeeds :
  load_matrix (JArray []) = Ok [] ∧
  ∀ cl_args document,
    FindMember document "matrix" = Some (JArray []) →
    (∀ input, parse cl_args (JObject document) ≠ Ok input) ∧
    (parse cl_args (JObject document) ≠ AssertFail →
     is_input_error (parse cl_args (JObject document))) ∧
    (Forall steps_are_objects (array_field document "vehicles") →
     is_input_error (parse cl_args (JObject document))).
Proof.
  split; [done|]. intros cl_args document Hmatrix.
  pose proof (parse_defined cl_args document) as Hdefined.
  apply (parse_empty_matrix_rejected cl_args) in Hmatrix.
  destruct (parse cl_args (JObject document)) as [input|e msg|];
    simpl in Hmatrix, Hdefined.
  - done.
  - subst e. split_and!; [done|by exists msg..].
  - split_and!; [done|done|]. intros Hsteps. by destruct (Hdefined Hsteps).
Qed.

(** ** The cost matrix (lines 466-490)

    The loops write the entries into a square matrix of zeros; what they
    leave is the matrix of the document, and the first line or entry that
    does not fit is the one reported. *)

Lemma alter_lookup {A} (f : A → A) (l : list A) i x :
  l !! i = Some x → alter f i l = <[i := f x]> l.
Proof.
  intros H. rewrite list_insert_alter. apply list_alter_ext; [|done].
  intros y Hy. congruence.
Qed.

Lemma uint_split cells :
  (∃ vals, cells = JInt <$> vals ∧ uint_list vals) ∨
  (∃ vals bad rest, cells = (JInt <$> vals) ++ bad :: rest ∧ uint_list vals ∧
     IsUint bad = false).
Proof.
  unfold uint_list.
  induction cells as [|c cells IH]; [left; by exists []|].
  destruct (IsUint c) eqn:Hc.
  - destruct c as [| |z| | | |]; try done. apply bool_decide_eq_true in Hc.
    destruct IH as [(vals & -> & Hvals)|(vals & bad & rest & -> & Hvals & Hbad)].
    + left. exists (z :: vals). split; [done|by constructor].
    + right. exists (z :: vals), bad, rest. split_and!; [done|by constructor|done].
  - right. by exists [], c, cells.
Qed.

Lemma load_line_ok i vals j (mi : list (list Z)) line :
  uint_list vals → mi !! i = Some line → length line = (j + length vals)%nat →
  for_index (λ (matrix_input : Matrix) j cell,
      when (Ok (negb (IsUint cell)))
        (throw INPUT (Ok ("Invalid matrix entry (" +:+ to_string_nat i +:+
                          "," +:+ to_string_nat j +:+ ")."))) ;;;
      let* cost := GetUint cell in
      Ok (alter (λ line, <[j := cost]> line) i matrix_input))
    j mi (JInt <$> vals) = Ok (<[i := take j line ++ vals]> mi).
Proof.
  intros Hvals. revert j mi line.
  induction Hvals as [|v vals Hv _ IH]; intros j mi line Hline Hlen; simpl.
  - rewrite app_nil_r, take_ge by (simpl in Hlen; lia).
    f_equal. symmetry. by apply list_insert_id.
  - rewrite bool_decide_eq_true_2 by done. simpl.
    rewrite (alter_lookup _ mi i line Hline).
    rewrite (IH (S j) _ (<[j := v]> line)).
    + rewrite list_insert_insert_eq. do 2 f_equal.
      rewrite (take_S_r _ _ v).
      * rewrite take_insert_ge by lia. by rewrite <- app_assoc.
      * apply list_lookup_insert_eq. simpl in Hlen. lia.
    + apply list_lookup_insert_eq. by eapply lookup_lt_Some.
    + rewrite length_insert. simpl in Hlen. lia.
Qed.

Lemma load_line_bad i vals bad rest j (mi : list (list Z)) :
  uint_list vals → IsUint bad = false →
  for_index (λ (matrix_input : Matrix) j cell,
      when (Ok (negb (IsUint cell)))
        (throw INPUT (Ok ("Invalid matrix entry (" +:+ to_string_nat i +:+
                          "," +:+ to_string_nat j +:+ ")."))) ;;;
      let* cost := GetUint cell in
      Ok (alter (λ line, <[j := cost]> line) i matrix_input))
    j mi ((JInt <$> vals) ++ bad :: rest)
  = Throw INPUT ("Invalid matrix entry (" +:+ to_string_nat i +:+ "," +:+
                 to_string_nat (j + length vals) +:+ ").").
Proof.
  intros Hvals Hbad. revert j mi.
  induction Hvals as [|v vals Hv _ IH]; intros j mi; simpl.
  - rewrite Hbad. simpl. by rewrite Nat.add_0_r.
  - rewrite bool_decide_eq_true_2 by done. simpl. rewrite IH.
    by replace (S j + length vals)%nat with (j + S (length vals))%nat by lia.
Qed.

(** The body of the loop over the lines (lines 475-489). *)
Local Abbreviation load_row :=
  (λ (matrix_size : nat) (matrix_input : Matrix) (i : nat) (row : Value),
     when (Ok (negb (IsArray row)) |or|
           lift (λ n, bool_decide (n ≠ matrix_size)) (Size row))
       (throw INPUT (Ok ("Invalid matrix line " +:+ to_string_nat i +:+ "."))) ;;;
     let* mi := elements_of row in
     for_index (λ (matrix_input : Matrix) j cell,
         when (Ok (negb (IsUint cell)))
           (throw INPUT (Ok ("Invalid matrix entry (" +:+ to_string_nat i +:+
                             "," +:+ to_string_nat j +:+ ")."))) ;;;
         let* cost := GetUint cell in
         Ok (alter (λ line, <[j := cost]> line) i matrix_input))
       0%nat matrix_input mi).

Lemma row_cases n row :
  (∃ line, row = row_value line ∧ length line = n ∧ uint_list line) ∨
  (∀ cells, row = JArray cells → length cells ≠ n) ∨
  (∃ vals c rest, row = JArray ((JInt <$> vals) ++ c :: rest) ∧
     (length vals + S (length rest))%nat = n ∧ uint_list vals ∧ IsUint c = false).
Proof.
  destruct row as [| | | | |cells|]; try by (right; left; intros ? [=]).
  destruct (decide (length cells = n)) as [Hn|Hn].
  - destruct (uint_split cells) as [(vals & -> & Hvals)|(vals & c & rest & -> & Hvals & Hc)].
    + left. exists vals. rewrite length_fmap in Hn. done.
    + right; right. exists vals, c, rest.
      rewrite length_app, length_fmap in Hn. simpl in Hn. done.
  - right; left. by intros cells' [= <-].
Qed.

Lemma load_row_ok n i (mi : list (list Z)) line0 line :
  mi !! i = Some line0 → length line0 = n → length line = n → uint_list line →
  load_row n mi i (row_value line) = Ok (<[i := line]> mi).
Proof.
  intros Hi Hline0 Hline Hvals.
  pose proof (load_line_ok i line 0 mi line0 Hvals Hi ltac:(lia)) as H.
  unfold row_value, when, or_else, lift, throw in *. simpl in *.
  rewrite length_fmap, bool_decide_eq_false_2 by lia. simpl. exact H.
Qed.

Lemma load_row_bad_line n i (mi : list (list Z)) row :
  (∀ cells, row = JArray cells → length cells ≠ n) →
  load_row n mi i row
  = Throw INPUT ("Invalid matrix line " +:+ to_string_nat i +:+ ".").
Proof.
  intros Hrow. unfold when, or_else, lift.
  destruct row as [| | | | |cells|]; try done. simpl.
  by rewrite bool_decide_eq_true_2 by (by apply Hrow).
Qed.

Lemma load_row_bad_entry n i (mi : list (list Z)) vals c rest :
  (length vals + S (length rest))%nat = n → uint_list vals → IsUint c = false →
  load_row n mi i (JArray ((JInt <$> vals) ++ c :: rest))
  = Throw INPUT ("Invalid matrix entry (" +:+ to_string_nat i +:+ "," +:+
                 to_string_nat (length vals) +:+ ").").
Proof.
  intros Hn Hvals Hc.
  pose proof (load_line_bad i vals c rest 0 mi Hvals Hc) as H.
  unfold when, or_else, lift, throw in *. simpl in *.
  rewrite length_app, length_fmap. simpl.
  rewrite bool_decide_eq_false_2 by lia. simpl. exact H.
Qed.

Lemma load_rows_ok n lines i (mi : list (list Z)) :
  Forall (λ line, length line = n ∧ uint_list line) lines →
  length mi = (i + length lines)%nat → Forall (λ line, length line = n) mi →
  for_index (load_row n) i mi (row_value <$> lines) = Ok (take i mi ++ lines).
Proof.
  intros Hlines. revert i mi.
  induction Hlines as [|line lines [Hline Hvals] _ IH]; intros i mi Hlen Hmi.
  - simpl. rewrite app_nil_r, take_ge by (simpl in Hlen; lia). done.
  - destruct (lookup_lt_is_Some_2 mi i) as [line0 Hi]; [simpl in Hlen; lia|].
    cbn [fmap list_fmap for_index].
    rewrite (load_row_ok n i mi line0 line); try done.
    2:{ by apply (proj1 (Forall_lookup _ _) Hmi i line0). }
    cbn [bind]. rewrite IH.
    + f_equal. rewrite (take_S_r _ _ line) by (by apply list_lookup_insert_eq;
        eapply lookup_lt_Some).
      rewrite take_insert_ge by lia. by rewrite <- app_assoc.
    + rewrite length_insert. simpl in Hlen. lia.
    + by apply Forall_insert.
Qed.

Lemma load_rows_bad n lines bad rest i (mi : list (list Z)) msg :
  Forall (λ line, length line = n ∧ uint_list line) lines →
  length mi = (i + length lines + S (length rest))%nat →
  Forall (λ line, length line = n) mi →
  (∀ mi' : list (list Z), load_row n mi' (i + length lines)%nat bad = Throw INPUT msg) →
  for_index (load_row n) i mi ((row_value <$> lines) ++ bad :: rest) = Throw INPUT msg.
Proof.
  intros Hlines. revert i mi.
  induction Hlines as [|line lines [Hline Hvals] _ IH]; intros i mi Hlen Hmi Hbad.
  - specialize (Hbad mi). cbn [length] in Hbad. rewrite Nat.add_0_r in Hbad.
    cbn [fmap list_fmap app for_index]. cbv beta in Hbad |- *. by rewrite Hbad.
  - destruct (lookup_lt_is_Some_2 mi i) as [line0 Hi]; [simpl in Hlen; lia|].
    cbn [fmap list_fmap app for_index].
    rewrite (load_row_ok n i mi line0 line); try done.
    2:{ by apply (proj1 (Forall_lookup _ _) Hmi i line0). }
    cbn [bind]. apply IH.
    + rewrite length_insert. simpl in Hlen. lia.
    + by apply Forall_insert.
    + intros mi'. specialize (Hbad mi'). cbn [length] in Hbad.
      by replace (S i + length lines)%nat with (i + S (length lines))%nat by lia.
Qed.

Lemma rows_split n rows :
  (∃ lines, rows = row_value <$> lines ∧
     Forall (λ line, length line = n ∧ uint_list line) lines) ∨
  (∃ lines bad rest, rows = (row_value <$> lines) ++ bad :: rest ∧
     Forall (λ line, length line = n ∧ uint_list line) lines ∧
     ((∀ cells, bad = JArray cells → length cells ≠ n) ∨
      (∃ vals c cells, bad = JArray ((JInt <$> vals) ++ c :: cells) ∧
         (length vals + S (length cells))%nat = n ∧ uint_list vals ∧
         IsUint c = false))).
Proof.
  induction rows as [|row rows IH]; [left; by exists []|].
  destruct (row_cases n row) as [(line & -> & Hline & Hvals)|Hbad].
  - destruct IH as [(lines & -> & Hlines)|(lines & bad & rest & -> & Hlines & Hbad)].
    + left. exists (line :: lines). split; [done|by constructor].
    + right. exists (line :: lines), bad, rest. split_and!; [done|by constructor|done].
  - right. by exists [], row, rows.
Qed.

Lemma load_matrix_rows rows :
  load_matrix (JArray rows)
  = for_index (load_row (length rows)) 0%nat
      (replicate (length rows) (replicate (length rows) 0)) rows.
Proof. done. Qed.

Lemma load_matrix_value v matrix :
  load_matrix v = Ok matrix → v = matrix_value matrix ∧ square matrix.
Proof.
  intros H. destruct (load_matrix_Ok_inv _ _ H) as [rows ->].
  rewrite load_matrix_rows in H.
  destruct (rows_split (length rows) rows)
    as [(lines & Hrows & Hlines)|(lines & bad & rest & Hrows & Hlines & Hbad)].
  - rewrite Hrows in H at 3.
    rewrite load_rows_ok in H; try done.
    + simpl in H. injection H as <-. split; [by rewrite Hrows|].
      unfold square. by rewrite Hrows, length_fmap in Hlines.
    + rewrite length_replicate, Hrows, !length_fmap. done.
    + apply Forall_replicate. apply length_replicate.
  - rewrite Hrows in H at 3.
    assert (∃ msg, ∀ mi' : list (list Z),
               load_row (length rows) mi' (0 + length lines)%nat bad = Throw INPUT msg)
      as [msg Hmsg].
    { destruct Hbad as [Hbad|(vals & c & cells & -> & Hn & Hvals & Hc)].
      - eexists. intros mi'. by apply load_row_bad_line.
      - eexists. intros mi'. by apply load_row_bad_entry. }
    rewrite (load_rows_bad _ lines bad rest 0 _ msg) in H; try done.
    + rewrite length_replicate, Hrows, length_app, !length_fmap. reflexivity.
    + apply Forall_replicate. apply length_replicate.
Qed.

(** X1: [load_matrix] succeeds exactly on the arrays that hold a square
    matrix of unsigned integers, and returns that matrix, entry for entry. *)
Theorem load_matrix_square (v : Value) (matrix : Matrix) :
  load_matrix v = Ok matrix ↔ v = matrix_value matrix ∧ square matrix.
Proof.
  split; [apply load_matrix_value|].
  intros [-> Hsquare]. unfold matrix_value. rewrite load_matrix_rows.
  rewrite length_fmap, load_rows_ok; try done.
  - by rewrite length_replicate.
  - apply Forall_replicate. apply length_replicate.
Qed.

(** X2: a matrix that is no array is rejected as such; otherwise the first
    line that is not an array of as many entries as the matrix has lines is
    reported by its index, and the first entry of such a line that is no
    unsigned integer is reported by the indices of its line and column. *)
Theorem load_matrix_reports_first_error (lines : Matrix) (bad : Value)
    (rest : list Value) (matrix_size : nat) :
  matrix_size = (length lines + S (length rest))%nat →
  Forall (λ line, length line = matrix_size ∧ uint_list line) lines →
  ((∀ cells, bad = JArray cells → length cells ≠ matrix_size) →
   load_matrix (JArray ((row_value <$> lines) ++ bad :: rest))
   = Throw INPUT ("Invalid matrix line " +:+ to_string_nat (length lines) +:+ ".")) ∧
  (∀ vals c cells,
     bad = JArray ((JInt <$> vals) ++ c :: cells) →
     (length vals + S (length cells))%nat = matrix_size →
     uint_list vals → IsUint c = false →
     load_matrix (JArray ((row_value <$> lines) ++ bad :: rest))
     = Throw INPUT ("Invalid matrix entry (" +:+ to_string_nat (length lines) +:+
                    "," +:+ to_string_nat (length vals) +:+ ").")) ∧
  (∀ v, IsArray v = false → load_matrix v = Throw INPUT "Invalid matrix.").
Proof.
  intros Hsize Hlines.
  assert (length ((row_value <$> lines) ++ bad :: rest) = matrix_size) as Hlen.
  { rewrite length_app, length_fmap, Hsize. reflexivity. }
  assert (length (replicate matrix_size (replicate matrix_size 0))
          = (0 + length lines + S (length rest))%nat) as Hinit.
  { rewrite length_replicate, Hsize. reflexivity. }
  split_and!.
  - intros Hbad. rewrite load_matrix_rows, Hlen.
    apply load_rows_bad; try done.
    + apply Forall_replicate. apply length_replicate.
    + intros mi'. by apply load_row_bad_line.
  - intros vals c cells -> Hn Hvals Hc. rewrite load_matrix_rows, Hlen.
    apply load_rows_bad; try done.
    + apply Forall_replicate. apply length_replicate.
    + intros mi'. by apply load_row_bad_entry.
  - intros v Hv. by destruct v.
Qed.

(** ** The members of an entity, one by one

    What each extractor makes of the member it reads, and what [parse]
    therefore stores for the entities of a document. *)

Lemma get_service_Ok_inv v x :
  get_service v = Ok x → ∃ m, v = JObject m ∧ uint_read (FindMember m "service") x.
Proof.
  unfold get_service. intros H. inv_bind H has Hhas.
  apply HasMember_Ok_inv in Hhas as (m & -> & ->). exists m. split; [done|].
  unfold uint_read. simpl in H.
  destruct (FindMember m "service") as [k|]; simpl in H; [|by injection H].
  inv_bind H u Hw. by apply GetUint_Ok_inv in H.
Qed.

Lemma get_string_read v key s :
  get_string v key = Ok s → ∃ m, v = JObject m ∧ string_read (FindMember m key) s.
Proof.
  unfold get_string. intros H. inv_bind H has Hhas.
  apply HasMember_Ok_inv in Hhas as (m & -> & ->). exists m. split; [done|].
  unfold string_read. simpl in H.
  destruct (FindMember m key) as [k|]; simpl in H; [|by injection H].
  inv_bind H u Hw. destruct k; try done. injection H as <-. by eexists.
Qed.

Lemma get_priority_Ok_inv v p :
  get_priority v = Ok p →
  ∃ m, v = JObject m ∧ uint_read (FindMember m "priority") p ∧
    (is_Some (FindMember m "priority") → p ≤ MAX_PRIORITY).
Proof.
  unfold get_priority. intros H. inv_bind H has Hhas.
  apply HasMember_Ok_inv in Hhas as (m & -> & ->). exists m. split; [done|].
  unfold uint_read. simpl in H.
  destruct (FindMember m "priority") as [k|]; simpl in H.
  - inv_bind H u Hw. inv_bind H x Hx. apply GetUint_Ok_inv in Hx as [-> Hx].
    inv_bind H u' Hw'. injection H as <-.
    destruct (bool_decide (x > MAX_PRIORITY)) eqn:Hp; [done|].
    apply bool_decide_eq_false in Hp. split; [done|]. intros _. lia.
  - injection H as <-. split; [done|]. by intros [? ?].
Qed.

Local Instance JInt_inj : Inj (=) (=) JInt.
Proof. by intros x y [= ->]. Qed.

Lemma get_skills_loop_ok l i (skills : Skills) :
  uint_list l →
  for_index (λ (skills : Skills) (_ : nat) x,
      when (Ok (negb (IsUint x))) (throw INPUT (Ok "Invalid skill value.")) ;;;
      let* u := GetUint x in
      Ok ({[ u ]} ∪ skills))
    i skills (JInt <$> l) = Ok (list_to_set l ∪ skills).
Proof.
  intros Hl. revert i skills.
  induction Hl as [|x l Hx _ IH]; intros i skills; simpl.
  - by rewrite (left_id_L ∅ (∪)).
  - rewrite bool_decide_eq_true_2 by done. simpl. rewrite IH. f_equal.
    by rewrite (assoc_L (∪)), (comm_L (∪) _ {[x]}).
Qed.

Lemma get_skills_loop_bad l bad rest i (skills : Skills) :
  uint_list l → IsUint bad = false →
  for_index (λ (skills : Skills) (_ : nat) x,
      when (Ok (negb (IsUint x))) (throw INPUT (Ok "Invalid skill value.")) ;;;
      let* u := GetUint x in
      Ok ({[ u ]} ∪ skills))
    i skills ((JInt <$> l) ++ bad :: rest) = Throw INPUT "Invalid skill value.".
Proof.
  intros Hl Hbad. revert i skills.
  induction Hl as [|x l Hx _ IH]; intros i skills; simpl.
  - by rewrite Hbad.
  - rewrite bool_decide_eq_true_2 by done. simpl. by rewrite IH.
Qed.

Lemma get_skills_array m elems :
  FindMember m "skills" = Some (JArray elems) →
  get_skills (JObject m) =
    for_index (λ (skills : Skills) (_ : nat) x,
        when (Ok (negb (IsUint x))) (throw INPUT (Ok "Invalid skill value.")) ;;;
        let* u := GetUint x in
        Ok ({[ u ]} ∪ skills))
      0%nat ∅ elems.
Proof. intros H. unfold get_skills. simpl. by rewrite H. Qed.

Lemma get_skills_read m skills :
  get_skills (JObject m) = Ok skills ↔ skills_read (FindMember m "skills") skills.
Proof.
  unfold skills_read.
  destruct (FindMember m "skills") as [k|] eqn:Hk.
  - destruct k as [| | | | |elems|];
      try (unfold get_skills; simpl; rewrite Hk; split; [done|by intros (l & ? & _)]).
    rewrite (get_skills_array m elems Hk).
    destruct (uint_split elems) as [(l & -> & Hl)|(l & bad & rest & -> & Hl & Hbad)].
    + rewrite get_skills_loop_ok by done. split.
      * intros [= <-]. exists l. split_and!; [done..|].
        by rewrite (right_id_L ∅ (∪)).
      * intros (l' & [= Hl'] & _ & ->). apply (inj (fmap JInt)) in Hl' as <-.
        by rewrite (right_id_L ∅ (∪)).
    + rewrite get_skills_loop_bad by done. split; [done|].
      intros (l' & [= Hl'] & Hu & _). exfalso.
      assert (bad ∈ JInt <$> l') as Hin.
      { rewrite <- Hl'. apply elem_of_app. right. by left. }
      apply list_elem_of_fmap in Hin as (y & -> & Hy).
      simpl in Hbad. apply bool_decide_eq_false in Hbad. apply Hbad.
      by apply (proj1 (Forall_forall _ _) Hu).
  - unfold get_skills. simpl. rewrite Hk. simpl. split; [by intros [= <-]|by intros ->].
Qed.

Lemma get_skills_Ok_inv v skills :
  get_skills v = Ok skills →
  ∃ m, v = JObject m ∧ skills_read (FindMember m "skills") skills.
Proof.
  intros H. assert (∃ m, v = JObject m) as [m ->].
  { unfold get_skills in H. inv_bind H has Hhas.
    apply HasMember_Ok_inv in Hhas as (m & -> & _). eauto. }
  exists m. split; [done|]. by apply get_skills_read.
Qed.

Lemma parse_coordinates_read m key c :
  parse_coordinates (JObject m) key = Ok c ↔
  ∃ k, FindMember m key = Some k ∧ coordinates_read k c.
Proof.
  unfold parse_coordinates, coordinates_read, when, or_else, not_, lift. simpl.
  destruct (FindMember m key) as [k|]; simpl; [|split; [done|by intros (? & ? & _)]].
  destruct k as [| | | | |[|a [|b rest]]|];
    try (split; [done|by intros (? & [= <-] & ? & ? & ? & ? & _)]).
  simpl. split.
  - intros H. exists (JArray (a :: b :: rest)). split; [done|]. exists a, b, rest.
    destruct (IsNumber a) eqn:Ha; [|done]. destruct (IsNumber b) eqn:Hb; [|done].
    simpl in H. destruct (GetDouble a) as [x| |]; [|done..].
    destruct (GetDouble b) as [y| |]; [|done..]. simpl in H. by injection H as <-.
  - intros (k & [= <-] & a' & b' & rest' & [= <- <- <-] & Ha & Hb).
    assert (IsNumber a = true) as -> by (by destruct a).
    assert (IsNumber b = true) as -> by (by destruct b).
    simpl. rewrite Ha, Hb. simpl. by destruct c.
Qed.

Lemma parse_coordinates_rejects m key k :
  FindMember m key = Some k → (∀ c, ¬ coordinates_read k c) →
  parse_coordinates (JObject m) key = Throw INPUT ("Invalid " +:+ key +:+ " array.").
Proof.
  intros Hk Hnone.
  unfold parse_coordinates, when, or_else, not_, lift. simpl. rewrite Hk. simpl.
  destruct k as [| | | | |[|a [|b rest]]|]; try done. simpl.
  destruct (IsNumber a) eqn:Ha; [|done]. destruct (IsNumber b) eqn:Hb; [|done].
  exfalso.
  assert (∃ x, GetDouble a = Ok x) as [x Hx] by (destruct a; try done; eauto).
  assert (∃ y, GetDouble b = Ok y) as [y Hy] by (destruct b; try done; eauto).
  apply (Hnone (x, y)). by exists a, b, rest.
Qed.

(** X3: [parse_coordinates] accepts exactly the arrays that start with two
    numbers, integers included, and returns these two; what follows them in
    the array is not read; any other value of the member is rejected with an
    INPUT error that names the key. *)
Theorem parse_coordinates_leading_numbers (m : list (string * Value))
    (key : string) :
  (∀ c, parse_coordinates (JObject m) key = Ok c ↔
        ∃ k, FindMember m key = Some k ∧ coordinates_read k c) ∧
  (∀ k, FindMember m key = Some k → (∀ c, ¬ coordinates_read k c) →
        parse_coordinates (JObject m) key
        = Throw INPUT ("Invalid " +:+ key +:+ " array.")).
Proof.
  split; [intros c; apply parse_coordinates_read|].
  intros k Hk Hnone. by apply (parse_coordinates_rejects m key k).
Qed.

(** X4: an absent [skills] member is the empty set and an array of unsigned
    integers is the set of its entries, so that neither the order of the
    entries nor a repeated entry matters; a member that is no array and an
    entry that is no unsigned integer are rejected with INPUT errors of their
    own. *)
Theorem skills_form_a_set (m : list (string * Value)) :
  (∀ skills, get_skills (JObject m) = Ok skills ↔
             skills_read (FindMember m "skills") skills) ∧
  (∀ skills, get_skills (JObject m) = Ok skills →
     ∀ x, x ∈ skills ↔ JInt x ∈ array_field m "skills") ∧
  (∀ m' l l',
     FindMember m "skills" = Some (JArray (JInt <$> l)) →
     FindMember m' "skills" = Some (JArray (JInt <$> l')) →
     (∀ x, x ∈ l ↔ x ∈ l') →
     get_skills (JObject m) = get_skills (JObject m')) ∧
  (∀ k, FindMember m "skills" = Some k → IsArray k = false →
     get_skills (JObject m) = Throw INPUT "Invalid skills object.") ∧
  (∀ elems, FindMember m "skills" = Some (JArray elems) →
     Exists (λ x, IsUint x = false) elems →
     get_skills (JObject m) = Throw INPUT "Invalid skill value.").
Proof.
  split_and!.
  - intros skills. apply get_skills_read.
  - intros skills H x. apply get_skills_read in H. unfold skills_read in H.
    unfold array_field. destruct (FindMember m "skills") as [k|].
    + destruct H as (l & -> & _ & ->). rewrite elem_of_list_to_set.
      rewrite list_elem_of_fmap. split; [by exists x|].
      by intros (y & [= ->] & Hy).
    + subst skills. split; [by intros ?%elem_of_empty|by intros ?%elem_of_nil].
  - intros m' l l' Hl Hl' Hsame.
    rewrite (get_skills_array m _ Hl), (get_skills_array m' _ Hl').
    destruct (decide (uint_list l)) as [Hu|Hu].
    + assert (uint_list l') as Hu'.
      { apply Forall_forall. intros x Hx.
        apply (proj1 (Forall_forall _ _) Hu). by apply Hsame. }
      rewrite !get_skills_loop_ok by done. f_equal.
      rewrite !(right_id_L ∅ (∪)). apply set_eq. intros x.
      rewrite !elem_of_list_to_set. apply Hsame.
    + assert (¬ uint_list l') as Hu'.
      { intros Hu'. apply Hu. apply Forall_forall. intros x Hx.
        apply (proj1 (Forall_forall _ _) Hu'). by apply Hsame. }
      destruct (uint_split (JInt <$> l))
        as [(vals & Hvals & Hr)|(vals & bad & rest & -> & Hr & Hbad)].
      { apply (inj (fmap JInt)) in Hvals as <-. done. }
      destruct (uint_split (JInt <$> l'))
        as [(vals' & Hvals' & Hr')|(vals' & bad' & rest' & -> & Hr' & Hbad')].
      { apply (inj (fmap JInt)) in Hvals' as <-. done. }
      by rewrite !get_skills_loop_bad.
  - intros k Hk Harray. unfold get_skills. simpl. rewrite Hk. simpl.
    by rewrite Harray.
  - intros elems Hk Hbad. rewrite (get_skills_array m elems Hk).
    destruct (uint_split elems) as [(l & -> & Hl)|(l & bad & rest & -> & Hl & Hb)].
    + exfalso. apply Exists_exists in Hbad as (x & Hx & Hbad).
      apply list_elem_of_fmap in Hx as (y & -> & Hy). simpl in Hbad.
      apply bool_decide_eq_false in Hbad. apply Hbad.
      by apply (proj1 (Forall_forall _ _) Hl).
    + by apply get_skills_loop_bad.
Qed.

(** What the builders of the entities have read, member by member. *)

Lemma parse_job_matrix_fields amount_size n j job :
  parse_job_matrix amount_size n j = Ok job →
  ∃ m x, j = JObject m ∧ valid_location_index n m x ∧
    matrix_location j x = Ok (job_location job) ∧
    get_service j = Ok (job_service job) ∧
    get_skills j = Ok (job_skills job) ∧
    get_priority j = Ok (job_priority job) ∧
    get_string j "description" = Ok (job_description job).
Proof.
  intros H. apply parse_job_matrix_Ok in H.
  inv_bind H u1 Hid. apply check_id_Ok_inv in Hid as (m & id & -> & Hid).
  inv_bind H u2 Hli.
  apply check_location_index_Ok_inv in Hli as (m' & x & [= <-] & Hx & Hx32).
  exists m, x. pose proof Hx as [Hxm Hxr].
  simpl in H. rewrite Hxm in H. simpl in H.
  rewrite bool_decide_eq_true_2 in H by lia. simpl in H.
  rewrite need_amount_compat_object, (get_id_has_id m id Hid) in H. simpl in H.
  inv_bind H loc Hloc. inv_bind H service Hservice. inv_bind H delivery Hdelivery.
  inv_bind H pickup Hpickup. inv_bind H skills Hskills.
  inv_bind H priority Hpriority. inv_bind H tws Htws.
  inv_bind H description Hdescription. injection H as <-. simpl.
  split_and!; done.
Qed.

Lemma parse_job_routing_fields amount_size j job :
  parse_job_routing amount_size j = Ok job →
  ∃ m c, j = JObject m ∧
    parse_coordinates j "location" = Ok c ∧ job_location job = Location_coords c ∧
    get_service j = Ok (job_service job) ∧
    get_skills j = Ok (job_skills job) ∧
    get_priority j = Ok (job_priority job) ∧
    get_string j "description" = Ok (job_description job).
Proof.
  intros H. apply parse_job_routing_Ok in H.
  inv_bind H u1 Hid. apply check_id_Ok_inv in Hid as (m & id & -> & Hid).
  inv_bind H u2 Hl. clear Hl.
  rewrite need_amount_compat_object, (get_id_has_id m id Hid) in H. simpl in H.
  inv_bind H c Hc. inv_bind H service Hservice. inv_bind H delivery Hdelivery.
  inv_bind H pickup Hpickup. inv_bind H skills Hskills.
  inv_bind H priority Hpriority. inv_bind H tws Htws.
  inv_bind H description Hdescription. injection H as <-. simpl.
  exists m, c. split_and!; done.
Qed.

Lemma parse_side_matrix_fields n side label type amount skills priority job :
  parse_side_matrix n side label type amount skills priority = Ok job →
  ∃ m x, side = JObject m ∧ valid_location_index n m x ∧
    matrix_location side x = Ok (job_location job) ∧
    get_service side = Ok (job_service job) ∧
    job_skills job = skills ∧ job_priority job = priority ∧
    get_string side "description" = Ok (job_description job).
Proof.
  intros H. apply parse_side_matrix_Ok in H.
  inv_bind H u1 Hid. apply check_id_Ok_inv in Hid as (m & id & -> & Hid).
  inv_bind H u2 Hli.
  apply check_location_index_Ok_inv in Hli as (m' & x & [= <-] & Hx & Hx32).
  exists m, x. pose proof Hx as [Hxm Hxr].
  simpl in H. rewrite Hxm in H. simpl in H.
  rewrite bool_decide_eq_true_2 in H by lia. simpl in H.
  rewrite (get_id_has_id m id Hid) in H. simpl in H.
  inv_bind H loc Hloc. inv_bind H service Hservice. inv_bind H tws Htws.
  inv_bind H description Hdescription. injection H as <-. simpl.
  split_and!; done.
Qed.

Lemma parse_side_routing_fields side label type amount skills priority job :
  parse_side_routing side label type amount skills priority = Ok job →
  ∃ m c, side = JObject m ∧
    parse_coordinates side "location" = Ok c ∧
    job_location job = Location_coords c ∧
    get_service side = Ok (job_service job) ∧
    job_skills job = skills ∧ job_priority job = priority ∧
    get_string side "description" = Ok (job_description job).
Proof.
  intros H. apply parse_side_routing_Ok in H.
  inv_bind H u1 Hid. apply check_id_Ok_inv in Hid as (m & id & -> & Hid).
  inv_bind H u2 Hl. clear Hl.
  rewrite (get_id_has_id m id Hid) in H. simpl in H.
  inv_bind H c Hc. inv_bind H service Hservice. inv_bind H tws Htws.
  inv_bind H description Hdescription. injection H as <-. simpl.
  exists m, c. split_and!; done.
Qed.

Lemma parse_shipment_fields amount_size side s pd :
  parse_shipment amount_size side s = Ok pd →
  ∃ m p d amount skills priority,
    s = JObject m ∧ FindMember m "pickup" = Some (JObject p) ∧
    FindMember m "delivery" = Some (JObject d) ∧
    get_skills s = Ok skills ∧ get_priority s = Ok priority ∧
    side (JObject p) "pickup" PICKUP amount skills priority = Ok pd.1 ∧
    side (JObject d) "delivery" DELIVERY amount skills priority = Ok pd.2.
Proof.
  unfold parse_shipment. intros H.
  inv_bind H u Hs. apply check_shipment_Ok_inv in Hs as (m & p & d & -> & Hp & Hd).
  inv_bind H amount Hamount. inv_bind H skills Hskills.
  inv_bind H priority Hpriority. simpl in H. rewrite Hp, Hd in H. simpl in H.
  inv_bind H pickup Hpickup. inv_bind H delivery Hdelivery. injection H as <-.
  by exists m, p, d, amount, skills, priority.
Qed.

Lemma get_vehicle_fields v amount_size veh :
  get_vehicle v amount_size = Ok veh →
  ∃ m, v = JObject m ∧ has_id m (vehicle_id veh) ∧
    get_skills v = Ok (vehicle_skills veh) ∧
    get_vehicle_time_window v = Ok (vehicle_tw veh) ∧
    get_vehicle_breaks v = Ok (vehicle_breaks veh) ∧
    get_string v "description" = Ok (vehicle_description veh) ∧
    get_vehicle_steps v = Ok (vehicle_steps veh).
Proof.
  intros H. apply get_vehicle_Ok in H.
  inv_bind H u1 Hid. apply check_id_Ok_inv in Hid as (m & id & -> & Hid).
  rewrite (get_id_has_id m id Hid) in H. cbn [bind] in H.
  inv_bind H start Hstart. inv_bind H end_ Hend.
  inv_bind H capacity Hcapacity. inv_bind H skills Hskills.
  inv_bind H tw Htw. inv_bind H breaks Hbreaks.
  inv_bind H description Hdescription. inv_bind H steps Hsteps.
  injection H as <-. by exists m.
Qed.

(** What holds of every job, shipment and vehicle that a builder returns
    holds of the entities of a successfully read document, in document
    order. *)
Lemma parsed_jobs (R : Value → Job → Prop) cl_args document input :
  (∀ size n j job, parse_job_matrix size n j = Ok job → R j job) →
  (∀ size j job, parse_job_routing size j = Ok job → R j job) →
  parse cl_args (JObject document) = Ok input →
  Forall2 R (array_field document "jobs") (input_jobs input).
Proof.
  intros Hmatrix Hrouting H.
  apply parse_Ok_inv in H
    as (m & v0 & vs & amount_size & vehicles & profiles & jobs & ships & w &
        [= <-] & _ & _ & _ & _ & _ & _ & Hmode).
  destruct (FindMember document "matrix") as [mv|].
  - destruct Hmode as (rows & matrix & -> & _ & Hjobs & _ & ->). simpl.
    eapply mapM_Ok_Forall2_impl; [|exact Hjobs]. intros j job. apply Hmatrix.
  - destruct Hmode as (Hjobs & _ & ->). simpl.
    eapply mapM_Ok_Forall2_impl; [|exact Hjobs]. intros j job. apply Hrouting.
Qed.

Lemma parsed_shipments (R : Value → Job * Job → Prop) cl_args document input :
  (∀ size n s pd, parse_shipment size (parse_side_matrix n) s = Ok pd → R s pd) →
  (∀ size s pd, parse_shipment size parse_side_routing s = Ok pd → R s pd) →
  parse cl_args (JObject document) = Ok input →
  Forall2 R (array_field document "shipments") (input_shipments input).
Proof.
  intros Hmatrix Hrouting H.
  apply parse_Ok_inv in H
    as (m & v0 & vs & amount_size & vehicles & profiles & jobs & ships & w &
        [= <-] & _ & _ & _ & _ & _ & _ & Hmode).
  destruct (FindMember document "matrix") as [mv|].
  - destruct Hmode as (rows & matrix & -> & _ & _ & Hships & ->). simpl.
    eapply mapM_Ok_Forall2_impl; [|exact Hships]. intros s pd. apply Hmatrix.
  - destruct Hmode as (_ & Hships & ->). simpl.
    eapply mapM_Ok_Forall2_impl; [|exact Hships]. intros s pd. apply Hrouting.
Qed.

Lemma parsed_vehicles (R : Value → Vehicle → Prop) cl_args document input :
  (∀ size v veh, get_vehicle v size = Ok veh → R v veh) →
  parse cl_args (JObject document) = Ok input →
  Forall2 R (array_field document "vehicles") (input_vehicles input).
Proof.
  intros Hvehicle H.
  apply parse_Ok_inv in H
    as (m & v0 & vs & amount_size & vehicles & profiles & jobs & ships & w &
        [= <-] & _ & Hv & _ & Hvehicles & _ & _ & Hmode).
  assert (input_vehicles input = vehicles) as ->.
  { destruct (FindMember document "matrix") as [mv|].
    - by destruct Hmode as (rows & matrix & _ & _ & _ & _ & ->).
    - by destruct Hmode as (_ & _ & ->). }
  unfold array_field. rewrite Hv.
  eapply mapM_Ok_Forall2_impl; [|exact Hvehicles]. intros v veh. apply Hvehicle.
Qed.

(** X5: an absent [priority] is 0; a priority above the largest one is
    rejected with the INPUT error of a priority that is no unsigned integer;
    so every job of a successfully read document has the priority of its
    object, the two jobs of a shipment have the priority of the shipment
    object, and a priority that was given is at most the largest one. *)
Theorem priority_within_bounds :
  (∀ m, FindMember m "priority" = None → get_priority (JObject m) = Ok 0) ∧
  (∀ m p, FindMember m "priority" = Some (JInt p) → 0 ≤ p < 2 ^ 32 →
     get_priority (JObject m) =
       if bool_decide (p ≤ MAX_PRIORITY) then Ok p
       else Throw INPUT "Invalid priority value.") ∧
  (∀ m k, FindMember m "priority" = Some k → IsUint k = false →
     get_priority (JObject m) = Throw INPUT "Invalid priority value.") ∧
  (∀ cl_args document input,
     parse cl_args (JObject document) = Ok input →
     Forall2 (λ j job, ∃ m, j = JObject m ∧
                uint_read (FindMember m "priority") (job_priority job) ∧
                (is_Some (FindMember m "priority") →
                 job_priority job ≤ MAX_PRIORITY))
       (array_field document "jobs") (input_jobs input) ∧
     Forall2 (λ s pd, ∃ m, s = JObject m ∧
                uint_read (FindMember m "priority") (job_priority pd.1) ∧
                job_priority pd.2 = job_priority pd.1 ∧
                (is_Some (FindMember m "priority") →
                 job_priority pd.1 ≤ MAX_PRIORITY))
       (array_field document "shipments") (input_shipments input)).
Proof.
  split_and!.
  - intros m H. unfold get_priority. simpl. by rewrite H.
  - intros m p H Hp. unfold get_priority. simpl. rewrite H. simpl.
    rewrite bool_decide_eq_true_2 by done. simpl.
    repeat case_bool_decide; try done; lia.
  - intros m k H Hk. unfold get_priority. simpl. rewrite H. simpl. by rewrite Hk.
  - intros cl_args document input H. split.
    + apply (parsed_jobs _ cl_args document input); [| |done].
      * intros size n j job Hj.
        apply parse_job_matrix_fields in Hj
          as (m & x & -> & _ & _ & _ & _ & Hp & _).
        apply get_priority_Ok_inv in Hp as (m' & [= <-] & Hp). by exists m.
      * intros size j job Hj.
        apply parse_job_routing_fields in Hj
          as (m & c & -> & _ & _ & _ & _ & Hp & _).
        apply get_priority_Ok_inv in Hp as (m' & [= <-] & Hp). by exists m.
    + apply (parsed_shipments _ cl_args document input); [| |done].
      * intros size n s pd Hs.
        apply parse_shipment_fields in Hs
          as (m & p & d & amount & skills & priority & -> & _ & _ & _ & Hp &
              Hpickup & Hdelivery).
        apply parse_side_matrix_fields in Hpickup
          as (mp & xp & _ & _ & _ & _ & _ & Hpp & _).
        apply parse_side_matrix_fields in Hdelivery
          as (md & xd & _ & _ & _ & _ & _ & Hpd & _).
        apply get_priority_Ok_inv in Hp as (m' & [= <-] & Hp).
        exists m. rewrite Hpd, Hpp. by destruct Hp.
      * intros size s pd Hs.
        apply parse_shipment_fields in Hs
          as (m & p & d & amount & skills & priority & -> & _ & _ & _ & Hp &
              Hpickup & Hdelivery).
        apply parse_side_routing_fields in Hpickup
          as (mp & cp & _ & _ & _ & _ & _ & Hpp & _).
        apply parse_side_routing_fields in Hdelivery
          as (md & cd & _ & _ & _ & _ & _ & Hpd & _).
        apply get_priority_Ok_inv in Hp as (m' & [= <-] & Hp).
        exists m. rewrite Hpd, Hpp. by destruct Hp.
Qed.

Lemma get_service_read m x :
  get_service (JObject m) = Ok x ↔ uint_read (FindMember m "service") x.
Proof.
  split.
  - intros H. by apply get_service_Ok_inv in H as (m' & [= <-] & H).
  - unfold uint_read, get_service. simpl. destruct (FindMember m "service") as [k|].
    + intros [-> Hx]. simpl. by rewrite bool_decide_eq_true_2.
    + by intros ->.
Qed.

Lemma get_string_string_read m key s :
  get_string (JObject m) key = Ok s ↔ string_read (FindMember m key) s.
Proof.
  split.
  - intros H. by apply get_string_read in H as (m' & [= <-] & H).
  - unfold string_read, get_string. simpl. destruct (FindMember m key) as [k|].
    + by intros (chars & -> & ->).
    + by intros ->.
Qed.

(** X6: an absent [service] is 0 and an absent string member is the empty
    string, and a string member is read up to its first NUL character; a
    [service] that is no unsigned integer and a string member that is no
    string are rejected with INPUT errors; the service and the description of
    every job, pickup and delivery, and the description of every vehicle, of
    a successfully read document are those of its object, read in this
    way. *)
Theorem service_and_description_read :
  (∀ m x, get_service (JObject m) = Ok x ↔ uint_read (FindMember m "service") x) ∧
  (∀ m k, FindMember m "service" = Some k → IsUint k = false →
     get_service (JObject m) = Throw INPUT "Invalid service value.") ∧
  (∀ m key s,
     get_string (JObject m) key = Ok s ↔ string_read (FindMember m key) s) ∧
  (∀ m key k, FindMember m key = Some k → IsString k = false →
     get_string (JObject m) key = Throw INPUT ("Invalid " +:+ key +:+ " value.")) ∧
  (∀ cl_args document input,
     parse cl_args (JObject document) = Ok input →
     Forall2 (λ j job, ∃ m, j = JObject m ∧
                uint_read (FindMember m "service") (job_service job) ∧
                string_read (FindMember m "description") (job_description job))
       (array_field document "jobs") (input_jobs input) ∧
     Forall2 (λ s pd, ∃ m p d, s = JObject m ∧
                FindMember m "pickup" = Some (JObject p) ∧
                FindMember m "delivery" = Some (JObject d) ∧
                uint_read (FindMember p "service") (job_service pd.1) ∧
                string_read (FindMember p "description") (job_description pd.1) ∧
                uint_read (FindMember d "service") (job_service pd.2) ∧
                string_read (FindMember d "description") (job_description pd.2))
       (array_field document "shipments") (input_shipments input) ∧
     Forall2 (λ v veh, ∃ m, v = JObject m ∧
                string_read (FindMember m "description") (vehicle_description veh))
       (array_field document "vehicles") (input_vehicles input)).
Proof.
  split_and!.
  - apply get_service_read.
  - intros m k H Hk. unfold get_service. simpl. rewrite H. simpl. by rewrite Hk.
  - apply get_string_string_read.
  - intros m key k H Hk. unfold get_string. simpl. rewrite H. simpl. by rewrite Hk.
  - intros cl_args document input H. split_and!.
    + apply (parsed_jobs _ cl_args document input); [| |done].
      * intros size n j job Hj.
        apply parse_job_matrix_fields in Hj
          as (m & x & -> & _ & _ & Hs & _ & _ & Hd).
        exists m. by rewrite <- get_service_read, <- get_string_string_read.
      * intros size j job Hj.
        apply parse_job_routing_fields in Hj
          as (m & c & -> & _ & _ & Hs & _ & _ & Hd).
        exists m. by rewrite <- get_service_read, <- get_string_string_read.
    + apply (parsed_shipments _ cl_args document input); [| |done].
      * intros size n s pd Hs.
        apply parse_shipment_fields in Hs
          as (m & p & d & amount & skills & priority & -> & Hp & Hd & _ & _ &
              Hpickup & Hdelivery).
        apply parse_side_matrix_fields in Hpickup
          as (mp & xp & [= <-] & _ & _ & Hsp & _ & _ & Hdp).
        apply parse_side_matrix_fields in Hdelivery
          as (md & xd & [= <-] & _ & _ & Hsd & _ & _ & Hdd).
        exists m, p, d.
        by rewrite <- !get_service_read, <- !get_string_string_read.
      * intros size s pd Hs.
        apply parse_shipment_fields in Hs
          as (m & p & d & amount & skills & priority & -> & Hp & Hd & _ & _ &
              Hpickup & Hdelivery).
        apply parse_side_routing_fields in Hpickup
          as (mp & cp & [= <-] & _ & _ & Hsp & _ & _ & Hdp).
        apply parse_side_routing_fields in Hdelivery
          as (md & cd & [= <-] & _ & _ & Hsd & _ & _ & Hdd).
        exists m, p, d.
        by rewrite <- !get_service_read, <- !get_string_string_read.
    + apply (parsed_vehicles _ cl_args document input); [|done].
      intros size v veh Hv.
      apply get_vehicle_fields in Hv as (m & -> & _ & _ & _ & _ & Hd & _).
      exists m. by rewrite <- get_string_string_read.
Qed.

(** ** Where the entities are *)

Lemma matrix_location_read n m x loc :
  valid_location_index n m x →
  matrix_location (JObject m) x = Ok loc → location_read true m loc.
Proof.
  intros [Hx _] H. unfold matrix_location in H. simpl in H. unfold location_read.
  destruct (FindMember m "location") as [k|] eqn:Hk; simpl in H.
  - inv_bind H c Hc. injection H as <-. simpl.
    apply parse_coordinates_read in Hc as (k' & Hk' & Hc).
    rewrite Hk in Hk'. injection Hk' as <-. split; [by exists x|by exists c].
  - injection H as <-. simpl. split; [by exists x|done].
Qed.

Lemma routing_location_read m c :
  parse_coordinates (JObject m) "location" = Ok c →
  location_read false m (Location_coords c).
Proof.
  intros Hc. apply parse_coordinates_read in Hc as (k & Hk & Hc).
  unfold location_read. rewrite Hk. split; [done|by exists c].
Qed.

(** X7: with a matrix, the location of every job, pickup and delivery of a
    successfully read document holds the [location_index] of its object, and
    the coordinates of its [location] member when there is one; without
    matrix it holds these coordinates and no index.  The coordinates are
    optional with a matrix, but a job whose [location] member is present and
    is no array starting with two numbers is rejected with an INPUT error:
    with "Invalid location array." when the job would be read without that
    member, and possibly with the error of another of its members
    otherwise. *)
Theorem locations_read :
  (∀ cl_args document input,
     parse cl_args (JObject document) = Ok input →
     Forall2 (λ j job, ∃ m, j = JObject m ∧
                location_read (bool_decide (is_Some (FindMember document "matrix")))
                  m (job_location job))
       (array_field document "jobs") (input_jobs input) ∧
     Forall2 (λ s pd, ∃ m p d, s = JObject m ∧
                FindMember m "pickup" = Some (JObject p) ∧
                FindMember m "delivery" = Some (JObject d) ∧
                location_read (bool_decide (is_Some (FindMember document "matrix")))
                  p (job_location pd.1) ∧
                location_read (bool_decide (is_Some (FindMember document "matrix")))
                  d (job_location pd.2))
       (array_field document "shipments") (input_shipments input)) ∧
  (∀ amount_size matrix_size m id k,
     has_id m id →
     check_location_index (JObject m) "job" matrix_size = Ok tt →
     FindMember m "location" = Some k → (∀ c, ¬ coordinates_read k c) →
     is_input_error (parse_job_matrix amount_size matrix_size (JObject m)) ∧
     ∀ m' job,
       FindMember m' "location" = None →
       (∀ key, key ≠ "location" → FindMember m' key = FindMember m key) →
       parse_job_matrix amount_size matrix_size (JObject m') = Ok job →
       parse_job_matrix amount_size matrix_size (JObject m)
       = Throw INPUT "Invalid location array.").
Proof.
  split.
  - intros cl_args document input H.
    pose proof H as Hinv.
    apply parse_Ok_inv in Hinv
      as (m & v0 & vs & amount_size & vehicles & profiles & jobs & ships & w &
          [= <-] & _ & _ & _ & _ & _ & _ & Hmode).
    destruct (FindMember document "matrix") as [mv|] eqn:Hmv.
    + destruct Hmode as (rows & matrix & -> & _ & Hjobs & Hships & ->). simpl.
      split.
      * eapply mapM_Ok_Forall2_impl; [|exact Hjobs]. intros j job Hj.
        apply parse_job_matrix_fields in Hj as (mj & x & -> & Hx & Hloc & _).
        exists mj. split; [done|]. by eapply matrix_location_read.
      * eapply mapM_Ok_Forall2_impl; [|exact Hships]. intros s pd Hs.
        apply parse_shipment_fields in Hs
          as (ms & p & d & amount & skills & priority & -> & Hp & Hd & _ & _ &
              Hpickup & Hdelivery).
        apply parse_side_matrix_fields in Hpickup
          as (mp & xp & [= <-] & Hxp & Hlp & _).
        apply parse_side_matrix_fields in Hdelivery
          as (md & xd & [= <-] & Hxd & Hld & _).
        exists ms, p, d. split_and!; [done..| |]; by eapply matrix_location_read.
    + destruct Hmode as (Hjobs & Hships & ->). simpl. split.
      * eapply mapM_Ok_Forall2_impl; [|exact Hjobs]. intros j job Hj.
        apply parse_job_routing_fields in Hj as (mj & c & -> & Hc & -> & _).
        exists mj. split; [done|]. by apply routing_location_read.
      * eapply mapM_Ok_Forall2_impl; [|exact Hships]. intros s pd Hs.
        apply parse_shipment_fields in Hs
          as (ms & p & d & amount & skills & priority & -> & Hp & Hd & _ & _ &
              Hpickup & Hdelivery).
        apply parse_side_routing_fields in Hpickup
          as (mp & cp & [= <-] & Hcp & -> & _).
        apply parse_side_routing_fields in Hdelivery
          as (md & cd & [= <-] & Hcd & -> & _).
        exists ms, p, d. split_and!; [done..| |]; by apply routing_location_read.
  - intros amount_size matrix_size m id k Hid Hli Hk Hnone.
    pose proof Hli as Hli'.
    apply check_location_index_Ok_inv in Hli' as (m0 & x & [= <-] & [Hxm Hxr] & Hx32).
    assert (matrix_location (JObject m) x = Throw INPUT "Invalid location array.")
      as Hloc.
    { unfold matrix_location. simpl. rewrite Hk. simpl.
      by rewrite (parse_coordinates_rejects m "location" k Hk Hnone). }
    assert (parse_job_matrix amount_size matrix_size (JObject m) =
            call 510
              (Fn Job_single <@> Ok id <@> Throw INPUT "Invalid location array." <@>
               get_service (JObject m) <@>
               (if amount_only m then get_amount (JObject m) "amount" amount_size
                else get_amount (JObject m) "delivery" amount_size) <@>
               get_amount (JObject m) "pickup" amount_size <@>
               get_skills (JObject m) <@> get_priority (JObject m) <@>
               get_job_time_windows (JObject m) <@>
               get_string (JObject m) "description")) as Hcall.
    { unfold parse_job_matrix.
      rewrite (check_id_has_id m id _ Hid), Hli. cbn [bind].
      simpl. rewrite Hxm. simpl. rewrite bool_decide_eq_true_2 by lia. simpl.
      rewrite need_amount_compat_object, (get_id_has_id m id Hid). cbn [bind].
      by rewrite Hloc. }
    split.
    + pose proof (input_only_parse_job_matrix amount_size matrix_size (JObject m))
        as Hinput.
      pose proof (defined_parse_job_matrix amount_size matrix_size (JObject m))
        as Hdefined.
      rewrite Hcall in Hinput, Hdefined |- *.
      match goal with |- is_input_error ?r =>
        destruct r as [job|[] msg|] eqn:E; try done; [|by exists msg]
      end.
      by apply call_Ok in E.
    + intros m' job Hnone' Hsame H. rewrite Hcall.
      apply parse_job_matrix_Ok in H.
      inv_bind H u1 Hid'. inv_bind H u2 Hli''. inv_bind H k' Hk'.
      inv_bind H x' Hx'. rewrite need_amount_compat_object in H. cbn [bind] in H.
      inv_bind H id' Hid''. inv_bind H loc Hloc'. inv_bind H service Hservice.
      inv_bind H delivery Hdelivery. inv_bind H pickup Hpickup.
      inv_bind H skills Hskills. inv_bind H priority Hpriority.
      inv_bind H tws Htws. inv_bind H description Hdescription.
      assert (amount_only m = amount_only m') as ->.
      { unfold amount_only. by rewrite !Hsame. }
      rewrite (get_service_agree m m'), (get_amount_agree m m' "amount"),
        (get_amount_agree m m' "delivery"), (get_amount_agree m m' "pickup"),
        (get_skills_agree m m'), (get_priority_agree m m'),
        (get_job_time_windows_agree m m'), (get_string_agree m m' "description")
        by (by rewrite Hsame).
      by rewrite Hservice, Hdelivery, Hpickup, Hskills, Hpriority, Htws, Hdescription.
Qed.

Lemma get_vehicle_location_read m v_id coords index what o :
  get_vehicle_location (JObject m) v_id coords index what = Ok o ↔
  vehicle_location_read m coords index o.
Proof.
  pose proof (parse_coordinates_read m coords) as Hpc.
  unfold get_vehicle_location, vehicle_location_read, and_then, not_, lift. simpl.
  destruct (FindMember m index) as [k|]; simpl.
  - destruct (IsUint k) eqn:Hk; simpl.
    2:{ destruct (FindMember m coords); (split; [done|]).
        - intros (i & c & -> & Hi & _). simpl in Hk.
          by rewrite bool_decide_eq_true_2 in Hk.
        - intros (i & -> & Hi & _). simpl in Hk.
          by rewrite bool_decide_eq_true_2 in Hk. }
    destruct k as [| |i| | | |]; try done. simpl in Hk |- *. rewrite Hk. simpl.
    apply bool_decide_eq_true in Hk.
    destruct (FindMember m coords) as [kc|]; simpl.
    + split.
      * intros H. inv_bind H c Hc. injection H as <-.
        apply Hpc in Hc as (k' & [= <-] & Hc). by exists i, c.
      * intros (i' & c & [= <-] & _ & Hc & ->).
        assert (parse_coordinates (JObject m) coords = Ok c) as ->; [|done].
        apply Hpc. by exists kc.
    + split; [intros [= <-]; by exists i|by intros (i' & [= <-] & _ & ->)].
  - destruct (FindMember m coords) as [kc|]; simpl.
    + split.
      * intros H. inv_bind H c Hc. injection H as <-.
        apply Hpc in Hc as (k' & [= <-] & Hc). by exists c.
      * intros (c & Hc & ->).
        assert (parse_coordinates (JObject m) coords = Ok c) as ->; [|done].
        apply Hpc. by exists kc.
    + split; [by intros [= <-]|by intros ->].
Qed.

Lemma get_vehicle_location_rejects_index m v_id coords index what k :
  FindMember m index = Some k → IsUint k = false →
  get_vehicle_location (JObject m) v_id coords index what
  = Throw INPUT (what +:+ to_string v_id +:+ ".").
Proof.
  intros Hk Huint. unfold get_vehicle_location, and_then, not_, lift. simpl.
  rewrite Hk. simpl. by rewrite Huint.
Qed.

(** X8: the start and the end of a vehicle hold the index of [start_index]
    or [end_index] and the coordinates of [start] or [end], as these members
    are present, and a vehicle with none of them has no start or no end; an
    index that is no unsigned integer is rejected with an INPUT error naming
    the vehicle, the message for [end_index] lacking the blank before the
    id. *)
Theorem vehicle_ends_read :
  (∀ v amount_size veh,
     get_vehicle v amount_size = Ok veh →
     ∃ m, v = JObject m ∧
       vehicle_location_read m "start" "start_index" (vehicle_start veh) ∧
       vehicle_location_read m "end" "end_index" (vehicle_end veh)) ∧
  (∀ m id amount_size k,
     has_id m id → FindMember m "start_index" = Some k → IsUint k = false →
     get_vehicle (JObject m) amount_size
     = Throw INPUT ("Invalid start_index for vehicle " +:+ to_string id +:+ ".")) ∧
  (∀ m id amount_size start k,
     has_id m id → vehicle_location_read m "start" "start_index" start →
     FindMember m "end_index" = Some k → IsUint k = false →
     get_vehicle (JObject m) amount_size
     = Throw INPUT ("Invalid end_index for vehicle" +:+ to_string id +:+ ".")) ∧
  (∀ cl_args document input,
     parse cl_args (JObject document) = Ok input →
     Forall2 (λ v veh, ∃ m, v = JObject m ∧
                vehicle_location_read m "start" "start_index" (vehicle_start veh) ∧
                vehicle_location_read m "end" "end_index" (vehicle_end veh))
       (array_field document "vehicles") (input_vehicles input)).
Proof.
  assert (∀ v amount_size veh,
            get_vehicle v amount_size = Ok veh →
            ∃ m, v = JObject m ∧
              vehicle_location_read m "start" "start_index" (vehicle_start veh) ∧
              vehicle_location_read m "end" "end_index" (vehicle_end veh)) as Hread.
  { intros v amount_size veh H.
    apply get_vehicle_Ok_inv in H as (m & -> & _ & Hstart & Hend & _).
    exists m. by rewrite <- !get_vehicle_location_read. }
  split_and!.
  - exact Hread.
  - intros m id amount_size k Hid Hk Huint. unfold get_vehicle.
    rewrite (check_id_has_id m id _ Hid), (get_id_has_id m id Hid). cbn [bind].
    by rewrite (get_vehicle_location_rejects_index m id _ _ _ k Hk Huint).
  - intros m id amount_size start k Hid Hstart Hk Huint. unfold get_vehicle.
    rewrite (check_id_has_id m id _ Hid), (get_id_has_id m id Hid). cbn [bind].
    rewrite (proj2 (get_vehicle_location_read m id "start" "start_index" _ start)
               Hstart).
    cbn [bind].
    by rewrite (get_vehicle_location_rejects_index m id _ _ _ k Hk Huint).
  - intros cl_args document input H.
    apply (parsed_vehicles _ cl_args document input); [|done].
    intros size v veh. apply Hread.
Qed.

(** ** Time windows of jobs and vehicles *)

Lemma get_time_window_read v tw :
  get_time_window v = Ok tw ↔ time_window_read v tw.
Proof.
  unfold get_time_window, time_window_read, when, or_else, not_, lift.
  destruct v as [| | | | |[|a [|b rest]]|]; simpl;
    try (split; [done|by intros (? & [=] & _)]).
  destruct a as [| |x| | | |]; simpl; try (split; [done|by intros (? & [=] & _)]).
  destruct (bool_decide (0 ≤ x < 2 ^ 32)) eqn:Hx; simpl.
  2:{ split; [done|]. intros (? & [= -> _ _] & Hs & _).
      by rewrite bool_decide_eq_true_2 in Hx. }
  destruct b as [| |y| | | |]; simpl; try (split; [done|by intros (? & [=] & _)]).
  destruct (bool_decide (0 ≤ y < 2 ^ 32)) eqn:Hy; simpl.
  2:{ split; [done|]. intros (? & [= _ -> _] & _ & He).
      by rewrite bool_decide_eq_true_2 in Hy. }
  apply bool_decide_eq_true in Hx, Hy. split.
  - intros [= <-]. by exists rest.
  - intros (rest' & [= -> -> _] & _). by destruct tw.
Qed.

Lemma get_time_window_total v :
  (∃ tw, get_time_window v = Ok tw) ∨
  get_time_window v = Throw INPUT "Invalid time-window.".
Proof.
  unfold get_time_window, when, or_else, not_, lift.
  destruct v as [| | | | |[|a [|b rest]]|]; simpl; try by right.
  destruct a as [| |x| | | |]; simpl; try by right.
  destruct (bool_decide (0 ≤ x < 2 ^ 32)); simpl; [|by right].
  destruct b as [| |y| | | |]; simpl; try by right.
  destruct (bool_decide (0 ≤ y < 2 ^ 32)); simpl; [|by right].
  left. eauto.
Qed.

Lemma get_time_window_rejects v :
  (∀ tw, ¬ time_window_read v tw) →
  get_time_window v = Throw INPUT "Invalid time-window.".
Proof.
  intros Hnone. destruct (get_time_window_total v) as [[tw Htw]|H]; [|done].
  by apply get_time_window_read, Hnone in Htw.
Qed.

Lemma get_time_windows_reject elems :
  Exists (λ v, ∀ tw, ¬ time_window_read v tw) elems →
  mapM get_time_window elems = Throw INPUT "Invalid time-window.".
Proof.
  induction elems as [|x elems IH]; intros Hbad; [by apply Exists_nil in Hbad|].
  simpl. destruct (get_time_window_total x) as [[tw Htw]|Hx].
  - rewrite Htw. simpl. apply Exists_cons in Hbad as [Hbad|Hbad].
    + by apply get_time_window_read, Hbad in Htw.
    + by rewrite IH.
  - by rewrite Hx.
Qed.

Lemma windows_sorted_read elems raw :
  elems ≠ [] → mapM get_time_window elems = Ok raw →
  windows_read (JArray elems) (sort_by tw_lt raw).
Proof.
  intros Hne Hraw. exists elems, raw. split_and!; [done..| | |].
  - apply mapM_Ok_Forall2 in Hraw. eapply Forall2_impl; [exact Hraw|].
    intros v tw. apply get_time_window_read.
  - apply sort_by_perm.
  - apply sort_by_tw_sorted.
Qed.

Lemma get_job_time_windows_read j tws :
  get_job_time_windows j = Ok tws →
  ∃ m, j = JObject m ∧ job_windows_read (FindMember m "time_windows") tws.
Proof.
  intros H. apply get_job_time_windows_Ok_inv in H as (m & -> & H).
  exists m. split; [done|]. unfold job_windows_read.
  destruct (FindMember m "time_windows") as [k|]; [|done].
  destruct H as (x & elems & raw & -> & Hraw & ->).
  by apply windows_sorted_read.
Qed.

Lemma windows_read_nonempty k tws : windows_read k tws → tws ≠ [].
Proof.
  intros (elems & raw & _ & Hne & Hraw & Hperm & _) ->.
  apply Permutation_nil_l in Hperm. subst raw.
  apply Forall2_nil_inv_r in Hraw. done.
Qed.

Lemma job_windows_read_nonempty field tws : job_windows_read field tws → tws ≠ [].
Proof.
  unfold job_windows_read. destruct field as [k|]; [apply windows_read_nonempty|].
  by intros ->.
Qed.

Lemma get_vehicle_time_window_read m tw :
  get_vehicle_time_window (JObject m) = Ok tw →
  match FindMember m "time_window" with
  | None => tw = TimeWindow_default
  | Some k => time_window_read k tw
  end.
Proof.
  unfold get_vehicle_time_window. simpl.
  destruct (FindMember m "time_window") as [k|]; simpl.
  - apply get_time_window_read.
  - by intros [= <-].
Qed.

(** X9: a time window is read from any array that starts with two unsigned
    integers, whatever follows them, and anything else is rejected; a
    [time_windows] member of a job that is no array or is empty is rejected
    with an INPUT error naming the job; every job, pickup and delivery of a
    successfully read document has at least one window, read from its
    object and in ascending order, and every vehicle has the window of its
    [time_window] member, or the default one. *)
Theorem time_windows_read :
  (∀ v tw, get_time_window v = Ok tw ↔ time_window_read v tw) ∧
  (∀ v, (∀ tw, ¬ time_window_read v tw) →
     get_time_window v = Throw INPUT "Invalid time-window.") ∧
  (∀ m id k, has_id m id → FindMember m "time_windows" = Some k →
     (∀ x l, k ≠ JArray (x :: l)) →
     get_job_time_windows (JObject m) =
       Throw INPUT ("Invalid time_windows array for job " +:+ to_string id +:+ ".")) ∧
  (∀ m elems, FindMember m "time_windows" = Some (JArray elems) →
     Exists (λ v, ∀ tw, ¬ time_window_read v tw) elems →
     get_job_time_windows (JObject m) = Throw INPUT "Invalid time-window.") ∧
  (∀ cl_args document input,
     parse cl_args (JObject document) = Ok input →
     Forall2 (λ j job, ∃ m, j = JObject m ∧
                job_windows_read (FindMember m "time_windows") (job_tws job) ∧
                job_tws job ≠ [])
       (array_field document "jobs") (input_jobs input) ∧
     Forall2 (λ s pd, ∃ m p d, s = JObject m ∧
                FindMember m "pickup" = Some (JObject p) ∧
                FindMember m "delivery" = Some (JObject d) ∧
                job_windows_read (FindMember p "time_windows") (job_tws pd.1) ∧
                job_windows_read (FindMember d "time_windows") (job_tws pd.2) ∧
                job_tws pd.1 ≠ [] ∧ job_tws pd.2 ≠ [])
       (array_field document "shipments") (input_shipments input) ∧
     Forall2 (λ v veh, ∃ m, v = JObject m ∧
                match FindMember m "time_window" with
                | None => vehicle_tw veh = TimeWindow_default
                | Some k => time_window_read k (vehicle_tw veh)
                end)
       (array_field document "vehicles") (input_vehicles input)).
Proof.
  split_and!.
  - apply get_time_window_read.
  - apply get_time_window_rejects.
  - intros m id k Hid Hk Hbad. unfold get_job_time_windows, when, throw.
    rewrite (id_string_has_id m id Hid). unfold or_else. simpl. rewrite Hk. simpl.
    destruct k as [| | | | |[|x l]|]; try done. by destruct (Hbad x l).
  - intros m elems Hk Hbad. unfold get_job_time_windows, when, or_else. simpl.
    rewrite Hk. simpl. destruct elems as [|x l]; [by apply Exists_nil in Hbad|].
    simpl bool_decide. cbn iota. cbn [bind elements_of].
    by rewrite (get_time_windows_reject (x :: l) Hbad).
  - intros cl_args document input H. split_and!.
    + apply (parsed_jobs _ cl_args document input); [| |done].
      * intros size n j job Hj.
        apply parse_job_matrix_Ok_inv in Hj
          as (m & id & x & -> & _ & _ & _ & _ & Htws & _).
        apply get_job_time_windows_read in Htws as (m' & [= <-] & Htws).
        exists m. split_and!; [done..|]. by eapply job_windows_read_nonempty.
      * intros size j job Hj.
        apply parse_job_routing_Ok_inv in Hj
          as (m & id & c & -> & _ & _ & _ & _ & Htws & _).
        apply get_job_time_windows_read in Htws as (m' & [= <-] & Htws).
        exists m. split_and!; [done..|]. by eapply job_windows_read_nonempty.
    + apply (parsed_shipments _ cl_args document input); [| |done].
      * intros size n s pd Hs.
        apply parse_shipment_Ok_inv in Hs
          as (m & p & d & amount & skills & priority & -> & Hp & Hd & _ &
              Hpickup & Hdelivery).
        apply parse_side_matrix_Ok_inv in Hpickup
          as (mp & idp & xp & [= <-] & _ & _ & Htp & _).
        apply parse_side_matrix_Ok_inv in Hdelivery
          as (md & idd & xd & [= <-] & _ & _ & Htd & _).
        apply get_job_time_windows_read in Htp as (m' & [= <-] & Htp).
        apply get_job_time_windows_read in Htd as (m' & [= <-] & Htd).
        exists m, p, d. split_and!; [done..| |]; by eapply job_windows_read_nonempty.
      * intros size s pd Hs.
        apply parse_shipment_Ok_inv in Hs
          as (m & p & d & amount & skills & priority & -> & Hp & Hd & _ &
              Hpickup & Hdelivery).
        apply parse_side_routing_Ok_inv in Hpickup
          as (mp & idp & xp & [= <-] & _ & _ & Htp & _).
        apply parse_side_routing_Ok_inv in Hdelivery
          as (md & idd & xd & [= <-] & _ & _ & Htd & _).
        apply get_job_time_windows_read in Htp as (m' & [= <-] & Htp).
        apply get_job_time_windows_read in Htd as (m' & [= <-] & Htd).
        exists m, p, d. split_and!; [done..| |]; by eapply job_windows_read_nonempty.
    + apply (parsed_vehicles _ cl_args document input); [|done].
      intros size v veh Hv.
      apply get_vehicle_fields in Hv as (m & -> & _ & _ & Htw & _).
      exists m. split; [done|]. by apply get_vehicle_time_window_read.
Qed.

(** ** Breaks of a vehicle (lines 204-253) *)

Local Instance not_break_lt_total : Total (λ a b, ¬ break_lt b a).
Proof. intros a b. unfold break_lt, tw_lt. lia. Qed.

Local Instance not_break_lt_trans : Transitive (λ a b, ¬ break_lt b a).
Proof. intros a b c. unfold break_lt, tw_lt. lia. Qed.

Lemma StronglySorted_weaken_elem {A} (R1 R2 : relation A) l :
  (∀ a b, a ∈ l → b ∈ l → R1 a b → R2 a b) →
  StronglySorted R1 l → StronglySorted R2 l.
Proof.
  intros HR Hl. induction Hl as [|x l _ IH Hx]; constructor.
  - apply IH. intros a b Ha Hb. apply HR; by right.
  - apply Forall_forall. intros y Hy. apply HR; [by left|by right|].
    by apply (proj1 (Forall_forall _ _) Hx).
Qed.

Lemma get_break_read b br : get_break b = Ok br → break_read b br.
Proof.
  intros H. apply get_break_Ok in H.
  inv_bind H u Hid. apply check_id_Ok_inv in Hid as (m & id & -> & Hid).
  rewrite (get_id_has_id m id Hid) in H. cbn [bind] in H.
  inv_bind H tws Htws. inv_bind H service Hservice.
  inv_bind H description Hdescription. injection H as <-.
  apply get_break_time_windows_Ok_inv in Htws
    as (m' & x & elems & raw & [= <-] & Hk & Hraw & ->).
  exists m, (JArray (x :: elems)). simpl. split_and!; [done..| | |].
  - by apply windows_sorted_read.
  - by apply get_service_read.
  - by apply get_string_string_read.
Qed.

Lemma get_vehicle_breaks_Ok_inv v breaks :
  get_vehicle_breaks v = Ok breaks →
  ∃ m raw, v = JObject m ∧ mapM get_break (array_field m "breaks") = Ok raw ∧
    breaks = sort_by break_lt raw.
Proof.
  unfold get_vehicle_breaks. intros H. inv_bind H has Hhas.
  apply HasMember_Ok_inv in Hhas as (m & -> & ->). exists m.
  inv_bind H raw Hraw. injection H as <-. exists raw. split; [done|].
  split; [|done]. unfold array_field. simpl in Hraw.
  destruct (FindMember m "breaks") as [k|]; simpl in Hraw.
  - inv_bind Hraw u Hw. destruct k; try done.
  - by injection Hraw as <-.
Qed.

Lemma breaks_sorted_read elems raw :
  mapM get_break elems = Ok raw →
  Forall2 break_read elems raw ∧ sort_by break_lt raw ≡ₚ raw ∧
  StronglySorted break_le (sort_by break_lt raw).
Proof.
  intros Hraw.
  assert (Forall2 break_read elems raw) as Hread.
  { eapply mapM_Ok_Forall2_impl; [|exact Hraw]. intros b br. apply get_break_read. }
  split_and!; [done|apply sort_by_perm|].
  apply StronglySorted_weaken_elem with (R1 := λ a b, ¬ break_lt b a).
  2:{ unfold sort_by. apply (StronglySorted_merge_sort _). }
  assert (∀ a, a ∈ sort_by break_lt raw → ∃ w, head (break_tws a) = Some w) as Hhead.
  { intros a Ha. rewrite sort_by_perm in Ha.
    apply list_elem_of_lookup in Ha as [i Hi].
    destruct (Forall2_lookup_r _ _ _ i a Hread Hi)
      as (b & _ & (m & k & _ & _ & _ & Hw & _)).
    apply windows_read_nonempty in Hw. destruct (break_tws a); [done|by eexists]. }
  intros a b Ha Hb Hab.
  destruct (Hhead a Ha) as [wa Hwa]. destruct (Hhead b Hb) as [wb Hwb].
  exists wa, wb. split_and!; [done..|]. apply tw_le_not_lt.
  unfold break_lt, first_tw in Hab. by rewrite Hwa, Hwb in Hab.
Qed.

(** X10: a vehicle without [breaks] has none, and a [breaks] member that is
    no array is rejected with an INPUT error naming the vehicle; otherwise
    the breaks returned are those of the array, each with its id, service,
    description (up to its first NUL character) and at least one time
    window, in ascending order of their first time window. *)
Theorem vehicle_breaks_sorted :
  (∀ m, FindMember m "breaks" = None → get_vehicle_breaks (JObject m) = Ok []) ∧
  (∀ m id k, has_id m id → FindMember m "breaks" = Some k → IsArray k = false →
     get_vehicle_breaks (JObject m) =
       Throw INPUT ("Invalid breaks for vehicle " +:+ to_string id +:+ ".")) ∧
  (∀ v breaks,
     get_vehicle_breaks v = Ok breaks →
     ∃ m raw, v = JObject m ∧ Forall2 break_read (array_field m "breaks") raw ∧
       breaks ≡ₚ raw ∧ StronglySorted break_le breaks) ∧
  (∀ cl_args document input,
     parse cl_args (JObject document) = Ok input →
     Forall2 (λ v veh, ∃ m raw, v = JObject m ∧
                Forall2 break_read (array_field m "breaks") raw ∧
                vehicle_breaks veh ≡ₚ raw ∧
                StronglySorted break_le (vehicle_breaks veh))
       (array_field document "vehicles") (input_vehicles input)).
Proof.
  assert (∀ v breaks,
            get_vehicle_breaks v = Ok breaks →
            ∃ m raw, v = JObject m ∧ Forall2 break_read (array_field m "breaks") raw ∧
              breaks ≡ₚ raw ∧ StronglySorted break_le breaks) as Hread.
  { intros v breaks H.
    apply get_vehicle_breaks_Ok_inv in H as (m & raw & -> & Hraw & ->).
    exists m, raw. split; [done|]. by apply breaks_sorted_read. }
  split_and!.
  - intros m H. unfold get_vehicle_breaks. simpl. by rewrite H.
  - intros m id k Hid Hk Harray. unfold get_vehicle_breaks, when, throw.
    rewrite (id_string_has_id m id Hid). simpl. rewrite Hk. simpl.
    by rewrite Harray.
  - exact Hread.
  - intros cl_args document input H.
    apply (parsed_vehicles _ cl_args document input); [|done].
    intros size v veh Hv.
    apply get_vehicle_fields in Hv as (m & -> & _ & _ & _ & Hbreaks & _).
    apply Hread in Hbreaks as (m' & raw & [= <-] & Hbreaks). by exists m, raw.
Qed.

(** ** Steps of a vehicle (lines 255-338) *)

Lemma get_forced_read m key o :
  get_forced (JObject m) key = Ok o ↔ bound_read (FindMember m key) o.
Proof.
  unfold get_forced, bound_read. simpl.
  destruct (FindMember m key) as [k|]; simpl.
  - destruct k as [| |x| | | |]; simpl; try (split; [done|by intros (? & [=] & _)]).
    destruct (bool_decide (0 ≤ x < 2 ^ 32)) eqn:Hx; simpl.
    + apply bool_decide_eq_true in Hx. split.
      * intros [= <-]. by exists x.
      * by intros (x' & [= <-] & _ & ->).
    + split; [done|]. intros (x' & [= <-] & Hx' & _).
      by rewrite bool_decide_eq_true_2 in Hx.
  - split; [by intros [= <-]|by intros ->].
Qed.

Lemma get_forced_Ok_inv json_step key o :
  get_forced json_step key = Ok o →
  ∃ m, json_step = JObject m ∧ bound_read (FindMember m key) o.
Proof.
  intros H. assert (∃ m, json_step = JObject m) as [m ->].
  { unfold get_forced in H. inv_bind H has Hhas.
    apply HasMember_Ok_inv in Hhas as (m & -> & _). eauto. }
  exists m. split; [done|]. by apply get_forced_read.
Qed.

Lemma has_valid_id_has_id m : has_valid_id m = true ↔ ∃ id, has_id m id.
Proof.
  unfold has_valid_id, has_id. destruct (FindMember m "id") as [k|].
  - destruct k as [| |i| | | |]; simpl; try (split; [done|by intros (? & [=] & _)]).
    rewrite bool_decide_eq_true. split; [by exists i|by intros (i' & [= <-] & ?)].
  - split; [done|by intros (? & [=] & _)].
Qed.

(** The check of the id of a step (lines 307-311). *)
Lemma step_id_checked ms :
  (not_ (HasMember (JObject ms) "id") |or|
   not_ (lift IsUint64 (member (JObject ms) "id")))
  = Ok (negb (has_valid_id ms)).
Proof.
  unfold or_else, not_, lift, has_valid_id. simpl.
  by destruct (FindMember ms "id") as [k|].
Qed.

Lemma get_vehicle_step_Ok_inv v steps json_step r :
  get_vehicle_step v steps json_step = Ok r →
  ∃ step, r = steps ++ [step] ∧ step_read json_step step.
Proof.
  unfold get_vehicle_step. intros H.
  inv_bind H at_ Hat. apply get_forced_Ok_inv in Hat as (m & -> & Hat).
  inv_bind H after Hafter. apply get_forced_read in Hafter.
  inv_bind H before Hbefore. apply get_forced_read in Hbefore.
  inv_bind H type_str Htype. apply get_string_string_read in Htype.
  assert (forced_read m (mkForcedService at_ after before)) as Hfs by done.
  destruct (decide (type_str = "start")) as [->|Hstart].
  { injection H as <-. eexists. split; [done|]. exists m. split; [done|].
    split; [done|]. by left. }
  destruct (decide (type_str = "end")) as [->|Hend].
  { injection H as <-. eexists. split; [done|]. exists m. split; [done|].
    split; [done|]. by right. }
  inv_bind H u Hw. apply when_throw_Ok in Hw. rewrite step_id_checked in Hw.
  injection Hw as Hw. apply negb_false_iff, has_valid_id_has_id in Hw.
  destruct Hw as [id Hid]. pose proof Hid as [Hidm Hidr].
  simpl in H. rewrite Hidm in H. simpl in H.
  rewrite bool_decide_eq_true_2 in H by done. simpl in H.
  repeat case_decide; try (by apply throw_not_Ok in H); injection H as <-;
    subst type_str; (eexists; split; [done|]); exists m; (split; [done|]); simpl;
    split_and!; done.
Qed.

Lemma get_vehicle_steps_loop v elems i acc r :
  for_index (λ steps (_ : nat) json_step, get_vehicle_step v steps json_step)
    i acc elems = Ok r →
  ∃ new, r = acc ++ new ∧ Forall2 step_read elems new.
Proof.
  revert i acc. induction elems as [|x elems IH]; intros i acc H; simpl in H.
  - injection H as <-. exists []. by rewrite app_nil_r.
  - inv_bind H acc' Hacc'.
    apply get_vehicle_step_Ok_inv in Hacc' as (step & -> & Hstep).
    apply IH in H as (new & -> & Hnew). exists (step :: new).
    rewrite <- app_assoc. split; [done|by constructor].
Qed.

Lemma get_vehicle_steps_read v steps :
  get_vehicle_steps v = Ok steps →
  ∃ m, v = JObject m ∧ Forall2 step_read (array_field m "steps") steps.
Proof.
  unfold get_vehicle_steps. intros H. inv_bind H has Hhas.
  apply HasMember_Ok_inv in Hhas as (m & -> & ->). exists m. split; [done|].
  unfold array_field. simpl in H.
  destruct (FindMember m "steps") as [k|]; simpl in H.
  - inv_bind H u Hw. destruct k as [| | | | |elems|]; try done. simpl in H.
    by apply get_vehicle_steps_loop in H as (new & -> & Hnew).
  - injection H as <-. constructor.
Qed.

(** The part of [get_vehicle_step] that is common to all steps. *)
Lemma get_vehicle_step_typed m id ms fs t steps :
  has_id m id → forced_read ms fs → string_read (FindMember ms "type") t →
  t ≠ "start" → t ≠ "end" →
  get_vehicle_step (JObject m) steps (JObject ms) =
    if has_valid_id ms then
      let* k := member (JObject ms) "id" in
      let* i := GetUint64 k in
      if decide (t = "job") then Ok (steps ++ [StepJob SINGLE i fs])
      else if decide (t = "pickup") then Ok (steps ++ [StepJob PICKUP i fs])
      else if decide (t = "delivery") then Ok (steps ++ [StepJob DELIVERY i fs])
      else if decide (t = "break") then Ok (steps ++ [StepId BREAK i fs])
      else Throw INPUT ("Invalid type in steps for vehicle " +:+ to_string id +:+ ".")
    else Throw INPUT ("Invalid id in steps for vehicle " +:+ to_string id +:+ ".").
Proof.
  intros Hid (Hat & Hafter & Hbefore) Htype Hstart Hend. unfold get_vehicle_step.
  rewrite (proj2 (get_forced_read ms "service_at" _) Hat),
    (proj2 (get_forced_read ms "service_after" _) Hafter),
    (proj2 (get_forced_read ms "service_before" _) Hbefore),
    (proj2 (get_string_string_read ms "type" t) Htype).
  cbn [bind]. rewrite !decide_False by done.
  rewrite step_id_checked, (id_string_has_id m id Hid).
  unfold when, throw. cbn [bind]. destruct fs as [at_ after before]. simpl.
  by destruct (has_valid_id ms).
Qed.

Lemma get_vehicle_step_complete v steps json_step step :
  step_read json_step step →
  get_vehicle_step v steps json_step = Ok (steps ++ [step]).
Proof.
  intros (m & -> & H). unfold get_vehicle_step.
  assert (∀ fs t, forced_read m fs → string_read (FindMember m "type") t →
            ∀ k : ForcedService → string → result (list VehicleStep),
              (let* at_ := get_forced (JObject m) "service_at" in
               let* after := get_forced (JObject m) "service_after" in
               let* before := get_forced (JObject m) "service_before" in
               let* type_str := get_string (JObject m) "type" in
               k (mkForcedService at_ after before) type_str) = k fs t) as Hhead.
  { intros [at_ after before] t (Hat & Hafter & Hbefore) Htype k.
    rewrite (proj2 (get_forced_read m "service_at" _) Hat),
      (proj2 (get_forced_read m "service_after" _) Hafter),
      (proj2 (get_forced_read m "service_before" _) Hbefore).
    cbn [bind]. by rewrite (proj2 (get_string_string_read m "type" t) Htype). }
  assert (∀ id, has_id m id →
            (when (not_ (HasMember (JObject m) "id") |or|
                   not_ (lift IsUint64 (member (JObject m) "id")))
               (throw INPUT
                  (let* id := id_string v in
                   Ok ("Invalid id in steps for vehicle " +:+ id +:+ "."))) = Ok tt) ∧
            (let* k := member (JObject m) "id" in GetUint64 k) = Ok id) as Hid.
  { intros id Hid. rewrite step_id_checked.
    rewrite (proj2 (has_valid_id_has_id m)) by (by exists id).
    split; [done|]. destruct Hid as [Him Hir]. simpl. rewrite Him. simpl.
    by rewrite bool_decide_eq_true_2. }
  destruct step as [t fs|t id fs|t id fs].
  - destruct H as (Hfs & [[-> Htype]|[-> Htype]]).
    + by rewrite (Hhead fs "start" Hfs Htype (λ fs0 t0, _)).
    + by rewrite (Hhead fs "end" Hfs Htype (λ fs0 t0, _)).
  - destruct H as (Hfs & Hi & -> & Htype). destruct (Hid id Hi) as [Hw Hk].
    rewrite (Hhead fs "break" Hfs Htype (λ fs0 t0, _)). cbn beta.
    rewrite !decide_False by done. rewrite Hw. cbn [bind].
    destruct Hi as [Him Hir]. simpl. rewrite Him. simpl.
    by rewrite bool_decide_eq_true_2.
  - destruct H as (Hfs & Hi & Htype). destruct (Hid id Hi) as [Hw Hk].
    rewrite (Hhead fs _ Hfs Htype (λ fs0 t0, _)). cbn beta.
    destruct Hi as [Him Hir].
    destruct t; simpl; rewrite Him; simpl; by rewrite bool_decide_eq_true_2.
Qed.

Lemma get_vehicle_steps_prefix v good read rest i acc :
  Forall2 step_read good read →
  for_index (λ steps (_ : nat) json_step, get_vehicle_step v steps json_step)
    i acc (good ++ rest)
  = for_index (λ steps (_ : nat) json_step, get_vehicle_step v steps json_step)
      (i + length good) (acc ++ read) rest.
Proof.
  intros Hgood. revert i acc.
  induction Hgood as [|x step good read Hx _ IH]; intros i acc; simpl.
  - by rewrite Nat.add_0_r, app_nil_r.
  - rewrite (get_vehicle_step_complete v acc x step Hx). cbn [bind].
    rewrite IH, <- app_assoc. simpl.
    by replace (i + S (length good))%nat with (S (i + length good)) by lia.
Qed.

(** X11: a vehicle without [steps] has none, and otherwise exactly one step
    is returned for each entry of the array, in the order of the document,
    with the bounds of its forced service; a start and an end need no id,
    while a job, pickup, delivery or break carries the id of its object.  The
    type of a step is its [type] string up to its first NUL character.  At
    the first step that does not fit, the id is checked before the type: a
    step that is no start or end and has no id is rejected for its id,
    whatever its type, and one with an id and a type that is none of the six
    is rejected for its type. *)
Theorem vehicle_steps_in_order :
  (∀ m, FindMember m "steps" = None → get_vehicle_steps (JObject m) = Ok []) ∧
  (∀ v steps,
     get_vehicle_steps v = Ok steps →
     ∃ m, v = JObject m ∧ Forall2 step_read (array_field m "steps") steps) ∧
  (∀ m steps,
     (∀ k, FindMember m "steps" = Some k → IsArray k = true) →
     Forall2 step_read (array_field m "steps") steps →
     get_vehicle_steps (JObject m) = Ok steps) ∧
  (∀ m id k, has_id m id → FindMember m "steps" = Some k → IsArray k = false →
     get_vehicle_steps (JObject m) =
       Throw INPUT ("Invalid steps for vehicle " +:+ to_string id +:+ ".")) ∧
  (∀ m id good read ms rest fs t,
     has_id m id →
     FindMember m "steps" = Some (JArray (good ++ JObject ms :: rest)) →
     Forall2 step_read good read →
     forced_read ms fs → string_read (FindMember ms "type") t →
     t ≠ "start" → t ≠ "end" →
     ((∀ i, ¬ has_id ms i) →
      get_vehicle_steps (JObject m) =
        Throw INPUT ("Invalid id in steps for vehicle " +:+ to_string id +:+ ".")) ∧
     (∀ i, has_id ms i → t ∉ step_types →
        get_vehicle_steps (JObject m) =
          Throw INPUT ("Invalid type in steps for vehicle " +:+ to_string id +:+
                       "."))) ∧
  (∀ cl_args document input,
     parse cl_args (JObject document) = Ok input →
     Forall2 (λ v veh, ∃ m, v = JObject m ∧
                Forall2 step_read (array_field m "steps") (vehicle_steps veh))
       (array_field document "vehicles") (input_vehicles input)).
Proof.
  split_and!.
  - intros m H. unfold get_vehicle_steps. simpl. by rewrite H.
  - apply get_vehicle_steps_read.
  - intros m steps Harray Hsteps. unfold array_field in Hsteps.
    unfold get_vehicle_steps. simpl.
    destruct (FindMember m "steps") as [k|]; simpl.
    + specialize (Harray k eq_refl). destruct k as [| | | | |elems|]; try done.
      simpl. rewrite <- (app_nil_r elems).
      rewrite (get_vehicle_steps_prefix _ elems steps [] 0 [] Hsteps). done.
    + by apply Forall2_nil_inv_l in Hsteps as ->.
  - intros m id k Hid Hk Harray. unfold get_vehicle_steps, when, throw.
    rewrite (id_string_has_id m id Hid). simpl. rewrite Hk. simpl.
    by rewrite Harray.
  - intros m id good read ms rest fs t Hid Hk Hgood Hfs Htype Hstart Hend.
    assert (get_vehicle_steps (JObject m) =
            let* steps := get_vehicle_step (JObject m) read (JObject ms) in
            for_index (λ steps (_ : nat) json_step,
                get_vehicle_step (JObject m) steps json_step)
              (S (length good)) steps rest)
      as ->.
    { unfold get_vehicle_steps. simpl. rewrite Hk. simpl.
      by rewrite (get_vehicle_steps_prefix _ good read _ 0 [] Hgood). }
    rewrite (get_vehicle_step_typed m id ms fs t read Hid Hfs Htype Hstart Hend).
    split.
    + intros Hnone. destruct (has_valid_id ms) eqn:Hvalid; [|done].
      apply has_valid_id_has_id in Hvalid as [i Hi]. by destruct (Hnone i).
    + intros i Hi Hunknown.
      rewrite (proj2 (has_valid_id_has_id ms)) by (by exists i).
      destruct Hi as [Him Hir]. simpl. rewrite Him. simpl.
      rewrite bool_decide_eq_true_2 by done. simpl.
      unfold step_types in Hunknown.
      rewrite !decide_False; [done|intros ->; apply Hunknown..];
        repeat first [by left|right].
  - intros cl_args document input H.
    apply (parsed_vehicles _ cl_args document input); [|done].
    intros size v veh Hv.
    apply get_vehicle_fields in Hv as (m & -> & _ & _ & _ & _ & _ & Hsteps).
    by apply get_vehicle_steps_read in Hsteps as (m' & [= <-] & Hsteps); exists m.
Qed.

(** ** The routing wrapper (lines 670-708) *)

Lemma parse_read_document cl_args json_input :
  parse cl_args json_input =
    let* st := read_document (cl_geometry cl_args) json_input in
    let* w := routing_wrapper cl_args st.2 in
    Ok (set_routing st.1 w).
Proof. done. Qed.

(** X12: the document is read before the router is looked at, so a ROUTING
    error is reported for a valid document only, and only when the router is
    libosrm; a build without libosrm never succeeds with that router; with
    osrm-routed and ORS the wrapper is built for the server that the command
    line gives for the common profile, and a profile without server is
    rejected with an INPUT error that names it. *)
Theorem routing_wrapper_selected (cl_args : CLArgs) :
  (∀ json_input msg,
     parse cl_args json_input = Throw ROUTING msg →
     cl_router cl_args = LIBOSRM ∧
     ∃ st, read_document (cl_geometry cl_args) json_input = Ok st) ∧
  (cl_router cl_args = LIBOSRM → USE_LIBOSRM = false →
   ∀ json_input,
     (∀ input, parse cl_args json_input ≠ Ok input) ∧
     (∀ st, read_document (cl_geometry cl_args) json_input = Ok st →
        parse cl_args json_input
        = Throw ROUTING "VROOM compiled without libosrm installed.")) ∧
  (∀ json_input input,
     parse cl_args json_input = Ok input →
     ∃ w, input_routing input = Some w ∧
       match cl_router cl_args with
       | OSRM => ∃ server,
           cl_servers cl_args !! wrapper_profile w = Some server ∧
           w = OsrmRoutedWrapper (wrapper_profile w) server
       | LIBOSRM =>
           USE_LIBOSRM = true ∧ libosrm_loads (wrapper_profile w) = true ∧
           w = LibosrmWrapper (wrapper_profile w)
       | ORS => ∃ server,
           cl_servers cl_args !! wrapper_profile w = Some server ∧
           w = OrsWrapper (wrapper_profile w) server
       end) ∧
  (cl_router cl_args ≠ LIBOSRM →
   ∀ json_input st,
     read_document (cl_geometry cl_args) json_input = Ok st →
     cl_servers cl_args !! st.2 = None →
     parse cl_args json_input
     = Throw INPUT ("Invalid profile: " +:+ st.2 +:+ ".")).
Proof.
  split_and!.
  - intros json_input msg H. rewrite parse_read_document in H.
    pose proof (input_only_read_document (cl_geometry cl_args) json_input) as Hin.
    destruct (read_document (cl_geometry cl_args) json_input) as [st|e m|];
      simpl in H, Hin; [|by destruct e|done].
    split; [|by exists st]. unfold routing_wrapper in H.
    destruct (cl_router cl_args); [|done|];
      by destruct (cl_servers cl_args !! st.2).
  - intros Hrouter Hbuild json_input. rewrite parse_read_document.
    split.
    + intros input H. inv_bind H st Hst. inv_bind H w Hw.
      unfold routing_wrapper in Hw. by rewrite Hrouter, Hbuild in Hw.
    + intros st ->. cbn [bind]. unfold routing_wrapper.
      by rewrite Hrouter, Hbuild.
  - intros json_input input H. rewrite parse_read_document in H.
    inv_bind H st Hst. inv_bind H w Hw. injection H as <-. exists w.
    split; [done|]. unfold routing_wrapper in Hw.
    destruct (cl_router cl_args).
    + destruct (cl_servers cl_args !! st.2) as [server|] eqn:Hserver; [|done].
      injection Hw as <-. by exists server.
    + destruct USE_LIBOSRM; [|done].
      destruct (libosrm_loads st.2) eqn:Hloads; [|done]. by injection Hw as <-.
    + destruct (cl_servers cl_args !! st.2) as [server|] eqn:Hserver; [|done].
      injection Hw as <-. by exists server.
  - intros Hrouter json_input st Hst Hnone. rewrite parse_read_document, Hst.
    cbn [bind]. unfold routing_wrapper. rewrite Hnone.
    by destruct (cl_router cl_args).
Qed.

(** ** Shipments (lines 132-142, 531-584 and 623-666) *)

(** X13: a shipment must be an object with a [pickup] and a [delivery]
    object, the pickup being asked for first; every shipment of a
    successfully read document gives a pickup job and a delivery job, in
    this order and in the order of the document, with the ids of the two
    objects; the skills of a job and of a vehicle are those of its object,
    and the two jobs of a shipment have the skills of the shipment object. *)
Theorem shipments_paired :
  (∀ v, IsObject v = false → check_shipment v = Throw INPUT "Invalid shipment.") ∧
  (∀ m, (∀ p, FindMember m "pickup" ≠ Some (JObject p)) →
     check_shipment (JObject m) = Throw INPUT "Missing pickup for shipment.") ∧
  (∀ m p, FindMember m "pickup" = Some (JObject p) →
     (∀ d, FindMember m "delivery" ≠ Some (JObject d)) →
     check_shipment (JObject m) = Throw INPUT "Missing delivery for shipment.") ∧
  (∀ cl_args document input,
     parse cl_args (JObject document) = Ok input →
     Forall2 (λ s pd, ∃ m p d, s = JObject m ∧
                FindMember m "pickup" = Some (JObject p) ∧
                FindMember m "delivery" = Some (JObject d) ∧
                has_id p (job_id pd.1) ∧ job_type pd.1 = PICKUP ∧
                has_id d (job_id pd.2) ∧ job_type pd.2 = DELIVERY ∧
                skills_read (FindMember m "skills") (job_skills pd.1) ∧
                job_skills pd.2 = job_skills pd.1)
       (array_field document "shipments") (input_shipments input) ∧
     Forall2 (λ j job, ∃ m, j = JObject m ∧ job_type job = SINGLE ∧
                skills_read (FindMember m "skills") (job_skills job))
       (array_field document "jobs") (input_jobs input) ∧
     Forall2 (λ v veh, ∃ m, v = JObject m ∧
                skills_read (FindMember m "skills") (vehicle_skills veh))
       (array_field document "vehicles") (input_vehicles input)).
Proof.
  split_and!.
  - intros v Hv. unfold check_shipment. by rewrite Hv.
  - intros m Hp. unfold check_shipment, when, or_else, not_, lift. simpl.
    destruct (FindMember m "pickup") as [[| | | | | |p]|]; try done.
    by destruct (Hp p).
  - intros m p Hp Hd. unfold check_shipment, when, or_else, not_, lift. simpl.
    rewrite Hp. simpl.
    destruct (FindMember m "delivery") as [[| | | | | |d]|]; try done.
    by destruct (Hd d).
  - intros cl_args document input H. split_and!.
    + apply (parsed_shipments _ cl_args document input); [| |done].
      * intros size n s pd Hs.
        apply parse_shipment_fields in Hs
          as (m & p & d & amount & skills & priority & -> & Hp & Hd & Hskills & _ &
              Hpickup & Hdelivery).
        pose proof Hpickup as Hpickup'. pose proof Hdelivery as Hdelivery'.
        apply parse_side_matrix_Ok_inv in Hpickup
          as (mp & idp & xp & [= <-] & Hidp & _ & _ & <- & Htp & _).
        apply parse_side_matrix_Ok_inv in Hdelivery
          as (md & idd & xd & [= <-] & Hidd & _ & _ & <- & Htd & _).
        apply parse_side_matrix_fields in Hpickup'
          as (mp & xp' & _ & _ & _ & _ & Hsp & _).
        apply parse_side_matrix_fields in Hdelivery'
          as (md & xd' & _ & _ & _ & _ & Hsd & _).
        exists m, p, d. rewrite Hsp, Hsd.
        split_and!; try done. by apply get_skills_read.
      * intros size s pd Hs.
        apply parse_shipment_fields in Hs
          as (m & p & d & amount & skills & priority & -> & Hp & Hd & Hskills & _ &
              Hpickup & Hdelivery).
        pose proof Hpickup as Hpickup'. pose proof Hdelivery as Hdelivery'.
        apply parse_side_routing_Ok_inv in Hpickup
          as (mp & idp & cp & [= <-] & Hidp & _ & _ & <- & Htp & _).
        apply parse_side_routing_Ok_inv in Hdelivery
          as (md & idd & cd & [= <-] & Hidd & _ & _ & <- & Htd & _).
        apply parse_side_routing_fields in Hpickup'
          as (mp & cp' & _ & _ & _ & _ & Hsp & _).
        apply parse_side_routing_fields in Hdelivery'
          as (md & cd' & _ & _ & _ & _ & Hsd & _).
        exists m, p, d. rewrite Hsp, Hsd.
        split_and!; try done. by apply get_skills_read.
    + apply (parsed_jobs _ cl_args document input); [| |done].
      * intros size n j job Hj. pose proof Hj as Hj'.
        apply parse_job_matrix_Ok_inv in Hj
          as (m & id & x & -> & _ & _ & _ & _ & _ & _ & Htype & _).
        apply parse_job_matrix_fields in Hj'
          as (m' & x' & [= <-] & _ & _ & _ & Hskills & _).
        exists m. split_and!; [done..|]. by apply get_skills_read.
      * intros size j job Hj. pose proof Hj as Hj'.
        apply parse_job_routing_Ok_inv in Hj
          as (m & id & c & -> & _ & _ & _ & _ & _ & _ & Htype & _).
        apply parse_job_routing_fields in Hj'
          as (m' & c' & [= <-] & _ & _ & _ & Hskills & _).
        exists m. split_and!; [done..|]. by apply get_skills_read.
    + apply (parsed_vehicles _ cl_args document input); [|done].
      intros size v veh Hv.
      apply get_vehicle_fields in Hv as (m & -> & _ & Hskills & _).
      exists m. split; [done|]. by apply get_skills_read.
Qed.

(** ** The members that are read *)

Ltac key_in := apply list_elem_of_In; simpl; repeat first [left; reflexivity | right].

Lemma check_location_index_agree m m' type n :
  FindMember m "id" = FindMember m' "id" →
  FindMember m "location_index" = FindMember m' "location_index" →
  check_location_index (JObject m) type n = check_location_index (JObject m') type n.
Proof.
  intros Hid H. unfold check_location_index.
  rewrite (id_string_agree m m' Hid). agree.
Qed.

Lemma matrix_location_agree m m' x :
  FindMember m "location" = FindMember m' "location" →
  matrix_location (JObject m) x = matrix_location (JObject m') x.
Proof.
  intros H. unfold matrix_location.
  rewrite (parse_coordinates_agree m m' "location" H). agree.
Qed.

Lemma parse_job_matrix_agree m m' amount_size n :
  agree_on ("location_index" :: job_keys) m m' →
  parse_job_matrix amount_size n (JObject m) = parse_job_matrix amount_size n (JObject m').
Proof.
  intros H. unfold parse_job_matrix.
  rewrite (check_id_agree m m'), (check_location_index_agree m m'),
    (need_amount_compat_agree m m'), (get_id_agree m m'),
    (get_service_agree m m'),
    (get_amount_agree m m' "amount"), (get_amount_agree m m' "delivery"),
    (get_amount_agree m m' "pickup"), (get_skills_agree m m'),
    (get_priority_agree m m'), (get_job_time_windows_agree m m'),
    (get_string_agree m m' "description")
    by (apply H; key_in).
  cbn [member]. rewrite (H "location_index") by key_in.
  do 4 (apply bind_ext; intros ?).
  by rewrite (matrix_location_agree m m') by (apply H; key_in).
Qed.

Lemma parse_job_routing_keys m m' amount_size :
  agree_on job_keys m m' →
  parse_job_routing amount_size (JObject m) = parse_job_routing amount_size (JObject m').
Proof.
  intros H. unfold parse_job_routing.
  rewrite (check_id_agree m m'), (check_location_agree m m'),
    (need_amount_compat_agree m m'), (get_id_agree m m'),
    (parse_coordinates_agree m m'), (get_service_agree m m'),
    (get_amount_agree m m' "amount"), (get_amount_agree m m' "delivery"),
    (get_amount_agree m m' "pickup"), (get_skills_agree m m'),
    (get_priority_agree m m'), (get_job_time_windows_agree m m'),
    (get_string_agree m m' "description")
    by (apply H; key_in).
  done.
Qed.

Lemma parse_side_matrix_agree m m' n label type amount skills priority :
  agree_on ("location_index" :: side_keys) m m' →
  parse_side_matrix n (JObject m) label type amount skills priority =
  parse_side_matrix n (JObject m') label type amount skills priority.
Proof.
  intros H. unfold parse_side_matrix.
  rewrite (check_id_agree m m'), (check_location_index_agree m m'),
    (get_id_agree m m'), (get_service_agree m m'),
    (get_job_time_windows_agree m m'), (get_string_agree m m' "description")
    by (apply H; key_in).
  cbn [member]. rewrite (H "location_index") by key_in.
  do 4 (apply bind_ext; intros ?).
  by rewrite (matrix_location_agree m m') by (apply H; key_in).
Qed.

Lemma parse_side_routing_keys m m' label type amount skills priority :
  agree_on side_keys m m' →
  parse_side_routing (JObject m) label type amount skills priority =
  parse_side_routing (JObject m') label type amount skills priority.
Proof.
  intros H. unfold parse_side_routing.
  rewrite (check_id_agree m m'), (check_location_agree m m'), (get_id_agree m m'),
    (parse_coordinates_agree m m'), (get_service_agree m m'),
    (get_job_time_windows_agree m m'), (get_string_agree m m' "description")
    by (apply H; key_in).
  done.
Qed.

Lemma parse_shipment_agree m m' amount_size side :
  agree_on shipment_keys m m' →
  parse_shipment amount_size side (JObject m) =
  parse_shipment amount_size side (JObject m').
Proof.
  intros H. unfold parse_shipment, check_shipment.
  rewrite (get_amount_agree m m' "amount"), (get_skills_agree m m'),
    (get_priority_agree m m') by (apply H; key_in).
  cbn [HasMember member IsObject].
  by rewrite (H "pickup"), (H "delivery") by key_in.
Qed.

Lemma get_vehicle_keys m m' amount_size :
  agree_on vehicle_keys m m' →
  get_vehicle (JObject m) amount_size = get_vehicle (JObject m') amount_size.
Proof.
  intros H. unfold get_vehicle.
  rewrite (check_id_agree m m'), (get_amount_agree m m'), (get_skills_agree m m'),
    (get_vehicle_time_window_agree m m'), (get_vehicle_breaks_agree m m'),
    (get_string_agree m m' "description"), (get_vehicle_steps_agree m m')
    by (apply H; key_in).
  rewrite (get_id_agree m m') by (apply H; key_in).
  do 2 (apply bind_ext; intros ?).
  rewrite !(get_vehicle_location_agree m m') by (apply H; key_in). done.
Qed.

Lemma read_document_agree geometry m m' :
  agree_on document_keys m m' →
  read_document geometry (JObject m) = read_document geometry (JObject m').
Proof.
  intros H. unfold read_document.
  rewrite !has_nonempty_array_object.
  rewrite (H "jobs"), (H "shipments") by key_in. cbn [bind].
  cbn [HasMember member]. rewrite (H "vehicles") by key_in.
  do 7 (apply bind_ext; intros ?).
  rewrite (switch_input_type_agree _ _ _ m m') by (apply H; key_in). done.
Qed.

(** X14: [parse] reads four members of the document, [jobs], [shipments],
    [vehicles] and [matrix]: two documents in which these are the same have
    the same outcome, whatever else they hold and in whatever order. *)
Theorem parse_reads_four_members (cl_args : CLArgs) (m m' : list (string * Value)) :
  agree_on document_keys m m' →
  parse cl_args (JObject m) = parse cl_args (JObject m').
Proof.
  intros H. rewrite !parse_read_document. by rewrite (read_document_agree _ m m' H).
Qed.

(** X15: a job, a side of a shipment, a shipment and a vehicle are read
    through the members of their lists only: two objects that agree on them
    are read alike, so that any other member is ignored, among them the
    amount, skills and priority of a pickup or delivery object. *)
Theorem entities_read_through_known_members (m m' : list (string * Value)) :
  (agree_on ("location_index" :: job_keys) m m' →
   ∀ amount_size matrix_size,
     parse_job_matrix amount_size matrix_size (JObject m) =
     parse_job_matrix amount_size matrix_size (JObject m')) ∧
  (agree_on job_keys m m' →
   ∀ amount_size,
     parse_job_routing amount_size (JObject m) =
     parse_job_routing amount_size (JObject m')) ∧
  (agree_on ("location_index" :: side_keys) m m' →
   ∀ matrix_size label type amount skills priority,
     parse_side_matrix matrix_size (JObject m) label type amount skills priority =
     parse_side_matrix matrix_size (JObject m') label type amount skills priority) ∧
  (agree_on side_keys m m' →
   ∀ label type amount skills priority,
     parse_side_routing (JObject m) label type amount skills priority =
     parse_side_routing (JObject m') label type amount skills priority) ∧
  (agree_on shipment_keys m m' →
   ∀ amount_size side,
     parse_shipment amount_size side (JObject m) =
     parse_shipment amount_size side (JObject m')) ∧
  (agree_on vehicle_keys m m' →
   ∀ amount_size,
     get_vehicle (JObject m) amount_size = get_vehicle (JObject m') amount_size) ∧
  (agree_on ("profile" :: vehicle_keys) m m' →
   ∀ amount_size st,
     parse_vehicle amount_size st (JObject m) =
     parse_vehicle amount_size st (JObject m')).
Proof.
  split_and!.
  - intros H amount_size matrix_size. by apply parse_job_matrix_agree.
  - intros H amount_size. by apply parse_job_routing_keys.
  - intros H matrix_size label type amount skills priority.
    by apply parse_side_matrix_agree.
  - intros H label type amount skills priority. by apply parse_side_routing_keys.
  - intros H amount_size side. by apply parse_shipment_agree.
  - intros H amount_size. by apply get_vehicle_keys.
  - intros H amount_size st. unfold parse_vehicle.
    rewrite (get_vehicle_keys m m'), (get_string_agree m m' "profile").
    + done.
    + apply H. key_in.
    + intros k Hk. apply H. by right.
Qed.

(** ** Within the contract of the JSON accessors *)

(** X16: the checks of the reader come before every member read and every
    typed getter: the validators, the builders of breaks, jobs and shipments
    and the loader of the matrix stay within the contract of the JSON
    accessors on any value, and so does [parse] on any object in which the
    steps of the vehicles are objects.  The root of the document and the
    steps of a vehicle are the two values whose members are looked up
    unchecked. *)
Theorem accessors_guarded :
  (∀ cl_args document,
     Forall steps_are_objects (array_field document "vehicles") →
     defined (parse cl_args (JObject document))) ∧
  (∀ v type, defined (check_id v type)) ∧
  (∀ v, defined (check_shipment v)) ∧
  (∀ v, defined (get_time_window v)) ∧
  (∀ v, defined (get_break v)) ∧
  (∀ v, defined (load_matrix v)) ∧
  (∀ amount_size matrix_size v,
     defined (parse_job_matrix amount_size matrix_size v) ∧
     defined (parse_job_routing amount_size v) ∧
     defined (parse_shipment amount_size (parse_side_matrix matrix_size) v) ∧
     defined (parse_shipment amount_size parse_side_routing v)) ∧
  (∀ amount_size v, steps_are_objects v → defined (get_vehicle v amount_size)) ∧
  (∀ m x rest,
     FindMember m "steps" = Some (JArray (x :: rest)) → IsObject x = false →
     get_vehicle_steps (JObject m) = AssertFail) ∧
  (∀ cl_args v, IsObject v = false → parse cl_args v = AssertFail).
Proof.
  split_and!.
  - apply parse_defined.
  - apply defined_check_id.
  - apply defined_check_shipment.
  - apply defined_get_time_window.
  - apply defined_get_break.
  - apply defined_load_matrix.
  - intros amount_size matrix_size v. split_and!.
    + apply defined_parse_job_matrix.
    + apply defined_parse_job_routing.
    + apply defined_parse_shipment. intros. apply defined_parse_side_matrix.
    + apply defined_parse_shipment. intros. apply defined_parse_side_routing.
  - intros amount_size v Hv. by apply defined_get_vehicle.
  - intros m x rest Hsteps Hx. unfold get_vehicle_steps. simpl. rewrite Hsteps.
    simpl. unfold get_vehicle_step, get_forced. by destruct x.
  - intros cl_args v Hv. rewrite parse_read_document.
    unfold read_document, has_nonempty_array, and_then. by destruct v.
Qed.

(** ** The aggregate *)

(** X17: a successfully read document gives an aggregate with the geometry
    flag of the command line, one vehicle, job and shipment for each entry
    of the three arrays, at least one vehicle and one job or shipment, a
    routing wrapper, and the matrix of the document when it has one, which
    is then square and not empty. *)
Theorem aggregate_settings (cl_args : CLArgs) (document : list (string * Value))
    (input : Input) :
  parse cl_args (JObject document) = Ok input →
  input_geometry input = cl_geometry cl_args ∧
  is_Some (input_routing input) ∧
  match FindMember document "matrix" with
  | None => input_matrix input = None
  | Some mv => ∃ matrix,
      input_matrix input = Some matrix ∧ mv = matrix_value matrix ∧
      square matrix ∧ matrix ≠ []
  end ∧
  length (input_vehicles input) = length (array_field document "vehicles") ∧
  length (input_jobs input) = length (array_field document "jobs") ∧
  length (input_shipments input) = length (array_field document "shipments") ∧
  input_vehicles input ≠ [] ∧
  (input_jobs input ≠ [] ∨ input_shipments input ≠ []).
Proof.
  intros H. pose proof H as Hinv.
  apply parse_Ok_inv in Hinv
    as (m & v0 & vs & amount_size & vehicles & profiles & jobs & ships & w &
        [= <-] & Hne & Hv & _ & Hvehicles & _ & _ & Hmode).
  assert (input_geometry input = cl_geometry cl_args ∧
          input_routing input = Some w ∧ input_vehicles input = vehicles ∧
          input_jobs input = jobs ∧ input_shipments input = ships ∧
          length jobs = length (array_field document "jobs") ∧
          length ships = length (array_field document "shipments"))
    as (Hg & Hw & -> & -> & -> & Hlj & Hls).
  { destruct (FindMember document "matrix") as [mv|].
    - destruct Hmode as (rows & matrix & _ & _ & Hjobs & Hships & ->). simpl.
      apply mapM_Ok_Forall2, Forall2_length in Hjobs, Hships. done.
    - destruct Hmode as (Hjobs & Hships & ->). simpl.
      apply mapM_Ok_Forall2, Forall2_length in Hjobs, Hships. done. }
  apply mapM_Ok_Forall2, Forall2_length in Hvehicles.
  assert (length vehicles = length (array_field document "vehicles")) as Hlv.
  { unfold array_field. by rewrite Hv. }
  split_and!; try done.
  - destruct (FindMember document "matrix") as [mv|] eqn:Hmv.
    + destruct Hmode as (rows & matrix & -> & Hmatrix & _ & _ & ->).
      exists matrix. apply load_matrix_value in Hmatrix as [Hvalue Hsquare].
      split_and!; [done..|]. intros ->. injection Hvalue as ->.
      by apply (parse_empty_matrix_rejected cl_args) in Hmv; rewrite H in Hmv.
    + by destruct Hmode as (_ & _ & ->).
  - destruct vehicles; [|done]. unfold array_field in Hlv. by rewrite Hv in Hlv.
  - unfold nonempty_array in Hne. unfold array_field in Hlj, Hls.
    destruct (FindMember document "jobs") as [[| | | | |[|j lj]|]|];
      destruct (FindMember document "shipments") as [[| | | | |[|sh lsh]|]|];
      try done; (try by (left; destruct jobs)); by (right; destruct ships).
Qed.

(** ** Amounts, entry by entry (lines 51-79) *)

Lemma get_amount_loop_ok key vals i (amt : list Z) :
  uint_list vals → length amt = (i + length vals)%nat →
  for_index (λ amount i x,
      when (Ok (negb (IsUint x)))
        (throw INPUT (Ok ("Invalid " +:+ key +:+ " value."))) ;;;
      let* u := GetUint x in
      Ok (<[i := u]> amount)) i amt (JInt <$> vals) = Ok (take i amt ++ vals).
Proof.
  intros Hvals. revert i amt.
  induction Hvals as [|v vals Hv _ IH]; intros i amt Hlen; simpl.
  - rewrite app_nil_r, take_ge by (simpl in Hlen; lia). done.
  - rewrite bool_decide_eq_true_2 by done. simpl. rewrite IH.
    + f_equal. rewrite (take_S_r _ _ v).
      * rewrite take_insert_ge by lia. by rewrite <- app_assoc.
      * apply list_lookup_insert_eq. simpl in Hlen. lia.
    + rewrite length_insert. simpl in Hlen. lia.
Qed.

Lemma get_amount_loop_bad key vals bad rest i (amt : list Z) :
  uint_list vals → IsUint bad = false →
  for_index (λ amount i x,
      when (Ok (negb (IsUint x)))
        (throw INPUT (Ok ("Invalid " +:+ key +:+ " value."))) ;;;
      let* u := GetUint x in
      Ok (<[i := u]> amount)) i amt ((JInt <$> vals) ++ bad :: rest)
  = Throw INPUT ("Invalid " +:+ key +:+ " value.").
Proof.
  intros Hvals Hbad. revert i amt.
  induction Hvals as [|v vals Hv _ IH]; intros i amt; simpl.
  - by rewrite Hbad.
  - rewrite bool_decide_eq_true_2 by done. simpl. by rewrite IH.
Qed.

Lemma get_amount_array m key size elems :
  FindMember m key = Some (JArray elems) → length elems = size →
  get_amount (JObject m) key size =
    for_index (λ amount i x,
        when (Ok (negb (IsUint x)))
          (throw INPUT (Ok ("Invalid " +:+ key +:+ " value."))) ;;;
        let* u := GetUint x in
        Ok (<[i := u]> amount)) 0%nat (replicate size 0) elems.
Proof.
  intros H Hlen. unfold get_amount. simpl. rewrite H. simpl.
  by rewrite bool_decide_eq_false_2 by (intros Hne; by apply Hne).
Qed.

Lemma get_amount_complete m key size a :
  reads_as size (FindMember m key) a → length a = size →
  Forall (λ x, 0 ≤ x < 2 ^ 32) a →
  get_amount (JObject m) key size = Ok a.
Proof.
  unfold reads_as. intros Hread Hlen Hvals.
  destruct (FindMember m key) as [k|] eqn:Hk.
  - subst k. rewrite (get_amount_array m key size _ Hk) by (by rewrite length_fmap).
    by rewrite get_amount_loop_ok by (by rewrite ?length_replicate).
  - subst a. by apply get_amount_absent.
Qed.

Lemma job_amounts_complete size m job :
  job_amounts_read size (JObject m) job →
  length (job_delivery job) = size → length (job_pickup job) = size →
  Forall (λ x, 0 ≤ x < 2 ^ 32) (job_delivery job) →
  Forall (λ x, 0 ≤ x < 2 ^ 32) (job_pickup job) →
  get_amount (JObject m) (if amount_only m then "amount" else "delivery") size
    = Ok (job_delivery job) ∧
  get_amount (JObject m) "pickup" size = Ok (job_pickup job).
Proof.
  intros (m' & [= <-] & Hread) Hdl Hpl Hd Hp.
  destruct (amount_only m) eqn:Honly; destruct Hread as [Hrd Hrp].
  - split; [by apply get_amount_complete|].
    rewrite Hrp. apply get_amount_absent. by apply amount_only_pickup.
  - split; by apply get_amount_complete.
Qed.

(** A job object with nothing but an id and a place is read, in either
    mode. *)
Lemma plain_job_matrix_read amount_size matrix_size id index :
  0 ≤ id < 2 ^ 64 → 0 ≤ index < Z.of_nat matrix_size → index < 2 ^ 32 →
  parse_job_matrix amount_size matrix_size
    (JObject [("id", JInt id); ("location_index", JInt index)])
  = Ok (Job_single id (Location_index index) 0 (replicate amount_size 0)
          (replicate amount_size 0) ∅ 0 [TimeWindow_default] "").
Proof.
  intros Hid Hindex Hindex'. apply parse_job_matrix_Ok.
  set (m := [("id", JInt id); ("location_index", JInt index)]).
  assert (has_id m id) as Hhas by done.
  rewrite (check_id_has_id m id "job" Hhas).
  rewrite (check_location_index_spec m id "job" matrix_size Hhas).
  change (FindMember m "location_index") with (Some (JInt index)). cbv beta iota.
  rewrite bool_decide_eq_true_2 by lia. rewrite bool_decide_eq_false_2 by lia.
  cbn [bind].
  change (member (JObject m) "location_index") with (Ok (JInt index)).
  cbn [bind GetUint IsUint]. rewrite bool_decide_eq_true_2 by lia. cbn [bind].
  rewrite need_amount_compat_object, (get_id_has_id m id Hhas).
  change (amount_only m) with false. cbn [bind].
  change (matrix_location (JObject m) index) with (Ok (Location_index index)).
  change (get_service (JObject m)) with (Ok 0).
  rewrite !get_amount_absent by reflexivity.
  change (get_skills (JObject m)) with (Ok (∅ : Skills)).
  change (get_priority (JObject m)) with (Ok 0).
  change (get_job_time_windows (JObject m)) with (Ok [TimeWindow_default]).
  change (get_string (JObject m) "description") with (Ok "").
  reflexivity.
Qed.

Lemma plain_job_routing_read amount_size id (x y : Q) :
  0 ≤ id < 2 ^ 64 →
  parse_job_routing amount_size
    (JObject [("id", JInt id); ("location", JArray [JDouble x; JDouble y])])
  = Ok (Job_single id (Location_coords (x, y)) 0 (replicate amount_size 0)
          (replicate amount_size 0) ∅ 0 [TimeWindow_default] "").
Proof.
  intros Hid. apply parse_job_routing_Ok.
  set (m := [("id", JInt id); ("location", JArray [JDouble x; JDouble y])]).
  assert (has_id m id) as Hhas by done.
  rewrite (check_id_has_id m id "job" Hhas).
  rewrite (check_location_spec m id "job" Hhas).
  change (FindMember m "location") with (Some (JArray [JDouble x; JDouble y])).
  cbv beta iota. cbn [bind].
  rewrite need_amount_compat_object, (get_id_has_id m id Hhas).
  change (amount_only m) with false. cbn [bind].
  change (parse_coordinates (JObject m) "location") with (Ok (x, y)).
  change (get_service (JObject m)) with (Ok 0).
  rewrite !get_amount_absent by reflexivity.
  change (get_skills (JObject m)) with (Ok (∅ : Skills)).
  change (get_priority (JObject m)) with (Ok 0).
  change (get_job_time_windows (JObject m)) with (Ok [TimeWindow_default]).
  change (get_string (JObject m) "description") with (Ok "").
  reflexivity.
Qed.
(** C4: with or without matrix, a plain job built from an object that has
    an [amount] member and neither [delivery] nor [pickup] delivers the value
    of [amount] and picks up the zero vector; any other plain job takes its
    delivery and pickup amounts from the members of these names, a missing one
    giving the zero vector; the jobs of a successfully read document are
    built in this way, in document order; a job that is read is read again,
    to the job with the new amounts, when its amount members are replaced by
    others that can be read; and an object with nothing but an id and a
    location index below the matrix size, or an id and two coordinates
    without matrix, is read as a job, with the zero vector for both
    amounts. *)
Theorem job_amount_compat :
  (∀ amount_size json_job job,
     (∃ matrix_size, parse_job_matrix amount_size matrix_size json_job = Ok job) ∨
     parse_job_routing amount_size json_job = Ok job →
     job_amounts_read amount_size json_job job) ∧
  (∀ cl_args document input,
     parse cl_args (JObject document) = Ok input →
     Forall2 (job_amounts_read (input_amount_size input))
       (array_field document "jobs") (input_jobs input)) ∧
  (∀ amount_size m m' job delivery pickup,
     (∀ key, key ∉ amount_keys → FindMember m' key = FindMember m key) →
     job_amounts_read amount_size (JObject m') (with_amounts job delivery pickup) →
     length delivery = amount_size → length pickup = amount_size →
     Forall (λ x, 0 ≤ x < 2 ^ 32) delivery → Forall (λ x, 0 ≤ x < 2 ^ 32) pickup →
     (∀ matrix_size,
        parse_job_matrix amount_size matrix_size (JObject m) = Ok job →
        parse_job_matrix amount_size matrix_size (JObject m')
        = Ok (with_amounts job delivery pickup)) ∧
     (parse_job_routing amount_size (JObject m) = Ok job →
      parse_job_routing amount_size (JObject m')
      = Ok (with_amounts job delivery pickup))) ∧
  (∀ amount_size matrix_size id index,
     0 ≤ id < 2 ^ 64 → 0 ≤ index < Z.of_nat matrix_size → index < 2 ^ 32 →
     parse_job_matrix amount_size matrix_size
       (JObject [("id", JInt id); ("location_index", JInt index)])
     = Ok (Job_single id (Location_index index) 0 (replicate amount_size 0)
             (replicate amount_size 0) ∅ 0 [TimeWindow_default] "")) ∧
  (∀ amount_size id (x y : Q),
     0 ≤ id < 2 ^ 64 →
     parse_job_routing amount_size
       (JObject [("id", JInt id); ("location", JArray [JDouble x; JDouble y])])
     = Ok (Job_single id (Location_coords (x, y)) 0 (replicate amount_size 0)
             (replicate amount_size 0) ∅ 0 [TimeWindow_default] "")).
Proof.
  split_and!.
  - intros amount_size json_job job [[matrix_size Hj]|Hj].
    + apply parse_job_matrix_Ok_inv in Hj as (mj & idj & x & -> & _ & _ & Hd & Hp & _).
      by apply job_amounts.
    + apply parse_job_routing_Ok_inv in Hj as (mj & idj & x & -> & _ & _ & Hd & Hp & _).
      by apply job_amounts.
  - intros cl_args document input Hparse. apply parsed_jobs_amounts in Hparse.
    eapply Forall2_impl; [exact Hparse|]. by intros j job [? _].
  - intros amount_size m m' job delivery pickup Hsame Hread Hdl Hpl Hd Hp.
    destruct (job_amounts_complete amount_size m' _ Hread Hdl Hpl Hd Hp)
      as [Hdelivery' Hpickup'].
    simpl in Hdelivery', Hpickup'.
    assert ((if amount_only m' then get_amount (JObject m') "amount" amount_size
             else get_amount (JObject m') "delivery" amount_size) = Ok delivery)
      as Hdelivery'' by (by destruct (amount_only m')).
    assert (∀ key, key ∈ ["id"; "location_index"; "location"; "service"; "skills";
                          "priority"; "time_windows"; "description"] →
              FindMember m' key = FindMember m key) as Hother.
    { intros key Hkey. apply Hsame. unfold amount_keys. intros Hin.
      repeat (apply elem_of_cons in Hkey as [->|Hkey];
              [repeat (apply elem_of_cons in Hin as [[=]|Hin]);
               by apply elem_of_nil in Hin|]).
      by apply elem_of_nil in Hkey. }
    split.
    + intros matrix_size H. apply parse_job_matrix_Ok in H. apply parse_job_matrix_Ok.
      rewrite (check_id_agree m' m), (check_location_index_agree m' m),
        (get_id_agree m' m), (get_service_agree m' m),
        (get_skills_agree m' m), (get_priority_agree m' m),
        (get_job_time_windows_agree m' m), (get_string_agree m' m "description")
        by (apply Hother; key_in).
      cbn [member]. rewrite (Hother "location_index") by key_in.
      rewrite need_amount_compat_object in H |- *. cbn [bind] in H |- *.
      rewrite Hdelivery'', Hpickup'.
      inv_bind H u1 Hid. rewrite Hid. cbn [bind].
      inv_bind H u2 Hli. rewrite Hli. cbn [bind].
      inv_bind H k Hk. cbn [member] in Hk. rewrite Hk. cbn [bind].
      inv_bind H x Hx. rewrite Hx. cbn [bind].
      inv_bind H jid Hid'. rewrite Hid'. cbn [bind].
      inv_bind H loc Hloc.
      rewrite (matrix_location_agree m' m x) by (apply Hother; key_in).
      rewrite Hloc. cbn [bind].
      inv_bind H service Hservice. rewrite Hservice. cbn [bind].
      inv_bind H delivery0 Hdelivery. inv_bind H pickup0 Hpickup.
      inv_bind H skills Hskills. rewrite Hskills. cbn [bind].
      inv_bind H priority Hpriority. rewrite Hpriority. cbn [bind].
      inv_bind H tws Htws. rewrite Htws. cbn [bind].
      inv_bind H description Hdescription. rewrite Hdescription. cbn [bind].
      by injection H as <-.
    + intros H. apply parse_job_routing_Ok in H. apply parse_job_routing_Ok.
      rewrite (check_id_agree m' m), (check_location_agree m' m),
        (get_id_agree m' m), (parse_coordinates_agree m' m), (get_service_agree m' m),
        (get_skills_agree m' m), (get_priority_agree m' m),
        (get_job_time_windows_agree m' m), (get_string_agree m' m "description")
        by (apply Hother; key_in).
      rewrite need_amount_compat_object in H |- *. cbn [bind] in H |- *.
      rewrite Hdelivery'', Hpickup'.
      inv_bind H u1 Hid. rewrite Hid. cbn [bind].
      inv_bind H u2 Hli. rewrite Hli. cbn [bind].
      inv_bind H jid Hid'. rewrite Hid'. cbn [bind].
      inv_bind H c Hc. rewrite Hc. cbn [bind].
      inv_bind H service Hservice. rewrite Hservice. cbn [bind].
      inv_bind H delivery0 Hdelivery. inv_bind H pickup0 Hpickup.
      inv_bind H skills Hskills. rewrite Hskills. cbn [bind].
      inv_bind H priority Hpriority. rewrite Hpriority. cbn [bind].
      inv_bind H tws Htws. rewrite Htws. cbn [bind].
      inv_bind H description Hdescription. rewrite Hdescription. cbn [bind].
      by injection H as <-.
  - apply plain_job_matrix_read.
  - apply plain_job_routing_read.
Qed.

(** X18: [get_amount] returns exactly the amounts that its member holds: an
    array of the given length of unsigned integers is returned entry for
    entry, and an absent member is the zero vector; a member that is no
    array, and an array of the right length with an entry that is no unsigned
    integer, are rejected with INPUT errors that name the key. *)
Theorem get_amount_entries (m : list (string * Value)) (key : string) (size : nat) :
  (∀ a, get_amount (JObject m) key size = Ok a ↔
        reads_as size (FindMember m key) a ∧ length a = size ∧ uint_list a) ∧
  (∀ k, FindMember m key = Some k → IsArray k = false →
     get_amount (JObject m) key size
     = Throw INPUT ("Invalid " +:+ key +:+ " array.")) ∧
  (∀ elems, FindMember m key = Some (JArray elems) → length elems = size →
     Exists (λ x, IsUint x = false) elems →
     get_amount (JObject m) key size
     = Throw INPUT ("Invalid " +:+ key +:+ " value.")).
Proof.
  split_and!.
  - intros a. split.
    + intros H. by apply get_amount_Ok_inv in H as (m' & [= <-] & H).
    + unfold reads_as. intros (Hread & Hlen & Hvals).
      destruct (FindMember m key) as [k|] eqn:Hk.
      * subst k. rewrite (get_amount_array m key size _ Hk)
          by (by rewrite length_fmap).
        by rewrite get_amount_loop_ok by (by rewrite ?length_replicate).
      * subst a. by apply get_amount_absent.
  - intros k Hk Harray. unfold get_amount. simpl. rewrite Hk. simpl.
    by rewrite Harray.
  - intros elems Hk Hlen Hbad. rewrite (get_amount_array m key size elems Hk Hlen).
    destruct (uint_split elems) as [(l & -> & Hl)|(l & bad & rest & -> & Hl & Hb)].
    + exfalso. apply Exists_exists in Hbad as (x & Hx & Hbad).
      apply list_elem_of_fmap in Hx as (y & -> & Hy). simpl in Hbad.
      apply bool_decide_eq_false in Hbad. apply Hbad.
      by apply (proj1 (Forall_forall _ _) Hl).
    + by apply get_amount_loop_bad.
Qed.

(** ** Identifiers (lines 123-130) *)

(** X19: [check_id] accepts exactly the objects whose [id] is an unsigned
    integer of 64 bits; it rejects a value that is no object and an object
    without such an id with INPUT errors of their own, both naming the kind
    of entity; and the first vehicle of a document is checked in this way as
    soon as the document has jobs or shipments and vehicles. *)
Theorem ids_checked :
  (∀ v type, check_id v type = Ok tt ↔ ∃ m id, v = JObject m ∧ has_id m id) ∧
  (∀ v type, IsObject v = false →
     check_id v type = Throw INPUT ("Invalid " +:+ type +:+ ".")) ∧
  (∀ m type, has_valid_id m = false →
     check_id (JObject m) type
     = Throw INPUT ("Invalid or missing id for " +:+ type +:+ ".")) ∧
  (∀ cl_args m v0 vs,
     nonempty_array (FindMember m "jobs") || nonempty_array (FindMember m "shipments")
       = true →
     FindMember m "vehicles" = Some (JArray (v0 :: vs)) →
     (IsObject v0 = false →
      parse cl_args (JObject m) = Throw INPUT "Invalid vehicle.") ∧
     (∀ m0, v0 = JObject m0 → has_valid_id m0 = false →
        parse cl_args (JObject m)
        = Throw INPUT "Invalid or missing id for vehicle.")).
Proof.
  assert (∀ m type, has_valid_id m = false →
            check_id (JObject m) type
            = Throw INPUT ("Invalid or missing id for " +:+ type +:+ ".")) as Hid.
  { intros m type H. unfold check_id, when. cbn [IsObject negb bind].
    rewrite step_id_checked, H. done. }
  assert (∀ cl_args m v0 vs,
            nonempty_array (FindMember m "jobs")
              || nonempty_array (FindMember m "shipments") = true →
            FindMember m "vehicles" = Some (JArray (v0 :: vs)) →
            parse cl_args (JObject m) =
              (check_id v0 "vehicle" ;;;
               let* st :=
                 (let* amount_size := first_vehicle_amount_size v0 in
                  let* st :=
                    add_vehicles amount_size (JArray (v0 :: vs))
                      (set_geometry (Input_new amount_size) (cl_geometry cl_args)) in
                  let* input :=
                    switch_input_type amount_size
                      (nonempty_array (FindMember m "jobs"))
                      (nonempty_array (FindMember m "shipments")) (JObject m) st.1 in
                  Ok (input, st.2)) in
               let* w := routing_wrapper cl_args st.2 in
               Ok (set_routing st.1 w))) as Hparse.
  { intros cl_args m v0 vs Hne Hv. rewrite parse_read_document.
    unfold read_document. rewrite !has_nonempty_array_object. cbn [bind].
    apply orb_true_iff in Hne.
    assert (negb (nonempty_array (FindMember m "jobs"))
              && negb (nonempty_array (FindMember m "shipments")) = false) as ->.
    { destruct Hne as [-> | ->]; [done|by rewrite andb_false_r]. }
    unfold when at 1. cbn [bind].
    unfold or_else, not_, lift. simpl. rewrite Hv. simpl.
    by destruct (check_id v0 "vehicle"). }
  split_and!.
  - intros v type. split.
    + apply check_id_Ok_inv.
    + intros (m & id & -> & H). by apply (check_id_has_id m id).
  - intros v type Hv. unfold check_id. by rewrite Hv.
  - exact Hid.
  - intros cl_args m v0 vs Hne Hv. rewrite (Hparse cl_args m v0 vs Hne Hv). split.
    + intros Hv0. unfold check_id. by rewrite Hv0.
    + intros m0 -> Hm0. by rewrite (Hid m0 "vehicle" Hm0).
Qed.

(** ** The geometry flag (line 445) *)

Lemma for_index_commute {A St} (h : St → St) (body : St → nat → A → result St)
    i s l :
  (∀ s i x, body (h s) i x = lift h (body s i x)) →
  for_index body i (h s) l = lift h (for_index body i s l).
Proof.
  intros Hbody. revert i s. induction l as [|x l IH]; intros i s; simpl; [done|].
  rewrite Hbody. unfold lift at 1. destruct (body s i x) as [s'| |]; simpl; [|done..].
  apply IH.
Qed.

Lemma add_vehicles_geometry amount_size json_vehicles input geometry :
  add_vehicles amount_size json_vehicles (set_geometry input geometry) =
  lift (λ st, (set_geometry st.1 geometry, st.2))
    (add_vehicles amount_size json_vehicles input).
Proof.
  unfold add_vehicles. destruct (elements_of json_vehicles) as [vs| |]; [|done..].
  cbn [bind].
  apply (for_index_commute (λ st : Input * string, (set_geometry st.1 geometry, st.2))
           _ 0%nat (input, "")).
  intros st i v. unfold parse_vehicle, lift.
  destruct (get_vehicle v amount_size) as [veh| |]; [|done..]. cbn [bind].
  by destruct (get_string v "profile") as [p| |].
Qed.

Lemma add_jobs_geometry job has_jobs json_input input geometry :
  add_jobs job has_jobs json_input (set_geometry input geometry) =
  lift (λ input, set_geometry input geometry)
    (add_jobs job has_jobs json_input input).
Proof.
  unfold add_jobs. destruct has_jobs; [|done].
  destruct (member json_input "jobs") as [k| |]; [|done..]. cbn [bind].
  destruct (elements_of k) as [elems| |]; [|done..]. cbn [bind].
  apply (for_index_commute (λ input, set_geometry input geometry)).
  intros s i x. unfold lift. by destruct (job x).
Qed.

Lemma add_shipments_geometry shipment has_shipments json_input input geometry :
  add_shipments shipment has_shipments json_input (set_geometry input geometry) =
  lift (λ input, set_geometry input geometry)
    (add_shipments shipment has_shipments json_input input).
Proof.
  unfold add_shipments. destruct has_shipments; [|done].
  destruct (member json_input "shipments") as [k| |]; [|done..]. cbn [bind].
  destruct (elements_of k) as [elems| |]; [|done..]. cbn [bind].
  apply (for_index_commute (λ input, set_geometry input geometry)).
  intros s i x. unfold lift. by destruct (shipment x).
Qed.

Lemma switch_input_type_geometry amount_size has_jobs has_shipments json_input
    input geometry :
  switch_input_type amount_size has_jobs has_shipments json_input
    (set_geometry input geometry) =
  lift (λ input, set_geometry input geometry)
    (switch_input_type amount_size has_jobs has_shipments json_input input).
Proof.
  unfold switch_input_type.
  destruct (HasMember json_input "matrix") as [[|]| |]; [| |done..]; cbn [bind].
  - destruct (member json_input "matrix") as [mv| |]; [|done..]. cbn [bind].
    destruct (load_matrix mv) as [matrix| |]; [|done..]. cbn [bind].
    destruct (Size mv) as [n| |]; [|done..]. cbn [bind].
    change (set_matrix (set_geometry input geometry) matrix)
      with (set_geometry (set_matrix input matrix) geometry).
    rewrite add_jobs_geometry. unfold lift at 1 2.
    destruct (add_jobs _ has_jobs json_input (set_matrix input matrix))
      as [input'| |]; [|done..].
    cbn [bind]. apply add_shipments_geometry.
  - rewrite add_jobs_geometry. unfold lift at 1 2.
    destruct (add_jobs _ has_jobs json_input input) as [input'| |]; [|done..].
    cbn [bind]. apply add_shipments_geometry.
Qed.

Lemma read_document_geometry geometry geometry' json_input :
  read_document geometry json_input =
  lift (λ st, (set_geometry st.1 geometry, st.2))
    (read_document geometry' json_input).
Proof.
  unfold read_document.
  destruct (has_nonempty_array json_input "jobs") as [hj| |]; [|done..].
  cbn [bind].
  destruct (has_nonempty_array json_input "shipments") as [hs| |]; [|done..].
  cbn [bind].
  destruct (when _ _) as [u1| |]; [|done..]. cbn [bind].
  destruct (when _ _) as [u2| |]; [|done..]. cbn [bind].
  destruct (member json_input "vehicles") as [vs| |]; [|done..]. cbn [bind].
  destruct (elem vs 0) as [v0| |]; [|done..]. cbn [bind].
  destruct (check_id v0 "vehicle") as [u3| |]; [|done..]. cbn [bind].
  destruct (first_vehicle_amount_size v0) as [size| |]; [|done..]. cbn [bind].
  change (set_geometry (Input_new size) geometry)
    with (set_geometry (set_geometry (Input_new size) geometry') geometry).
  rewrite add_vehicles_geometry. unfold lift at 1 2.
  destruct (add_vehicles size vs (set_geometry (Input_new size) geometry'))
    as [[input common]| |]; [|done..].
  cbn [bind fst snd]. rewrite switch_input_type_geometry. unfold lift.
  by destruct (switch_input_type size hj hs json_input input).
Qed.

(** X20: the geometry flag of the command line is stored in the aggregate
    and has no other effect: with another flag the same documents are
    accepted, the same errors are reported, and the aggregates differ in the
    flag only. *)
Theorem geometry_passed_through (cl_args : CLArgs) (geometry : bool)
    (json_input : Value) :
  parse (mkCLArgs geometry (cl_router cl_args) (cl_servers cl_args)) json_input =
  lift (λ input, set_geometry input geometry) (parse cl_args json_input).
Proof.
  rewrite !parse_read_document. cbn [cl_geometry].
  rewrite (read_document_geometry geometry (cl_geometry cl_args)). unfold lift.
  destruct (read_document (cl_geometry cl_args) json_input) as [[input common]| |];
    [|done..].
  cbn [bind fst snd].
  assert (routing_wrapper (mkCLArgs geometry (cl_router cl_args) (cl_servers cl_args))
            common = routing_wrapper cl_args common) as -> by done.
  by destruct (routing_wrapper cl_args common).
Qed.

(** ** [parse] in closed form *)

Lemma for_index_registers {A B} (f : A → result B) (add : Input → B → Input)
    (l : list A) (i : nat) (input : Input) ys :
  mapM f l = Ok ys →
  for_index (λ input (_ : nat) x, let* y := f x in Ok (add input y)) i input l
    = Ok (foldl add input ys).
Proof.
  revert i input ys. induction l as [|x l IH]; simpl; intros i input ys H.
  - by injection H as <-.
  - inv_bind H y Hy. inv_bind H ys' Hys. injection H as <-.
    rewrite Hy. cbn [bind]. by rewrite (IH _ _ ys').
Qed.

Lemma add_jobs_registers job m input js :
  mapM job (array_field m "jobs") = Ok js →
  add_jobs job (nonempty_array (FindMember m "jobs")) (JObject m) input
    = Ok (foldl add_job input js).
Proof.
  unfold add_jobs, array_field. simpl.
  destruct (FindMember m "jobs") as [[| | | | |[|x l]|]|]; simpl;
    try (by intros [= <-]).
  exact (for_index_registers job add_job (x :: l) 0%nat input js).
Qed.

Lemma add_shipments_registers shipment m input ss :
  mapM shipment (array_field m "shipments") = Ok ss →
  add_shipments shipment (nonempty_array (FindMember m "shipments")) (JObject m) input
    = Ok (foldl (λ input pd, add_shipment input pd.1 pd.2) input ss).
Proof.
  unfold add_shipments, array_field. simpl.
  destruct (FindMember m "shipments") as [[| | | | |[|x l]|]|]; simpl;
    try (by intros [= <-]).
  exact (for_index_registers shipment (λ input pd, add_shipment input pd.1 pd.2)
           (x :: l) 0%nat input ss).
Qed.

Lemma for_index_parse_vehicles amount_size l i input common vs ps :
  mapM (λ v, get_vehicle v amount_size) l = Ok vs →
  mapM (λ v, get_string v "profile") l = Ok ps →
  for_index (λ st (_ : nat) json_vehicle, parse_vehicle amount_size st json_vehicle)
    i (input, common) l
  = Ok (foldl add_vehicle input vs, common_profile_of DEFAULT_PROFILE common ps).
Proof.
  revert i input common vs ps.
  induction l as [|x l IH]; simpl; intros i input common vs ps Hvs Hps.
  - injection Hvs as <-. by injection Hps as <-.
  - inv_bind Hvs v Hv. inv_bind Hvs vs' Hvs'. injection Hvs as <-.
    inv_bind Hps p Hp. inv_bind Hps ps' Hps'. injection Hps as <-.
    unfold parse_vehicle at 1. rewrite Hv. cbn [bind]. rewrite Hp. cbn [bind fst snd].
    by rewrite (IH _ _ _ vs' ps').
Qed.

(** X21: [parse] accepts a document exactly when it has jobs or shipments
    and vehicles, every vehicle, job and shipment is accepted by its builder
    for the capacity dimension of the first vehicle, every [profile] is a
    string, the matrix loads when there is one, and a routing wrapper can be
    built for the common profile; the aggregate then holds what the builders
    returned, in the order of the document. *)
Theorem parse_succeeds_iff (cl_args : CLArgs) (m : list (string * Value))
    (input : Input) :
  parse cl_args (JObject m) = Ok input ↔
  ∃ v0 vs amount_size vehicles profiles jobs shipments w,
    nonempty_array (FindMember m "jobs") || nonempty_array (FindMember m "shipments")
      = true ∧
    FindMember m "vehicles" = Some (JArray (v0 :: vs)) ∧
    first_vehicle_amount_size v0 = Ok amount_size ∧
    mapM (λ v, get_vehicle v amount_size) (v0 :: vs) = Ok vehicles ∧
    mapM (λ v, get_string v "profile") (v0 :: vs) = Ok profiles ∧
    routing_wrapper cl_args (common_profile_of DEFAULT_PROFILE "" profiles) = Ok w ∧
    match FindMember m "matrix" with
    | Some mv => ∃ rows matrix,
        mv = JArray rows ∧ load_matrix mv = Ok matrix ∧
        mapM (parse_job_matrix amount_size (length rows)) (array_field m "jobs")
          = Ok jobs ∧
        mapM (parse_shipment amount_size (parse_side_matrix (length rows)))
          (array_field m "shipments") = Ok shipments ∧
        input = mkInput amount_size (cl_geometry cl_args) vehicles jobs shipments
                  (Some matrix) (Some w)
    | None =>
        mapM (parse_job_routing amount_size) (array_field m "jobs") = Ok jobs ∧
        mapM (parse_shipment amount_size parse_side_routing)
          (array_field m "shipments") = Ok shipments ∧
        input = mkInput amount_size (cl_geometry cl_args) vehicles jobs shipments
                  None (Some w)
    end.
Proof.
  split.
  - intros H. apply parse_Ok_inv in H
      as (m' & v0 & vs & amount_size & vehicles & profiles & jobs & ships & w &
          [= <-] & H).
    by exists v0, vs, amount_size, vehicles, profiles, jobs, ships, w.
  - intros (v0 & vs & amount_size & vehicles & profiles & jobs & ships & w &
            Hne & Hv & Hsize & Hvehicles & Hprofiles & Hw & Hmode).
    rewrite parse_read_document. unfold read_document.
    rewrite !has_nonempty_array_object. cbn [bind].
    apply orb_true_iff in Hne.
    assert (negb (nonempty_array (FindMember m "jobs"))
              && negb (nonempty_array (FindMember m "shipments")) = false) as ->.
    { destruct Hne as [-> | ->]; [done|by rewrite andb_false_r]. }
    unfold when at 1. cbn [bind].
    unfold or_else, not_, lift, when at 1. simpl. rewrite Hv. simpl.
    assert (check_id v0 "vehicle" = Ok tt) as ->.
    { simpl in Hvehicles. inv_bind Hvehicles veh Hveh.
      apply get_vehicle_Ok_inv in Hveh as (m0 & -> & Hid & _).
      by apply (check_id_has_id m0 (vehicle_id veh)). }
    cbn [bind]. rewrite Hsize. cbn [bind].
    unfold add_vehicles. cbn [elements_of bind].
    rewrite (for_index_parse_vehicles amount_size (v0 :: vs) 0 _ "" vehicles profiles)
      by done.
    cbn [bind fst snd]. rewrite foldl_add_vehicle. unfold switch_input_type. simpl.
    destruct (FindMember m "matrix") as [mv|]; simpl.
    + destruct Hmode as (rows & matrix & -> & Hmatrix & Hjobs & Hships & ->).
      rewrite Hmatrix. simpl.
      rewrite (add_jobs_registers _ m _ jobs Hjobs). cbn [bind].
      rewrite (add_shipments_registers _ m _ ships Hships). cbn [bind fst snd].
      rewrite Hw. cbn [bind].
      by rewrite foldl_add_shipment, foldl_add_job.
    + destruct Hmode as (Hjobs & Hships & ->).
      rewrite (add_jobs_registers _ m _ jobs Hjobs). cbn [bind].
      rewrite (add_shipments_registers _ m _ ships Hships). cbn [bind fst snd].
      rewrite Hw. cbn [bind].
      by rewrite foldl_add_shipment, foldl_add_job.
Qed.

(** ** The order of the checks *)

Lemma for_index_mapM {A B} (f : A → result B) (add : Input → B → Input)
    (l : list A) (i : nat) (input : Input) :
  for_index (λ input (_ : nat) x, let* y := f x in Ok (add input y)) i input l
  = let* ys := mapM f l in Ok (foldl add input ys).
Proof.
  revert i input. induction l as [|x l IH]; intros i input; simpl; [done|].
  destruct (f x) as [y| |]; simpl; [|done..]. rewrite IH.
  by destruct (mapM f l).
Qed.

Lemma add_jobs_mapM job m input :
  add_jobs job (nonempty_array (FindMember m "jobs")) (JObject m) input
  = let* js := mapM job (array_field m "jobs") in Ok (foldl add_job input js).
Proof.
  unfold add_jobs, array_field. simpl.
  destruct (FindMember m "jobs") as [[| | | | |[|x l]|]|]; simpl; try done.
  exact (for_index_mapM job add_job (x :: l) 0%nat input).
Qed.

Lemma add_shipments_mapM shipment m input :
  add_shipments shipment (nonempty_array (FindMember m "shipments")) (JObject m) input
  = let* ss := mapM shipment (array_field m "shipments") in
    Ok (foldl (λ input pd, add_shipment input pd.1 pd.2) input ss).
Proof.
  unfold add_shipments, array_field. simpl.
  destruct (FindMember m "shipments") as [[| | | | |[|x l]|]|]; simpl; try done.
  exact (for_index_mapM shipment (λ input pd, add_shipment input pd.1 pd.2)
           (x :: l) 0%nat input).
Qed.

Lemma for_index_parse_vehicle_mapM amount_size l i input common :
  for_index (λ st (_ : nat) json_vehicle, parse_vehicle amount_size st json_vehicle)
    i (input, common) l
  = let* read :=
      mapM (λ v, let* veh := get_vehicle v amount_size in
                 let* profile := get_string v "profile" in
                 Ok (veh, profile)) l in
    Ok (foldl add_vehicle input read.*1,
        common_profile_of DEFAULT_PROFILE common read.*2).
Proof.
  revert i input common. induction l as [|x l IH]; intros i input common; simpl;
    [done|].
  unfold parse_vehicle at 1.
  destruct (get_vehicle x amount_size) as [veh| |]; simpl; [|done..].
  destruct (get_string x "profile") as [p| |]; simpl; [|done..].
  rewrite IH. by destruct (mapM _ l).
Qed.

Lemma mapM_first_failure {A B} (f : A → result B) l e msg :
  mapM f l = Throw e msg ↔
  ∃ l1 x l2 ys, l = l1 ++ x :: l2 ∧ mapM f l1 = Ok ys ∧ f x = Throw e msg.
Proof.
  split.
  - induction l as [|x l IH]; simpl; [done|]. intros H.
    destruct (f x) as [y| |] eqn:Hx; simpl in H.
    + destruct (mapM f l) as [ys| |] eqn:Hl; simpl in H; [done| |done].
      destruct (IH H) as (l1 & x' & l2 & ys & -> & Hl1 & Hx').
      exists (x :: l1), x', l2, (y :: ys). simpl. by rewrite Hx, Hl1.
    + injection H as <- <-. by exists [], x, l, [].
    + done.
  - intros (l1 & x & l2 & ys & -> & Hl1 & Hx). revert ys Hl1.
    induction l1 as [|x1 l1 IH]; simpl; intros ys Hl1; [by rewrite Hx|].
    inv_bind Hl1 y Hy. inv_bind Hl1 ys' Hys. rewrite Hy. simpl.
    by rewrite (IH ys').
Qed.

Lemma parse_after_main_checks cl_args m v0 vs :
  nonempty_array (FindMember m "jobs") || nonempty_array (FindMember m "shipments")
    = true →
  FindMember m "vehicles" = Some (JArray (v0 :: vs)) →
  parse cl_args (JObject m) =
    (check_id v0 "vehicle" ;;;
     let* amount_size := first_vehicle_amount_size v0 in
     let* st :=
       add_vehicles amount_size (JArray (v0 :: vs))
         (set_geometry (Input_new amount_size) (cl_geometry cl_args)) in
     let* input :=
       switch_input_type amount_size (nonempty_array (FindMember m "jobs"))
         (nonempty_array (FindMember m "shipments")) (JObject m) st.1 in
     let* w := routing_wrapper cl_args st.2 in
     Ok (set_routing input w)).
Proof.
  intros Hne Hv. rewrite parse_read_document. unfold read_document.
  rewrite !has_nonempty_array_object. cbn [bind].
  apply orb_true_iff in Hne.
  assert (negb (nonempty_array (FindMember m "jobs"))
            && negb (nonempty_array (FindMember m "shipments")) = false) as ->.
  { destruct Hne as [-> | ->]; [done|by rewrite andb_false_r]. }
  unfold when at 1. cbn [bind].
  unfold or_else, not_, lift, when at 1. simpl. rewrite Hv. simpl.
  destruct (check_id v0 "vehicle") as [u| |]; [|done..]. cbn [bind].
  destruct (first_vehicle_amount_size v0) as [amount_size| |]; [|done..]. cbn [bind].
  destruct (add_vehicles _ _ _) as [st| |]; [|done..]. cbn [bind].
  by destruct (switch_input_type _ _ _ _ _).
Qed.

(** X22: [parse] fails fast, in a fixed order: after the two main checks it
    reads the vehicles in the order of the document, each vehicle and then
    its profile, then the matrix, then the jobs and then the shipments in
    the order of the document, and last the routing wrapper; its outcome is
    the first failure of this sequence, and the aggregate of what was read
    when there is none.  The first failure of a traversal is that of the
    first entry that fails. *)
Theorem parse_fails_fast (cl_args : CLArgs) (m : list (string * Value))
    (v0 : Value) (vs : list Value) :
  nonempty_array (FindMember m "jobs") || nonempty_array (FindMember m "shipments")
    = true →
  FindMember m "vehicles" = Some (JArray (v0 :: vs)) →
  parse cl_args (JObject m) =
    (check_id v0 "vehicle" ;;;
     let* amount_size := first_vehicle_amount_size v0 in
     let* read :=
       mapM (λ v, let* veh := get_vehicle v amount_size in
                  let* profile := get_string v "profile" in
                  Ok (veh, profile)) (v0 :: vs) in
     let* entities :=
       match FindMember m "matrix" with
       | Some mv =>
           let* matrix := load_matrix mv in
           let* matrix_size := Size mv in
           let* jobs :=
             mapM (parse_job_matrix amount_size matrix_size) (array_field m "jobs") in
           let* shipments :=
             mapM (parse_shipment amount_size (parse_side_matrix matrix_size))
               (array_field m "shipments") in
           Ok (Some matrix, jobs, shipments)
       | None =>
           let* jobs := mapM (parse_job_routing amount_size) (array_field m "jobs") in
           let* shipments :=
             mapM (parse_shipment amount_size parse_side_routing)
               (array_field m "shipments") in
           Ok (None, jobs, shipments)
       end in
     let* w :=
       routing_wrapper cl_args (common_profile_of DEFAULT_PROFILE "" read.*2) in
     Ok (mkInput amount_size (cl_geometry cl_args) read.*1 entities.1.2 entities.2
           entities.1.1 (Some w))) ∧
  ∀ (f : Value → result Job) l e msg,
    mapM f l = Throw e msg ↔
    ∃ l1 x l2 ys, l = l1 ++ x :: l2 ∧ mapM f l1 = Ok ys ∧ f x = Throw e msg.
Proof.
  intros Hne Hv. split; [|apply mapM_first_failure].
  rewrite (parse_after_main_checks cl_args m v0 vs Hne Hv).
  destruct (check_id v0 "vehicle") as [u| |]; [|done..]. cbn [bind].
  destruct (first_vehicle_amount_size v0) as [amount_size| |]; [|done..]. cbn [bind].
  unfold add_vehicles. cbn [elements_of bind].
  rewrite (for_index_parse_vehicle_mapM amount_size (v0 :: vs)).
  destruct (mapM _ (v0 :: vs)) as [read| |]; [|done..]. cbn [bind fst snd].
  rewrite foldl_add_vehicle. unfold switch_input_type. simpl.
  destruct (FindMember m "matrix") as [mv|]; simpl.
  - destruct (load_matrix mv) as [matrix| |] eqn:Hmatrix; [|done..]. simpl.
    destruct (load_matrix_Ok_inv _ _ Hmatrix) as [rows ->]. simpl.
    rewrite add_jobs_mapM.
    destruct (mapM _ (array_field m "jobs")) as [jobs| |]; [|done..]. cbn [bind].
    rewrite add_shipments_mapM.
    destruct (mapM _ (array_field m "shipments")) as [ships| |]; [|done..].
    cbn [bind fst snd].
    destruct (routing_wrapper _ _) as [w| |]; [|done..]. cbn [bind].
    by rewrite foldl_add_shipment, foldl_add_job.
  - rewrite add_jobs_mapM.
    destruct (mapM _ (array_field m "jobs")) as [jobs| |]; [|done..]. cbn [bind].
    rewrite add_shipments_mapM.
    destruct (mapM _ (array_field m "shipments")) as [ships| |]; [|done..].
    cbn [bind fst snd].
    destruct (routing_wrapper _ _) as [w| |]; [|done..]. cbn [bind].
    by rewrite foldl_add_shipment, foldl_add_job.
Qed.

(** ** The order of the time windows *)

Local Instance not_tw_lt_antisymm : AntiSymm (=) (λ a b, ¬ tw_lt b a).
Proof.
  intros [s1 e1] [s2 e2]. unfold tw_lt. simpl. intros H1 H2.
  f_equal; lia.
Qed.

Lemma sort_by_tw_perm raw raw' :
  raw ≡ₚ raw' → sort_by tw_lt raw = sort_by tw_lt raw'.
Proof.
  intros Hperm. unfold sort_by.
  apply (StronglySorted_unique (λ a b, ¬ tw_lt b a)).
  - apply (StronglySorted_merge_sort _).
  - apply (StronglySorted_merge_sort _).
  - by rewrite !merge_sort_Permutation.
Qed.

Lemma get_time_windows_perm l l' :
  l ≡ₚ l' →
  lift (sort_by tw_lt) (mapM get_time_window l)
  = lift (sort_by tw_lt) (mapM get_time_window l').
Proof.
  intros Hperm.
  set (tw_of := λ v, match get_time_window v with
                     | Ok tw => tw
                     | _ => TimeWindow_default
                     end).
  assert (∀ k, Forall (λ v, ∃ tw, time_window_read v tw) k →
               mapM get_time_window k = Ok (tw_of <$> k)) as Hok.
  { induction 1 as [|v k [tw Htw] _ IH]; [done|].
    apply get_time_window_read in Htw. cbn [mapM fmap list_fmap].
    rewrite IH, Htw. cbn [bind].
    assert (tw_of v = tw) as -> by (unfold tw_of; by rewrite Htw). done. }
  assert (∀ k, Forall (λ v, ∃ tw, time_window_read v tw) k ∨
               Exists (λ v, ∀ tw, ¬ time_window_read v tw) k) as Hcases.
  { induction k as [|v k IH]; [by left|].
    destruct (get_time_window_total v) as [[tw Htw]|Hv].
    - destruct IH as [IH|IH]; [left|right; by apply Exists_cons_tl].
      constructor; [|done]. exists tw. by apply get_time_window_read.
    - right. apply Exists_cons_hd. intros tw Htw.
      apply get_time_window_read in Htw. congruence. }
  destruct (Hcases l) as [Hl|Hl].
  - rewrite (Hok l Hl), (Hok l') by (by rewrite <- Hperm). unfold lift. simpl.
    f_equal. apply sort_by_tw_perm. by apply fmap_Permutation.
  - rewrite (get_time_windows_reject l Hl), (get_time_windows_reject l'); [done|].
    apply Exists_exists in Hl as (v & Hv & Hbad). apply Exists_exists.
    exists v. split; [by rewrite <- Hperm|done].
Qed.

(** X23: the time windows of a job and of a break do not depend on the
    order in which the document lists them: two objects with the same id
    whose [time_windows] arrays are permutations of each other are read
    alike, whether they are accepted or rejected. *)
Theorem time_windows_order_irrelevant (m m' : list (string * Value))
    (l l' : list Value) :
  FindMember m "id" = FindMember m' "id" →
  FindMember m "time_windows" = Some (JArray l) →
  FindMember m' "time_windows" = Some (JArray l') →
  l ≡ₚ l' →
  get_job_time_windows (JObject m) = get_job_time_windows (JObject m') ∧
  get_break_time_windows (JObject m) = get_break_time_windows (JObject m').
Proof.
  intros Hid Hl Hl' Hperm.
  pose proof (get_time_windows_perm l l' Hperm) as Hsame. unfold lift in Hsame.
  assert (bool_decide (l = []) = bool_decide (l' = [])) as Hempty.
  { apply bool_decide_ext. split; intros ->; [by apply Permutation_nil_l in Hperm|].
    by apply Permutation_nil_r in Hperm. }
  split.
  - unfold get_job_time_windows. rewrite (id_string_agree m m' Hid).
    unfold or_else. simpl. rewrite Hl, Hl'. simpl. rewrite Hempty.
    apply bind_ext. intros _. exact Hsame.
  - unfold get_break_time_windows. rewrite (id_string_agree m m' Hid).
    unfold or_else, not_, lift. simpl. rewrite Hl, Hl'. simpl. rewrite Hempty.
    apply bind_ext. intros _. exact Hsame.
Qed.

End Parser.

(** ** The statements at the example documents

    The constants are those of a build without libosrm: priorities up to
    100 and the default profile [car]. *)

Local Abbreviation parse_example :=
  (parse right_to_left 100 "car" false (λ _, false) example_args).

(** The same under any order of evaluation. *)
Local Abbreviation parse_in rank :=
  (parse rank 100 "car" false (λ _, false) example_args).

(** C7, as stated: a document that is no object, such as the empty array,
    has neither jobs nor shipments, and it is not rejected with an INPUT
    error: its members are looked up outside the contract of the JSON
    accessor. *)
Lemma root_is_not_checked :
  (∀ rank, parse_in rank (JArray []) = AssertFail) ∧
  ¬ (∀ json_input,
       (∀ m, json_input = JObject m →
          nonempty_array (FindMember m "jobs") = false ∧
          nonempty_array (FindMember m "shipments") = false) →
       parse_example json_input = Throw INPUT "Invalid jobs or shipments.").
Proof.
  split; [done|]. intros Hclaim. by specialize (Hclaim (JArray []) ltac:(done)).
Qed.

Lemma parse_main_checks_witness :
  parse_example (JObject no_entities_document)
    = Throw INPUT "Invalid jobs or shipments." ∧
  parse_example (JObject no_vehicles_document) = Throw INPUT "Invalid vehicles.".
Proof.
  split.
  - apply (proj1 (parse_main_checks right_to_left 100 "car" false (λ _, false) example_args
                    no_entities_document)); reflexivity.
  - apply (proj2 (parse_main_checks right_to_left 100 "car" false (λ _, false) example_args
                    no_vehicles_document)); reflexivity.
Defined.

Lemma time_windows_sorted_witness :
  get_job_time_windows windows_job
    = Ok [mkTimeWindow 1 3; mkTimeWindow 5 6; mkTimeWindow 5 9] ∧
  get_break_time_windows (JObject windows_break)
    = Ok [mkTimeWindow 1 3; mkTimeWindow 5 6; mkTimeWindow 5 9] ∧
  StronglySorted tw_le [mkTimeWindow 1 3; mkTimeWindow 5 6; mkTimeWindow 5 9] ∧
  (∃ tws, get_job_time_windows (JObject windows_break) = Ok tws ∧
     get_break_time_windows (JObject windows_break) = Ok tws ∧
     StronglySorted tw_le tws ∧
     tws ≡ₚ [mkTimeWindow 5 9; mkTimeWindow 1 3; mkTimeWindow 5 6]) ∧
  get_break_time_windows (JObject windowless_break)
    = Throw INPUT "Invalid time_windows array for break 4." ∧
  get_break right_to_left (JObject windowless_break)
    = Throw INPUT "Invalid time_windows array for break 4." ∧
  is_input_error (get_break right_to_left (JObject undescribed_break)) ∧
  get_break right_to_left (JObject undescribed_break)
    = Throw INPUT "Invalid description value.".
Proof.
  destruct (time_windows_sorted right_to_left)
    as (Hjob & Hbreak & Hboth & _ & Hnone).
  split_and!; [..|reflexivity].
  - reflexivity.
  - reflexivity.
  - apply (Hbreak (JObject windows_break)). reflexivity.
  - apply (Hboth windows_break
             [JArray [JInt 5; JInt 9]; JArray [JInt 1; JInt 3]; JArray [JInt 5; JInt 6]]);
      [reflexivity|discriminate|reflexivity].
  - apply (Hnone windowless_break 4); [split; [reflexivity|lia]|reflexivity].
  - apply (Hnone windowless_break 4); [split; [reflexivity|lia]|reflexivity| |];
      by eexists.
  - apply (Hnone undescribed_break 4); [split; [reflexivity|lia]|reflexivity].
Defined.

Lemma location_index_checked_witness :
  check_location_index (JObject far_job) "job" 2
    = Throw INPUT "location_index exceeding matrix size for job 1." ∧
  Forall (side_indexed 2) (array_field matrix_document "jobs").
Proof.
  destruct (location_index_checked right_to_left 100 "car" false (λ _, false) far_job 1 "job" 2)
    as (_ & Hindex & _ & Hparse & _).
  { split; [reflexivity|lia]. }
  split.
  - apply (Hindex 5); [reflexivity|lia|simpl; lia].
  - destruct (Hparse example_args matrix_document
                [JArray [JInt 0; JInt 5]; JArray [JInt 5; JInt 0]]
                (mkInput 1 false
                   [mkVehicle 1 (Some (Location_index 0)) None [2] ∅
                      TimeWindow_default [] "" []]
                   [Job_single 1 (Location_index 0) 0 [0] [0] ∅ 0
                      [TimeWindow_default] ""]
                   [(Job_shipment 2 PICKUP (Location_index 1) 0 [1] ∅ 0
                       [TimeWindow_default] "",
                     Job_shipment 3 DELIVERY (Location_index 0) 0 [1] ∅ 0
                       [TimeWindow_default] "")]
                   (Some [[0; 5]; [5; 0]])
                   (Some (OsrmRoutedWrapper "car" (mkServer "localhost" "5000")))))
      as [Hjobs _]; [vm_compute; reflexivity|reflexivity|exact Hjobs].
Defined.


Lemma job_amount_compat_witness :
  job_amounts_read 1 (JObject amount_job)
    (Job_single 1 (Location_coords (2.1%Q, 48.8%Q)) 0 [3] [0] ∅ 0
       [TimeWindow_default] "") ∧
  job_amounts_read 1 (JObject indexed_amount_job)
    (Job_single 1 (Location_index 0) 0 [3] [0] ∅ 0 [TimeWindow_default] "") ∧
  parse_job_matrix right_to_left 100 1 2 (JObject indexed_delivery_job)
    = Ok (Job_single 1 (Location_index 0) 0 [1] [2] ∅ 0 [TimeWindow_default] "") ∧
  parse_job_routing right_to_left 100 1 (JObject delivery_pickup_job)
    = Ok (Job_single 2 (Location_coords (2.3%Q, 48.9%Q)) 0 [1] [2] ∅ 0
            [TimeWindow_default] "") ∧
  parse_job_matrix right_to_left 100 1 2
    (JObject [("id", JInt 1); ("location_index", JInt 0)])
    = Ok (Job_single 1 (Location_index 0) 0 [0] [0] ∅ 0 [TimeWindow_default] "") ∧
  parse_job_routing right_to_left 100 1
    (JObject [("id", JInt 1); ("location", JArray [JDouble 2.1; JDouble 48.8])])
    = Ok (Job_single 1 (Location_coords (2.1%Q, 48.8%Q)) 0 [0] [0] ∅ 0
            [TimeWindow_default] "") ∧
  ∃ input,
    parse_example (JObject amounts_document) = Ok input ∧
    Forall2 (job_amounts_read (input_amount_size input))
      (array_field amounts_document "jobs") (input_jobs input).
Proof.
  destruct (job_amount_compat right_to_left 100 "car" false (λ _, false))
    as (Hjob & Hparse & Hreplace & Hindexed & Hlocated).
  split_and!.
  - apply Hjob. right. vm_compute; reflexivity.
  - apply Hjob. left. exists 2%nat. vm_compute; reflexivity.
  - apply (proj1 (Hreplace 1%nat indexed_amount_job indexed_delivery_job
                    (Job_single 1 (Location_index 0) 0 [3] [0] ∅ 0
                       [TimeWindow_default] "") [1] [2]
                    ltac:(intros key Hkey; simpl; repeat case_decide; subst;
                          first [reflexivity|destruct Hkey; repeat constructor])
                    ltac:(by eexists) eq_refl eq_refl
                    ltac:(repeat constructor; lia) ltac:(repeat constructor; lia))
             2%nat).
    vm_compute; reflexivity.
  - apply (proj2 (Hreplace 1%nat
                    [("id", JInt 2); ("location", JArray [JDouble 2.3; JDouble 48.9]);
                     ("amount", JArray [JInt 7])]
                    delivery_pickup_job
                    (Job_single 2 (Location_coords (2.3%Q, 48.9%Q)) 0 [7] [0] ∅ 0
                       [TimeWindow_default] "") [1] [2]
                    ltac:(intros key Hkey; simpl; repeat case_decide; subst;
                          first [reflexivity|destruct Hkey; repeat constructor])
                    ltac:(by eexists) eq_refl eq_refl
                    ltac:(repeat constructor; lia) ltac:(repeat constructor; lia))).
    vm_compute; reflexivity.
  - apply (Hindexed 1%nat 2%nat 1 0); lia.
  - apply (Hlocated 1%nat 1 2.1%Q 48.8%Q); lia.
  - eexists. split; [vm_compute; reflexivity|].
    apply (Hparse example_args amounts_document). vm_compute; reflexivity.
Defined.





Lemma profiles_documents_related :
  members_related later_profiles_changed (profiles_document "bike")
    (profiles_document "truck").
Proof.
  constructor; [split; [done|by left]|].
  constructor; [split; [done|]|constructor].
  right. split; [done|]. eexists _, _, _. split_and!; [done..|].
  constructor; [|constructor]. right. eexists _, _. split_and!; [done..|].
  constructor; [split; [done|by left]|].
  constructor; [split; [done|]|constructor].
  right. done.
Qed.

Lemma common_profile_is_first_vehicle_witness :
  (∃ input w,
     parse_example (JObject (profiles_document "bike")) = Ok input ∧
     input_routing input = Some w ∧ wrapper_profile w = "car") ∧
  parse_example (JObject (profiles_document "bike"))
    = parse_example (JObject (profiles_document "truck")).
Proof.
  destruct (common_profile_is_first_vehicle right_to_left 100 "car" false (λ _, false))
    as (_ & Hfirst & Hsame); [discriminate|].
  split.
  - destruct (Hfirst example_args (profiles_document "bike") _
                ltac:(vm_compute; reflexivity))
      as [(first & rest & w & Hvehicles & _ & Hrouting & Hprofile) _].
    injection Hvehicles as <- <-. eexists _, w. split_and!; [reflexivity|done..].
  - apply Hsame. exact profiles_documents_related.
Defined.

(** C6, as stated: the profile string of the only vehicle of the example
    document is not empty, and yet the routing wrapper is built for the
    default profile: the string starts with a NUL character, where the
    profile that is read of it ends. *)
Lemma profile_ends_at_nul :
  nul_profile ≠ "" ∧
  (∀ rank, ∃ input,
     parse_in rank (JObject nul_profile_document) = Ok input ∧
     input_routing input = Some (OsrmRoutedWrapper "car" (mkServer "localhost" "5000"))) ∧
  ¬ (∀ document input first rest profile w,
       parse_example (JObject document) = Ok input →
       FindMember document "vehicles" = Some (JArray (JObject first :: rest)) →
       FindMember first "profile" = Some (JString profile) → profile ≠ "" →
       input_routing input = Some w → wrapper_profile w = profile).
Proof.
  split_and!.
  - discriminate.
  - intros rank. eexists. split; [vm_compute; reflexivity|reflexivity].
  - intros Hclaim.
    specialize (Hclaim nul_profile_document _ _ _ nul_profile _
                  ltac:(vm_compute; reflexivity) eq_refl eq_refl ltac:(discriminate)
                  eq_refl).
    discriminate Hclaim.
Qed.

Lemma routing_objects_related (id : Z) (i j : Value) (rest : list (string * Value)) :
  objects_related location_index_changed
    (JObject (("id", JInt id) :: ("location_index", i) :: rest))
    (JObject (("id", JInt id) :: ("location_index", j) :: rest)).
Proof.
  right. eexists _, _. split_and!; [done..|].
  constructor; [split; [done|by left]|].
  constructor; [split; [done|by right]|].
  induction rest as [|[k x] rest IH]; constructor; [|done].
  split; [done|by left].
Qed.

Lemma routing_documents_related :
  members_related entities_changed
    (routing_document (JInt 5) (JString "x"))
    (routing_document (JBool true) (JInt 0)).
Proof.
  constructor; [split; [done|]|].
  { right. eexists _, _. split_and!; [done..|]. left. split; [done|].
    constructor; [|constructor]. apply routing_objects_related. }
  constructor; [split; [done|]|].
  { right. eexists _, _. split_and!; [done..|]. right. split; [done|].
    constructor; [|constructor]. right. eexists _, _. split_and!; [done..|].
    constructor; [split; [done|]|].
    { right. split; [by left|]. apply routing_objects_related. }
    constructor; [split; [done|by left]|constructor]. }
  constructor; [split; [done|by left]|constructor].
Qed.

Lemma routing_mode_reads_locations_only_witness :
  check_location (JObject locationless_job) "job"
    = Throw INPUT "Invalid location for job 6." ∧
  parse_example (JObject (routing_document (JInt 5) (JString "x")))
    = parse_example (JObject (routing_document (JBool true) (JInt 0))).
Proof.
  destruct (routing_mode_reads_locations_only right_to_left 100 "car" false (λ _, false))
    as (Hcheck & _ & _ & Hsame).
  split.
  - apply (Hcheck locationless_job 6 "job").
    + split; [reflexivity|lia].
    + intros x Hx. discriminate Hx.
  - apply Hsame; [reflexivity|exact routing_documents_related].
Defined.

Lemma empty_matrix_never_succeeds_witness :
  is_input_error (parse_example (JObject empty_matrix_document)).
Proof.
  destruct (empty_matrix_never_succeeds right_to_left 100 "car" false (λ _, false)) as [_ Hreject].
  destruct (Hreject example_args empty_matrix_document eq_refl) as (_ & _ & Herror).
  apply Herror. repeat constructor. intros m [= <-]. constructor.
Defined.

(** C10, as stated: the matrix of the example document is the empty array,
    and the run ends in no INPUT error: a step of its vehicle is no object. *)
Lemma empty_matrix_without_input_error :
  FindMember empty_matrix_step_document "matrix" = Some (JArray []) ∧
  (∀ rank, parse_in rank (JObject empty_matrix_step_document) = AssertFail) ∧
  ¬ (∀ document,
       FindMember document "matrix" = Some (JArray []) →
       is_input_error (parse_example (JObject document))).
Proof.
  split_and!.
  - reflexivity.
  - intros rank. vm_compute; reflexivity.
  - intros Hclaim. destruct (Hclaim empty_matrix_step_document eq_refl) as [msg H].
    vm_compute in H. discriminate H.
Qed.

(** ** The further statements at example documents *)

Lemma load_matrix_square_witness :
  load_matrix (JArray [JArray [JInt 0; JInt 5]; JArray [JInt 5; JInt 0]])
    = Ok [[0; 5]; [5; 0]].
Proof.
  apply (proj2 (load_matrix_square _ [[0; 5]; [5; 0]])).
  split; [reflexivity|].
  repeat (constructor; [split; [reflexivity|repeat (constructor; [lia|])]|]);
    constructor.
Defined.

Lemma load_matrix_reports_first_error_witness :
  load_matrix broken_matrix = Throw INPUT "Invalid matrix entry (1,1).".
Proof.
  destruct (load_matrix_reports_first_error [[0; 5]]
              (JArray [JInt 5; JString "far"]) [] 2) as (_ & Hentry & _).
  - reflexivity.
  - constructor; [|constructor]. split; [reflexivity|].
    repeat (constructor; [lia|]). constructor.
  - apply (Hentry [5] (JString "far") []); [reflexivity..| |reflexivity].
    constructor; [lia|constructor].
Defined.

Lemma parse_coordinates_leading_numbers_witness :
  parse_coordinates (JObject located_job) "location" = Ok (2%Q, 48.5%Q).
Proof.
  apply (proj1 (parse_coordinates_leading_numbers located_job "location")).
  eexists. split; [reflexivity|]. by eexists _, _, _.
Defined.

Lemma skills_form_a_set_witness :
  get_skills (JObject (skilled [2; 1; 2])) = get_skills (JObject (skilled [1; 2])).
Proof.
  destruct (skills_form_a_set (skilled [2; 1; 2])) as (_ & _ & Hsame & _).
  apply (Hsame (skilled [1; 2]) [2; 1; 2] [1; 2]); [reflexivity..|].
  intros x. rewrite !elem_of_cons, !elem_of_nil. tauto.
Defined.

Lemma priority_within_bounds_witness :
  get_priority 100 (JObject [("priority", JInt 101)])
    = Throw INPUT "Invalid priority value." ∧
  ∃ input,
    parse_example (JObject tour_document) = Ok input ∧
    Forall2 (λ s pd, ∃ m, s = JObject m ∧
               uint_read (FindMember m "priority") (job_priority pd.1) ∧
               job_priority pd.2 = job_priority pd.1 ∧
               (is_Some (FindMember m "priority") → job_priority pd.1 ≤ 100))
      (array_field tour_document "shipments") (input_shipments input).
Proof.
  destruct (priority_within_bounds right_to_left 100 "car" false (λ _, false))
    as (_ & Hgiven & _ & Hparse).
  split.
  - apply (Hgiven [("priority", JInt 101)] 101); [reflexivity|lia].
  - eexists. split; [vm_compute; reflexivity|].
    apply (Hparse example_args tour_document). vm_compute; reflexivity.
Defined.

Lemma service_and_description_read_witness :
  get_string (JObject nul_described) "description" = Ok "north" ∧
  ∃ input,
    parse_example (JObject tour_document) = Ok input ∧
    Forall2 (λ j job, ∃ m, j = JObject m ∧
               uint_read (FindMember m "service") (job_service job) ∧
               string_read (FindMember m "description") (job_description job))
      (array_field tour_document "jobs") (input_jobs input).
Proof.
  destruct (service_and_description_read right_to_left 100 "car" false (λ _, false))
    as (_ & _ & Hstring & _ & Hparse).
  split; [apply (Hstring nul_described "description" "north"); by eexists|].
  eexists. split; [vm_compute; reflexivity|].
  apply (Hparse example_args tour_document). vm_compute; reflexivity.
Defined.

Lemma locations_read_witness :
  is_input_error (parse_job_matrix right_to_left 100 0 2 (JObject misplaced_job)) ∧
  parse_job_matrix right_to_left 100 0 2 (JObject misplaced_job)
    = Throw INPUT "Invalid location array.".
Proof.
  destruct (locations_read right_to_left 100 "car" false (λ _, false)) as [_ Hbad].
  destruct (Hbad 0%nat 2%nat misplaced_job 1 (JString "Paris")) as [Hinput Hmessage].
  - split; [reflexivity|lia].
  - reflexivity.
  - reflexivity.
  - intros c (a & b & rest & Hk & _). discriminate Hk.
  - split; [exact Hinput|].
    apply (Hmessage [("id", JInt 1); ("location_index", JInt 0)]
             (Job_single 1 (Location_index 0) 0 [] [] ∅ 0 [TimeWindow_default] ""));
      [reflexivity| |vm_compute; reflexivity].
    intros key Hkey. simpl. repeat case_decide; subst; done.
Defined.

Lemma vehicle_ends_read_witness :
  get_vehicle right_to_left (JObject endless_vehicle) 0
    = Throw INPUT "Invalid end_index for vehicle7.".
Proof.
  destruct (vehicle_ends_read right_to_left 100 "car" false (λ _, false)) as (_ & _ & Hend & _).
  apply (Hend endless_vehicle 7 0%nat None (JString "depot")).
  - split; [reflexivity|lia].
  - reflexivity.
  - reflexivity.
  - reflexivity.
Defined.

Lemma time_windows_read_witness :
  get_job_time_windows (JObject windowless_job)
    = Throw INPUT "Invalid time_windows array for job 1.".
Proof.
  destruct (time_windows_read right_to_left 100 "car" false (λ _, false)) as (_ & _ & Hjob & _).
  apply (Hjob windowless_job 1 (JArray [])).
  - split; [reflexivity|lia].
  - reflexivity.
  - intros x l Hk. discriminate Hk.
Defined.

Lemma vehicle_breaks_sorted_witness :
  ∃ breaks,
    get_vehicle_breaks right_to_left (JObject tour_vehicle) = Ok breaks ∧
    break_id <$> breaks = [1; 2] ∧ StronglySorted break_le breaks.
Proof.
  destruct (vehicle_breaks_sorted right_to_left 100 "car" false (λ _, false))
    as (_ & _ & Hread & _).
  eexists. split; [vm_compute; reflexivity|]. split; [reflexivity|].
  destruct (Hread (JObject tour_vehicle) _ ltac:(vm_compute; reflexivity))
    as (m & raw & _ & _ & _ & Hsorted).
  exact Hsorted.
Defined.

Lemma vehicle_steps_in_order_witness :
  get_vehicle_steps (JObject nul_step_vehicle)
    = Ok [StepJob SINGLE 3 (mkForcedService None None None)] ∧
  get_vehicle_steps (JObject teleporting_vehicle)
    = Throw INPUT "Invalid id in steps for vehicle 7.".
Proof.
  destruct (vehicle_steps_in_order right_to_left 100 "car" false (λ _, false))
    as (_ & _ & Hsteps & _ & Hstep & _).
  split.
  { apply (Hsteps nul_step_vehicle).
    - intros k [= <-]. reflexivity.
    - constructor; [|constructor]. eexists. split; [reflexivity|].
      split; [repeat split|]. split; [split; [reflexivity|lia]|].
      by exists job_nul_x. }
  destruct (Hstep teleporting_vehicle 7 [] [] [("type", JString "teleport")] []
              (mkForcedService None None None) "teleport") as [Hid _].
  - split; [reflexivity|lia].
  - reflexivity.
  - constructor.
  - repeat split.
  - by exists "teleport".
  - discriminate.
  - discriminate.
  - apply Hid. intros i [Hi _]. discriminate Hi.
Defined.

Lemma routing_wrapper_selected_witness :
  parse right_to_left 100 "car" false (λ _, false) libosrm_args (JObject tour_document)
    = Throw ROUTING "VROOM compiled without libosrm installed.".
Proof.
  destruct (routing_wrapper_selected right_to_left 100 "car" false (λ _, false) libosrm_args)
    as (_ & Hbuild & _).
  destruct (Hbuild eq_refl eq_refl (JObject tour_document)) as [_ Hvalid].
  eapply Hvalid. vm_compute; reflexivity.
Defined.

Lemma shipments_paired_witness :
  check_shipment (JObject half_shipment) = Throw INPUT "Missing pickup for shipment.".
Proof.
  destruct (shipments_paired right_to_left 100 "car" false (λ _, false)) as (_ & Hpickup & _).
  apply (Hpickup half_shipment). intros p Hp. discriminate Hp.
Defined.

Lemma parse_reads_four_members_witness :
  parse_example (JObject (profiles_document "bike"))
    = parse_example (JObject annotated_document).
Proof.
  apply (parse_reads_four_members right_to_left 100 "car" false (λ _, false)).
  intros k Hk. apply list_elem_of_In in Hk. simpl in Hk.
  destruct Hk as [<-|[<-|[<-|[<-|[]]]]]; reflexivity.
Defined.

Lemma entities_read_through_known_members_witness :
  get_vehicle right_to_left (JObject painted_vehicle) 0
    = get_vehicle right_to_left (JObject [("id", JInt 1)]) 0.
Proof.
  destruct (entities_read_through_known_members right_to_left 100 "car" painted_vehicle
              [("id", JInt 1)]) as (_ & _ & _ & _ & _ & Hvehicle & _).
  apply Hvehicle. intros k Hk. apply list_elem_of_In in Hk. simpl in Hk.
  repeat (destruct Hk as [<-|Hk]; [reflexivity|]). destruct Hk.
Defined.

Lemma accessors_guarded_witness :
  defined (parse_example (JObject tour_document)).
Proof.
  destruct (accessors_guarded right_to_left 100 "car" false (λ _, false)) as [Hparse _].
  apply Hparse. constructor; [|constructor]. intros m [= <-].
  repeat constructor.
Defined.

Lemma aggregate_settings_witness :
  ∃ input,
    parse_example (JObject matrix_document) = Ok input ∧
    input_geometry input = false ∧
    input_matrix input = Some [[0; 5]; [5; 0]] ∧
    length (input_shipments input) = 1%nat.
Proof.
  eexists. split; [vm_compute; reflexivity|].
  destruct (aggregate_settings right_to_left 100 "car" false (λ _, false) example_args
              matrix_document _ ltac:(vm_compute; reflexivity))
    as (Hgeometry & _ & _ & _ & _ & Hshipments & _).
  split; [exact Hgeometry|]. split; [reflexivity|exact Hshipments].
Defined.

Lemma get_amount_entries_witness :
  get_amount (JObject mixed_capacity) "capacity" 2
    = Throw INPUT "Invalid capacity value.".
Proof.
  destruct (get_amount_entries mixed_capacity "capacity" 2) as (_ & _ & Hentry).
  apply (Hentry [JInt 4; JString "many"]); [reflexivity..|].
  apply Exists_cons_tl, Exists_cons_hd. reflexivity.
Defined.

Lemma ids_checked_witness :
  parse_example (JObject numbered_vehicle_document) = Throw INPUT "Invalid vehicle.".
Proof.
  destruct (ids_checked right_to_left 100 "car" false (λ _, false)) as (_ & _ & _ & Hfirst).
  destruct (Hfirst example_args numbered_vehicle_document (JInt 5) [])
    as [Hvehicle _]; [reflexivity..|].
  by apply Hvehicle.
Defined.

Lemma parse_succeeds_iff_witness :
  ∃ input jobs,
    parse_example (JObject amounts_document) = Ok input ∧
    mapM (parse_job_routing right_to_left 100 1) (array_field amounts_document "jobs") = Ok jobs ∧
    input_jobs input = jobs.
Proof.
  eexists.
  destruct (proj1 (parse_succeeds_iff right_to_left 100 "car" false (λ _, false) example_args
                     amounts_document _) ltac:(vm_compute; reflexivity))
    as (v0 & vs & amount_size & vehicles & profiles & jobs & ships & w &
        _ & Hv & Hsize & _ & _ & _ & Hjobs & _ & _).
  injection Hv as <- <-. injection Hsize as <-.
  exists jobs. split; [vm_compute; reflexivity|]. split; [exact Hjobs|].
  vm_compute in Hjobs. injection Hjobs as <-. reflexivity.
Defined.

Lemma geometry_passed_through_witness :
  parse right_to_left 100 "car" false (λ _, false)
    (mkCLArgs true OSRM {[ "car" := mkServer "localhost" "5000" ]})
    (JObject matrix_document)
  = lift (λ input, set_geometry input true) (parse_example (JObject matrix_document)).
Proof.
  exact (geometry_passed_through right_to_left 100 "car" false (λ _, false) example_args true
           (JObject matrix_document)).
Defined.

Lemma parse_fails_fast_witness :
  parse_example (JObject broken_document)
    = Throw INPUT "Invalid matrix entry (1,1).".
Proof.
  destruct (parse_fails_fast right_to_left 100 "car" false (λ _, false) example_args
              broken_document (JObject [("id", JInt 1)]) []) as [Hparse _];
    [reflexivity..|].
  rewrite Hparse. reflexivity.
Defined.

Lemma time_windows_order_irrelevant_witness :
  get_job_time_windows
    (JObject (two_windows_job (JArray [JInt 50; JInt 90]) (JArray [JInt 10; JInt 30])))
  = get_job_time_windows
      (JObject (two_windows_job (JArray [JInt 10; JInt 30]) (JArray [JInt 50; JInt 90]))).
Proof.
  apply (time_windows_order_irrelevant
           (two_windows_job (JArray [JInt 50; JInt 90]) (JArray [JInt 10; JInt 30]))
           (two_windows_job (JArray [JInt 10; JInt 30]) (JArray [JInt 50; JInt 90]))
           [JArray [JInt 50; JInt 90]; JArray [JInt 10; JInt 30]]
           [JArray [JInt 10; JInt 30]; JArray [JInt 50; JInt 90]]);
    [reflexivity..|].
  apply Permutation_swap.
Defined.
